(** * Icon Minifier: crawler normalisation, icon classification and the
      codepoint subsetting engine (src/unnamed/part_001, the TypeScript source of
      dist/src/minifier.js).

    The development embeds the pure core of the minifier:
    - [findPrefix] / [getPrefixFromIconClasses]  (prefix inference),
    - [findIcons]                                (normalisation of crawled matches),
    - [Icon_parse]                               (classification),
    - [FontManager.minify] with its closures [newCodepoint], [addGlyph],
      [registerMapping], [hasIntersection], [toIconSelector].

    The embedding follows the TypeScript source.  The compiled file under
    dist/ is an older build (there [Icon.parse] throws when no token is an
    icon class, [addGlyph] packs a glyph on every call and the expansion
    throws on a descriptor without the glyph).

    Conventions.
    - A JavaScript string is a [string]; a character is one code unit, restricted
      to the 8-bit range of [ascii].  Comparison of strings is by code units, as
      in JavaScript.
    - A JavaScript number holding a codepoint is a [Z] (the counter is only ever
      incremented by one from an integer base, far below 2^53).
    - [undefined] / [null] are [None].
    - A thrown [Error] is [Throw e]; the message is kept as a constructor of
      [Error] together with the values interpolated in it.
    - File system, network and regular-expression matching are outside the
      embedding: their results are arguments (the list of regex matches, the
      descriptors after [loadFonts]). *)

From Stdlib Require Import ZArith Ascii String List.
From stdpp Require Import base tactics option list sorting gmap strings fin_maps.

Local Open Scope string_scope.
Local Open Scope Z_scope.

(* ===================================================================== *)
(** ** Errors *)
(* ===================================================================== *)

Inductive Error : Type :=
| NoFontsAdded                                     (* "No fonts added." *)
| NoCodepointFound (icon_name : string)            (* "No codepoint found for ${icon.name}." *)
| CouldNotFindGlyphs (cp : Z) (icon_name : string) (* "Could not find glyphs for ${cp.toString(16)} (${icon.name})." *)
| MoreThanOneIconClass (names : list string)       (* "Detected icon with more than one icon class: ${names.join(' ')}." *)
| TypeError.                                       (* property access on undefined / null *)

Inductive Res (A : Type) : Type :=
| Ok (a : A)
| Throw (e : Error).
Arguments Ok {A} a.
Arguments Throw {A} e.

Global Instance Res_ret : MRet Res := fun A a => Ok a.
Global Instance Res_bind : MBind Res := fun A B k r =>
  match r with
  | Ok a => k a
  | Throw e => Throw e
  end.

(** [for (const x of l) { st = f st x }] where the body may throw. *)
Fixpoint foldM {A S : Type} (f : S → A → Res S) (st : S) (l : list A) : Res S :=
  match l with
  | [] => Ok st
  | x :: l' => st' ← f st x ; foldM f st' l'
  end.

(* ===================================================================== *)
(** ** JavaScript built-ins used by the source *)
(* ===================================================================== *)

Module JS.

(** The regular expression class [\s], on code units below 256:
    TAB, LF, VT, FF, CR, SPACE and NBSP (U+00A0). *)
Definition is_space (c : ascii) : bool :=
  match N_of_ascii c with
  | 9%N | 10%N | 11%N | 12%N | 13%N | 32%N | 160%N => true
  | _ => false
  end.

(** [s.split(sep)] for a one-character separator. *)
Fixpoint split_char (sep : ascii) (s : string) : list string :=
  match s with
  | EmptyString => [EmptyString]
  | String c s' =>
      if Ascii.eqb c sep then EmptyString :: split_char sep s'
      else match split_char sep s' with
           | t :: ts => String c t :: ts
           | [] => [String c EmptyString]
           end
  end.

(** [s.split(/\s+/)]: the separators are the maximal runs of white space. *)
Fixpoint split_ws (s : string) : list string :=
  match s with
  | EmptyString => [EmptyString]
  | String c s' =>
      if is_space c then
        match s' with
        | String c' _ => if is_space c' then split_ws s' else EmptyString :: split_ws s'
        | EmptyString => EmptyString :: split_ws s'
        end
      else match split_ws s' with
           | t :: ts => String c t :: ts
           | [] => [String c EmptyString]
           end
  end.

(** [arr.join(sep)]. *)
Definition join (sep : string) (arr : list string) : string := String.concat sep arr.

(** [arr.sort()] on strings: the default comparison is by code units and the
    sort is stable. *)
Definition sort (arr : list string) : list string := merge_sort String.le arr.

(** [Array.from(new Set(arr))]: every element is added in turn, adding an
    element already present changes nothing, iteration is in insertion order. *)
Definition Set_add (seen : list string) (x : string) : list string :=
  if bool_decide (x ∈ seen) then seen else seen ++ [x].
Definition Set_from (arr : list string) : list string := foldl Set_add [] arr.

(** [s[i]]: the one-character string at index [i], or [undefined]. *)
Definition char_at (i : nat) (s : string) : option ascii := String.get i s.

(** Truthiness of a number-or-undefined value: [!v] holds for [undefined]
    and for [0]. *)
Definition falsy (v : option Z) : bool :=
  match v with
  | None => true
  | Some n => bool_decide (n = 0)
  end.

End JS.

(* ===================================================================== *)
(** ** findPrefix and CSSParser.getPrefixFromIconClasses *)
(* ===================================================================== *)

(** [words.every(w => w[i] === words[0][i])] where [c] is [words[0][i]];
    [every] stops at the first word that disagrees; indexing [undefined]
    throws. *)
Fixpoint every_agree (i : nat) (c : ascii) (words : list (option string)) : Res bool :=
  match words with
  | [] => Ok true
  | None :: _ => Throw TypeError
  | Some w :: words' =>
      if bool_decide (JS.char_at i w = Some c) then every_agree i c words' else Ok false
  end.

(** The [while] loop of [findPrefix]; [rest] is [words[0]] from index [i] on,
    so that [words[0][i]] is the first character of [rest]. *)
Fixpoint findPrefix_loop (rest : string) (i : nat) (words : list (option string)) : Res nat :=
  match rest with
  | EmptyString => Ok i
  | String c rest' =>
      b ← every_agree i c words ;
      if b : bool then findPrefix_loop rest' (S i) words else Ok i
  end.

Definition findPrefix (words : list (option string)) : Res string :=
  match words !! 0%nat with
  | None | Some None | Some (Some EmptyString) => Ok EmptyString
  | Some (Some w0) =>
      if bool_decide (length words = 1%nat) then Ok w0
      else i ← findPrefix_loop w0 0 words ; Ok (String.substring 0 i w0)
  end.

(** [iconClasses] is the key set of the class→codepoint table in insertion
    order ([Array.from] of the [Set]). *)
Definition getPrefixFromIconClasses (iconClasses : list string) : Res string :=
  let arr := iconClasses in
  let samples := map (fun i : nat => arr !! (i * length arr / 4)%nat) (seq 0 4) in
  findPrefix samples.

(* ===================================================================== *)
(** ** Icon and Icon.parse *)
(* ===================================================================== *)

Record Icon : Type := mkIcon { name : string; modifiers : list string }.

Abbreviation UnparsedIcon := (list string) (only parsing).

(** [Icon.parse]; the first component are the lines written by [console.log]. *)
Definition Icon_parse (unparsed : UnparsedIcon) (iconClasses : list string)
  : list string * Res (option Icon) :=
  let names := filter (fun cls => cls ∈ iconClasses) unparsed in
  if bool_decide (1 < length names)%nat then
    ([], Throw (MoreThanOneIconClass names))
  else if bool_decide (length names = 0%nat) then
    (["Detected icon with no name: " ++ JS.join " " unparsed ++ ". (Skipping.)"], Ok None)
  else
    match names !! 0%nat with
    | Some name => ([], Ok (Some (mkIcon name (filter (fun cls => cls ≠ name) unparsed))))
    | None => ([], Throw TypeError)
    end.

Definition Icon_hasModifier (icon : Icon) (modifier : string) : bool :=
  bool_decide (modifier ∈ modifiers icon).

Definition Icon_clone (icon : Icon) : Icon := mkIcon (name icon) (modifiers icon).

(** Step 5 of [IconMinifier.minify]:
    [unparsedIcons.map(u => Icon.parse(u, iconClasses)).filter(x => x !== null)]. *)
Fixpoint parseIcons (unparsedIcons : list UnparsedIcon) (iconClasses : list string)
  : list string * Res (list Icon) :=
  match unparsedIcons with
  | [] => ([], Ok [])
  | u :: us =>
      match Icon_parse u iconClasses with
      | (log, Throw e) => (log, Throw e)
      | (log, Ok r) =>
          let '(log', rs) := parseIcons us iconClasses in
          ((log ++ log')%list,
           icons ← rs ; Ok (match r with Some icon => icon :: icons | None => icons end))
      end
  end.

(* ===================================================================== *)
(** ** Crawler.findIcons *)
(* ===================================================================== *)

(** The canonical key of one raw match: [s.split(/\s+/).sort().join(' ')]. *)
Definition canonical (s : string) : string :=
  JS.join " " (JS.sort (JS.split_ws s)).

(** [findIcons] after the regular-expression scan: [matches] is the result of
    [this.findByRegex(rgx, exts)]. *)
Definition findIcons (matches : list string) : list UnparsedIcon :=
  let sorted := map canonical matches in
  map (JS.split_char " ") (JS.Set_from sorted).

(* ===================================================================== *)
(** ** Fonts and font-face descriptors *)
(* ===================================================================== *)

Inductive FontStyle : Type := style_normal | style_italic.

Inductive FontWeight : Type :=
| w100 | w200 | w300 | w400 | w500 | w600 | w700 | w800 | w900
| w_bold | w_bolder | w_lighter | w_normal.

(** A glyph of the codec ([TTF.Glyph]): the codepoints it is mapped from and
    its shape data. *)
Record Glyph : Type := mkGlyph {
  unicode : list Z;
  glyph_name : string;
  advanceWidth : Z;
  contours : list (list (Z * Z))
}.

(** [g.unicode = u]. *)
Definition set_unicode (g : Glyph) (u : list Z) : Glyph :=
  mkGlyph u (glyph_name g) (advanceWidth g) (contours g).

(** A loaded font of the codec, reduced to its glyph table [font.get().glyf]. *)
Record Font : Type := mkFont { glyf : list Glyph }.

(** [font.find({ unicode: us })] of the codec: the glyphs mapped from one of
    the codepoints [us], in table order. *)
Definition Font_find (f : Font) (us : list Z) : list Glyph :=
  filter (fun g => Exists (fun u => u ∈ us) (unicode g)) (glyf f).

(** [class FontFace] after [load()]: [font] is [None] while no source has
    been loaded. *)
Record FontFace : Type := mkFontFace {
  family : string;
  style : FontStyle;
  weight : FontWeight;
  srcs : list string;
  clss : list string;
  font : option Font
}.

(** A reference to a [FontFace] object held in [this.ffs].  The descriptors of
    a [FontManager] are distinct objects (each is made by one [new FontFace]
    and pushed once), and [Map<FontFace, _>] compares keys by reference: a
    reference is the position in [this.ffs] together with the object read
    through it. *)
Abbreviation FontFaceRef := (nat * FontFace)%type (only parsing).

Definition refs (ffs : list FontFace) : list FontFaceRef :=
  imap (fun j ff => (j, ff)) ffs.

(** [intersection(a, ...args)]. *)
Definition intersection (a : list string) (args : list (list string)) : list string :=
  filter (fun e => Forall (fun a2 => e ∈ a2) args) a.

(* ===================================================================== *)
(** ** FontManager.minify *)
(* ===================================================================== *)

(** The variables that the closures of [minify] share. *)
Record MinifyState : Type := mkState {
  glyfs : list Glyph;
  oldCodepointsToNew : gmap nat (gmap Z Z);
  newCodepointsToClasses : gmap Z (list string);
  newCodepoint_value : Z
}.

Definition toIconSelector (icon : Icon) : string :=
  "." ++ name icon ++ "." ++ JS.join "." (modifiers icon).

Definition newCodepoint (st : MinifyState) : Z * MinifyState :=
  let val := newCodepoint_value st in
  (val, mkState (glyfs st) (oldCodepointsToNew st) (newCodepointsToClasses st)
                (newCodepoint_value st + 1)).

Definition addGlyph (ff : FontFaceRef) (codepoint : Z) (st : MinifyState)
  : Res (option Z * MinifyState) :=
  match font ff.2 with
  | None => Throw TypeError
  | Some f =>
      match Font_find f [codepoint] with
      | [] => Ok (None, st)
      | g0 :: _ =>
          let g := g0 in
          match oldCodepointsToNew st !! ff.1 with
          | None => Throw TypeError
          | Some m =>
              let newcp := m !! codepoint in
              if JS.falsy newcp then
                let '(newcp, st1) := newCodepoint st in
                Ok (Some newcp,
                    mkState (glyfs st1 ++ [set_unicode g [newcp]])
                            (<[ff.1 := <[codepoint := newcp]> m]> (oldCodepointsToNew st1))
                            (newCodepointsToClasses st1)
                            (newCodepoint_value st1))
              else Ok (newcp, st)
          end
      end
  end.

Definition registerMapping (newCodepoint : Z) (icon : Icon) (st : MinifyState) : MinifyState :=
  let sels := default [] (newCodepointsToClasses st !! newCodepoint) in
  mkState (glyfs st) (oldCodepointsToNew st)
          (<[newCodepoint := (sels ++ [toIconSelector icon])%list]> (newCodepointsToClasses st))
          (newCodepoint_value st).

Definition hasIntersection (ff : FontFace) (icon : Icon) : bool :=
  bool_decide (1 ≤ length (intersection (clss ff) [modifiers icon]))%nat.

Definition isMultiVariant (ffs : list FontFace) : bool :=
  bool_decide (1 < length ffs)%nat.

(** [iconToCodepoint.get(icon.name)] followed by [if (!cp) throw ...]. *)
Definition lookupCodepoint (iconToCodepoint : gmap string Z) (icon : Icon) : Res Z :=
  match iconToCodepoint !! name icon with
  | Some cp => if JS.falsy (Some cp) then Throw (NoCodepointFound (name icon)) else Ok cp
  | None => Throw (NoCodepointFound (name icon))
  end.

(** The body of [this.ffs.forEach(ff => ...)] in the branch where no
    descriptor matches the icon. *)
Definition expandInto (icon : Icon) (cp : Z) (st : MinifyState) (ff : FontFaceRef)
  : Res MinifyState :=
  '(newcp, st1) ← addGlyph ff cp st;
  match newcp with
  | Some n =>
      if JS.falsy newcp then Ok st1
      else Ok (foldl (fun st cls =>
                        let tmpIcon := Icon_clone icon in
                        let tmpIcon := mkIcon (name tmpIcon) (modifiers tmpIcon ++ [cls]) in
                        registerMapping n tmpIcon st)
                     st1 (clss ff.2))
  | None => Ok st1
  end.

(** The direct resolution from one descriptor, shared by both branches. *)
Definition useFont (icon : Icon) (cp : Z) (st : MinifyState) (ff : FontFaceRef)
  : Res MinifyState :=
  '(newcp, st1) ← addGlyph ff cp st;
  match newcp with
  | Some n =>
      if JS.falsy newcp then Throw (CouldNotFindGlyphs cp (name icon))
      else Ok (registerMapping n icon st1)
  | None => Throw (CouldNotFindGlyphs cp (name icon))
  end.

(** The body of [for (const icon of icons)] when [this.isMultiVariant]. *)
Definition minifyIconMulti (ffs : list FontFace) (iconToCodepoint : gmap string Z)
    (st : MinifyState) (icon : Icon) : Res MinifyState :=
  cp ← lookupCodepoint iconToCodepoint icon;
  match filter (fun ff : FontFaceRef => hasIntersection ff.2 icon) (refs ffs) !! 0%nat with
  | None => foldM (expandInto icon cp) st (refs ffs)
  | Some ff => useFont icon cp st ff
  end.

(** The body of [for (const icon of icons)] with just one variant. *)
Definition minifyIconSingle (ff : FontFaceRef) (iconToCodepoint : gmap string Z)
    (st : MinifyState) (icon : Icon) : Res MinifyState :=
  cp ← lookupCodepoint iconToCodepoint icon;
  useFont icon cp st ff.

(** The state after [this.ffs.forEach(ff => oldCodepointsToNew.set(ff, new Map))]. *)
Definition initState (ffs : list FontFace) (base : Z) : MinifyState :=
  mkState [] (foldl (fun m (ff : FontFaceRef) => <[ff.1 := ∅]> m) ∅ (refs ffs)) ∅ base.

(** [minify] up to the end of the loops: the final values of the shared
    variables. *)
Definition minify_run (ffs : list FontFace) (icons : list Icon)
    (iconToCodepoint : gmap string Z) (base : Z) : Res MinifyState :=
  if bool_decide (length ffs = 0%nat) then Throw NoFontsAdded
  else
    let st := initState ffs base in
    if isMultiVariant ffs then foldM (minifyIconMulti ffs iconToCodepoint) st icons
    else
      match refs ffs !! 0%nat with
      | Some ff => foldM (minifyIconSingle ff iconToCodepoint) st icons
      | None => Throw TypeError
      end.

(** [FontManager.minify]: the template font is [this.ffs[0].font], its glyph
    table is replaced by the packed list. *)
Definition minify (ffs : list FontFace) (icons : list Icon)
    (iconToCodepoint : gmap string Z) (base : Z) : Res (Font * gmap Z (list string)) :=
  st ← minify_run ffs icons iconToCodepoint base;
  match ffs !! 0%nat with
  | Some ff0 =>
      match font ff0 with
      | Some template => Ok (mkFont (glyfs st), newCodepointsToClasses st)
      | None => Throw TypeError
      end
  | None => Throw TypeError
  end.

(** The private-use-area base that [minify] takes by default. *)
Definition defaultBase : Z := 0xE000.

(* ===================================================================== *)
(** ** Notions used to state the properties *)
(* ===================================================================== *)

(** [p] is a leading-character prefix of every word of [ws]. *)
Definition common_prefix (p : string) (ws : list string) : Prop :=
  ∀ w, w ∈ ws → ∃ r, w = (p ++ r)%string.

(** Steps 5 and 6 of [IconMinifier.minify]: the crawled combinations are
    classified, the [null] results dropped, and the icons handed to
    [fontManager.minify] with its default base. *)
Definition parseAndMinify (ffs : list FontFace) (unparsedIcons : list UnparsedIcon)
    (iconClasses : list string) (iconToCodepoint : gmap string Z)
  : list string * Res (Font * gmap Z (list string)) :=
  let '(log, r) := parseIcons unparsedIcons iconClasses in
  (log, icons ← r; minify ffs icons iconToCodepoint defaultBase).

(** The selector the specification gives for an icon: a dot before the name
    and before each modifier, [.name.modifier1.modifier2…]. *)
Definition dotJoined (icon : Icon) : string :=
  "." ++ JS.join "." (name icon :: modifiers icon).

(** No character of [s] satisfies [P]. *)
Fixpoint str_avoids (P : ascii → bool) (s : string) : bool :=
  match s with
  | EmptyString => true
  | String c s' => negb (P c) && str_avoids P s'
  end.

(** The new codepoint recorded for the pair (descriptor [j], legacy
    codepoint [cp]): [oldCodepointsToNew.get(ff)?.get(cp)]. *)
Definition codepointOf (st : MinifyState) (j : nat) (cp : Z) : option Z :=
  m ← oldCodepointsToNew st !! j; m !! cp.

(** The descriptor is loaded and its font has a glyph at [cp]. *)
Definition hasGlyph (ff : FontFace) (cp : Z) : bool :=
  match font ff with
  | Some f => bool_decide (Font_find f [cp] ≠ [])
  | None => false
  end.

(** The (descriptor, legacy codepoint) pairs whose glyph one icon asks for:
    the only descriptor; or the first descriptor in declaration order whose
    classes meet the icon's modifiers; or, when none does, every descriptor
    that has a glyph at the icon's legacy codepoint. *)
Definition requestsOf (ffs : list FontFace) (iconToCodepoint : gmap string Z)
    (icon : Icon) : list (nat * Z) :=
  match iconToCodepoint !! name icon with
  | None => []
  | Some cp =>
      if isMultiVariant ffs then
        match filter (fun ff : FontFaceRef => hasIntersection ff.2 icon) (refs ffs) !! 0%nat with
        | Some ff => [(ff.1, cp)]
        | None =>
            (fun ff : FontFaceRef => (ff.1, cp))
              <$> filter (fun ff : FontFaceRef => hasGlyph ff.2 cp = true) (refs ffs)
        end
      else [(0%nat, cp)]
  end.

(** The legacy codepoints requested from descriptor [j] by a list of icons,
    one entry per request. *)
Definition requestedFrom (ffs : list FontFace) (iconToCodepoint : gmap string Z)
    (icons : list Icon) (j : nat) : list Z :=
  snd <$> filter (fun r : nat * Z => r.1 = j) (icons ≫= requestsOf ffs iconToCodepoint).

(** The glyphs of the packed list that were added for descriptor [j]: those
    carrying a codepoint recorded in the map of [j]. *)
Definition glyphsFor (st : MinifyState) (j : nat) : list Glyph :=
  match oldCodepointsToNew st !! j with
  | Some m => filter (fun g => unicode g ∈ (fun r : Z * Z => [r.2]) <$> map_to_list m) (glyfs st)
  | None => []
  end.

(** The invariant of the shared variables of [minify]. *)
Record Inv (ffs : list FontFace) (base : Z) (st : MinifyState) : Prop := mkInv {
  inv_counter : newCodepoint_value st = base + Z.of_nat (length (glyfs st));
  inv_dom : ∀ j, is_Some (oldCodepointsToNew st !! j) ↔ (j < length ffs)%nat;
  inv_unicode : ∀ i g, glyfs st !! i = Some g → unicode g = [base + Z.of_nat i];
  inv_alloc : ∀ j cp n, codepointOf st j cp = Some n →
    ∃ ff f g0 rest i,
      ffs !! j = Some ff ∧ font ff = Some f ∧ Font_find f [cp] = g0 :: rest
      ∧ n = base + Z.of_nat i ∧ glyfs st !! i = Some (set_unicode g0 [n]);
  inv_inj : ∀ j cp j' cp' n,
    codepointOf st j cp = Some n → codepointOf st j' cp' = Some n → j = j' ∧ cp = cp';
  inv_surj : ∀ i, (i < length (glyfs st))%nat →
    ∃ j cp, codepointOf st j cp = Some (base + Z.of_nat i);
  inv_keys : ∀ n sels, newCodepointsToClasses st !! n = Some sels →
    sels ≠ [] ∧ ∃ j cp, codepointOf st j cp = Some n
}.

(** Every codepoint handed out has a selector list. *)
Definition Registered (st : MinifyState) : Prop :=
  ∀ j cp n, codepointOf st j cp = Some n → is_Some (newCodepointsToClasses st !! n).

(** Allocation as the specification words it: the codepoint recorded for the
    pair is returned when there is one; otherwise the next value of the
    counter is recorded for the pair and the clone of the glyph, with that
    sole codepoint, is added to the packed list. *)
Definition allocOrReuse (j : nat) (g0 : Glyph) (cp : Z) (st : MinifyState) : Z * MinifyState :=
  match codepointOf st j cp with
  | Some n => (n, st)
  | None =>
      let n := newCodepoint_value st in
      (n, mkState (glyfs st ++ [set_unicode g0 [n]])
                  (<[j := <[cp := n]> (default ∅ (oldCodepointsToNew st !! j))]>
                     (oldCodepointsToNew st))
                  (newCodepointsToClasses st)
                  (n + 1))
  end.

(** The icon derived for one associated class: the original with that class
    added to its modifiers. *)
Definition derivedIcon (icon : Icon) (cls : string) : Icon :=
  mkIcon (name icon) (modifiers icon ++ [cls]).

(** Expansion as the specification words it, for one descriptor: a descriptor
    that has a glyph at the legacy codepoint gets a codepoint for the pair and
    one derived icon per associated class; a descriptor without the glyph is
    skipped. *)
Definition expandDescriptor (icon : Icon) (cp : Z) (st : MinifyState) (ff : FontFaceRef)
  : MinifyState :=
  match font ff.2 ≫= (fun f => head (Font_find f [cp])) with
  | None => st
  | Some g0 =>
      let '(n, st1) := allocOrReuse ff.1 g0 cp st in
      foldl (fun st cls => registerMapping n (derivedIcon icon cls) st) st1 (clss ff.2)
  end.

Definition expansionSpec (icon : Icon) (cp : Z) (st : MinifyState)
    (descriptors : list FontFaceRef) : MinifyState :=
  foldl (expandDescriptor icon cp) st descriptors.

(** Direct resolution as the specification words it: the pair gets a
    codepoint and the icon's selector is appended to its list. *)
Definition resolveFrom (icon : Icon) (cp : Z) (st : MinifyState) (j : nat) (g0 : Glyph)
  : MinifyState :=
  let '(n, st1) := allocOrReuse j g0 cp st in registerMapping n icon st1.

(** The pairs for which a codepoint is recorded are the pairs requested by
    the icons processed so far. *)
Definition ReqInv (ffs : list FontFace) (iconToCodepoint : gmap string Z)
    (processed : list Icon) (st : MinifyState) : Prop :=
  ∀ j cp, is_Some (codepointOf st j cp)
          ↔ (j, cp) ∈ processed ≫= requestsOf ffs iconToCodepoint.

(** Inputs used to exercise the engine: the two descriptors of a
    multi-variant icon set ([brands], selected by [fab]; [solid], selected by
    [fas]) and a class→codepoint table. *)
Definition sampleGlyph (cp : Z) (nm : string) : Glyph :=
  mkGlyph [cp] nm 512 [[(0, 0); (256, 448); (512, 0)]].

Definition brands : FontFace :=
  mkFontFace "Font Awesome 6 Brands" style_normal w400 ["../webfonts/fa-brands-400.woff2"]
    ["fab"; "fa-brands"]
    (Some (mkFont [sampleGlyph 0xf1a0 "google"; sampleGlyph 0xf005 "star"])).

Definition solid : FontFace :=
  mkFontFace "Font Awesome 6 Free" style_normal w900 ["../webfonts/fa-solid-900.woff2"]
    ["fas"]
    (Some (mkFont [sampleGlyph 0xf005 "star"; sampleGlyph 0xf015 "home";
                   sampleGlyph 0xf007 "user"])).

Definition sampleTable : gmap string Z :=
  <["fa-google" := 0xf1a0]> (<["fa-star" := 0xf005]>
    (<["fa-home" := 0xf015]> (<["fa-user" := 0xf007]> ∅))).

Definition sampleIcons : list Icon :=
  [mkIcon "fa-google" ["fab"]; mkIcon "fa-star" [];
   mkIcon "fa-home" ["fa-lg"; "fas"]; mkIcon "fa-home" ["fas"]; mkIcon "fa-star" ["fa-spin"]].

(* ===================================================================== *)
(** ** The rest of the pipeline

    What follows embeds the crawler ([indexFiles], [findByRegex],
    [findCssFiles]), the style-sheet reader ([getIconToCodepoint],
    [getAllClasses], [parseFontAssociations] and their helpers), steps 1, 3
    and 7 of [IconMinifier.minify], and three functions of the first version
    of the tool.  The path functions, the file reads, the regular-expression
    matches and the selector parser are arguments.  A [Map] or [Set] whose
    iteration order matters is the list of its entries or elements in
    insertion order; the lines written to the console are a list. *)
(* ===================================================================== *)

Local Open Scope list_scope.

(** *** More on a pass of the engine *)

(** Nothing recorded is lost between two states of a pass: a pair keeps its
    codepoint and a selector list is only appended to. *)
Definition grows (st st' : MinifyState) : Prop :=
  (∀ j cp n, codepointOf st j cp = Some n → codepointOf st' j cp = Some n)
  ∧ (∀ n sels, newCodepointsToClasses st !! n = Some sels →
               ∃ more, newCodepointsToClasses st' !! n = Some (sels ++ more)).

(** The icon is resolved from one descriptor directly: there is just one
    descriptor, or some descriptor's classes meet the icon's modifiers. *)
Definition resolvesDirectly (ffs : list FontFace) (icon : Icon) : Prop :=
  isMultiVariant ffs = false
  ∨ is_Some (filter (fun ff : FontFaceRef => hasIntersection ff.2 icon) (refs ffs) !! 0%nat).

(** What a step leaves alone when every pair it asks for is recorded: the
    packed list, the recorded codepoints and the counter. *)
Definition sameGlyphs (st st' : MinifyState) : Prop :=
  glyfs st' = glyfs st
  ∧ oldCodepointsToNew st' = oldCodepointsToNew st
  ∧ newCodepoint_value st' = newCodepoint_value st.

(* ===================================================================== *)
(** ** Strings, paths and URLs *)
(* ===================================================================== *)

(** [s.includes(sub)]. *)
Fixpoint includes (s sub : string) : bool :=
  String.prefix sub s
  || match s with
     | EmptyString => false
     | String _ s' => includes s' sub
     end.

(** [String.prototype.startsWith]. *)
Definition startsWith (s p : string) : bool := String.prefix p s.

(** [s.includes(c)] for a one-character string [c]. *)
Fixpoint includes_char (s : string) (c : ascii) : bool :=
  match s with
  | EmptyString => false
  | String c' s' => Ascii.eqb c' c || includes_char s' c
  end.

Definition isURL (file : string) : bool :=
  startsWith file "http:" || startsWith file "https:".

Definition isRelativePath (str : string) : bool :=
  startsWith str "./" || startsWith str "../"
  || (negb (startsWith str "/") && negb (isURL str)).

(** [CSSParser.getRelativeFile].  [resolveURL cssFile relativeFile] is the
    string of [new URL(`${cssUrl.origin}${cssUrl.pathname}/../${relativeFile}`)];
    [path_join] and [path_dirname] are those of the platform. *)
Definition getRelativeFile (resolveURL : string → string → string)
    (path_join : string → string → string) (path_dirname : string → string)
    (cssFile relativeFile : string) : string :=
  if isRelativePath relativeFile then
    if isURL cssFile then resolveURL cssFile relativeFile
    else
      let pathname :=
        if includes_char cssFile "?"
        then default EmptyString (JS.split_char "?" cssFile !! 0%nat)
        else cssFile in
      path_join (path_dirname pathname) relativeFile
  else relativeFile.

(** [s.slice(start, -fromEnd)]. *)
Definition slice_between (start fromEnd : nat) (s : string) : string :=
  String.substring start (String.length s - fromEnd - start) s.

(** [getFontSrcs]: [matchUrls str] is the result of [str.match] with the
    global regular expression for [url(...)] tokens, the empty list standing
    for [null]; each match loses its first four characters and its last. *)
Definition getFontSrcs (matchUrls : string → list string) (str : string) : list string :=
  slice_between 4 1 <$> matchUrls str.

(* ===================================================================== *)
(** ** Crawler: indexing and scanning *)
(* ===================================================================== *)

(** The extension of a directory entry in [indexFiles]:
    [filename.split('.').pop()], unless [!ext || ext === filename]. *)
Definition extensionOf (filename : string) : option string :=
  match last (JS.split_char "." filename) with
  | Some ext =>
      if bool_decide (ext = EmptyString) || bool_decide (ext = filename) then None
      else Some ext
  | None => None
  end.

(** The total logged by [indexFiles]:
    [[...this.fileMap.values()].map(a => a.length).reduce((a, b) => a + b, 0)]. *)
Definition indexedTotal (fileMap : gmap string (list string)) : nat :=
  map_fold (fun _ a acc => (length a + acc)%nat) 0%nat fileMap.

(** [Crawler.indexFiles].  [files] is the listing returned by
    [fs.readdirSync(directory, { recursive: true })]; [path_join] is
    [path.join] of the platform.  The result is the file map and the number
    written in the console line. *)
Definition indexFiles (path_join : string → string → string)
    (fileMap : gmap string (list string)) (directory : string) (exts : list string)
    (files : list string) : gmap string (list string) * nat :=
  let fileMap' :=
    foldl (fun (m : gmap string (list string)) filename =>
             match extensionOf filename with
             | None => m
             | Some ext =>
                 let file := path_join directory filename in
                 if bool_decide (ext ∈ exts)
                 then <[ext := default [] (m !! ext) ++ [file]]> m
                 else m
             end)
          fileMap files in
  (fileMap', indexedTotal fileMap').

Inductive CrawlerError : Type :=
| UnknownExtension (ext : string).  (* "unknown extension ${ext}: not indexed" *)

(** [Crawler.checkIfIndexed]: [None] when it returns, the error when it
    throws. *)
Fixpoint checkIfIndexed (fileMap : gmap string (list string)) (exts : list string)
  : option CrawlerError :=
  match exts with
  | [] => None
  | ext :: exts' =>
      match fileMap !! ext with
      | None => Some (UnknownExtension ext)
      | Some _ => checkIfIndexed fileMap exts'
      end
  end.

(** [Crawler.findByRegex].  [readFile] is [fs.readFileSync(file, ...)] and
    [matchOf contents] is [contents.match(regex)], the empty list standing for
    [null]. *)
Definition findByRegex (readFile : string → string) (matchOf : string → list string)
    (fileMap : gmap string (list string)) (exts : list string)
  : CrawlerError + list string :=
  match checkIfIndexed fileMap exts with
  | Some e => inl e
  | None =>
      inr (exts ≫= fun ext =>
             default [] (fileMap !! ext) ≫= fun file => matchOf (readFile file))
  end.

(** [Crawler.findCssFiles]; [cssMatchOf pat] is the match against the regular
    expression built from the pattern [pat]. *)
Definition cssFilePatterns : list string := ["font-?awesome"].

Definition findCssFiles (readFile : string → string)
    (cssMatchOf : string → string → list string)
    (fileMap : gmap string (list string)) (exts : list string)
  : CrawlerError + list string :=
  let step (acc : CrawlerError + list string) (pat : string) :=
    match acc with
    | inl e => inl e
    | inr files =>
        match findByRegex readFile (cssMatchOf pat) fileMap exts with
        | inl e => inl e
        | inr matches => inr (files ++ matches)
        end
    end in
  match foldl step (inr []) cssFilePatterns with
  | inl e => inl e
  | inr files => inr (JS.Set_from files)
  end.

(** The entries [indexFiles] stores: those with an extension that is asked
    for. *)
Definition indexable (exts : list string) (filename : string) : bool :=
  match extensionOf filename with
  | Some ext => bool_decide (ext ∈ exts)
  | None => false
  end.

(** The files of the listing with a given extension, as stored. *)
Definition filesWith (path_join : string → string → string) (directory : string)
    (files : list string) (ext : string) : list string :=
  path_join directory <$> filter (fun f => extensionOf f = Some ext) files.

(** Step 1 of [IconMinifier.minify]: a fresh crawler indexes the directory
    for the configured extensions and is asked for the style sheets linked
    from its [html] files. *)
Definition minify_step1 (path_join : string → string → string)
    (readFile : string → string) (cssMatchOf : string → string → list string)
    (directory : string) (exts : list string) (files : list string)
  : CrawlerError + list string :=
  let fileMap := (indexFiles path_join ∅ directory exts files).1 in
  findCssFiles readFile cssMatchOf fileMap ["html"].

(* ===================================================================== *)
(** ** CSSParser.parseFontAssociations: the association loop *)
(* ===================================================================== *)

Global Instance FontStyle_eq_dec : EqDecision FontStyle.
Proof. solve_decision. Defined.
Global Instance FontWeight_eq_dec : EqDecision FontWeight.
Proof. solve_decision. Defined.

(** The text of a style or weight token, as interpolated in a message. *)
Definition FontStyle_str (s : FontStyle) : string :=
  match s with style_normal => "normal" | style_italic => "italic" end.

Definition FontWeight_str (w : FontWeight) : string :=
  match w with
  | w100 => "100" | w200 => "200" | w300 => "300" | w400 => "400" | w500 => "500"
  | w600 => "600" | w700 => "700" | w800 => "800" | w900 => "900"
  | w_bold => "bold" | w_bolder => "bolder" | w_lighter => "lighter" | w_normal => "normal"
  end.

(** [ff.family === family && ff.style === style && ff.weight === weight]. *)
Definition sameFace (ff v : FontFace) : Prop :=
  family ff = family v ∧ style ff = style v ∧ weight ff = weight v.

Global Instance sameFace_dec (ff v : FontFace) : Decision (sameFace ff v).
Proof. unfold sameFace. apply _. Defined.

(** [variantClasses] is a [Map<string, FontFace>]: its entries in insertion
    order, with distinct keys.  [variantClasses.delete(cls)]: *)
Definition Map_delete {V : Type} (k : string) (m : list (string * V)) : list (string * V) :=
  filter (fun kv => kv.1 ≠ k) m.

(** [ff.clss.push(cls)]. *)
Definition push_cls (ff : FontFace) (cls : string) : FontFace :=
  mkFontFace (family ff) (style ff) (weight ff) (srcs ff) (clss ff ++ [cls]) (font ff).

(** The last loop of [parseFontAssociations], over the descriptors read from
    the [@font-face] rules and the candidate classes with the family, style
    and weight gathered for them.  The result is the lines written by
    [console.log], the descriptors with their classes, and the candidates
    left in the map. *)
Definition associateClasses (fontFaces : list FontFace)
    (variantClasses : list (string * FontFace))
  : list string * list FontFace * list (string * FontFace) :=
  foldl (fun '(log, processed, vc) ff =>
           let matchedCls := (filter (fun kv : string * FontFace => sameFace ff kv.2) vc).*1 in
           let '(log', ff', vc') :=
             foldl (fun '(log, ff, vc) cls =>
                      (log ++ ["Associated class " +:+ cls +:+ " with font face "
                               +:+ family ff +:+ ", " +:+ FontStyle_str (style ff)
                               +:+ ", " +:+ FontWeight_str (weight ff) +:+ "."],
                       push_cls ff cls, Map_delete cls vc))
                   (log, ff, vc) matchedCls in
           (log', processed ++ [ff'], vc'))
        ([], [], variantClasses) fontFaces.

(** The descriptors handed to the font manager by [IconMinifier.minify]:
    [if (ff.clss.length > 0) fontManager.addFont(ff)], as far as
    [fontManager.ffs] goes. *)
Definition activeFonts (ffs : list FontFace) : list FontFace :=
  filter (fun ff => (0 < length (clss ff))%nat) ffs.

(** The classes a descriptor at position [j] is given: the keys, in map
    order, of the candidates whose family, style and weight are exactly its
    own and are those of no earlier descriptor. *)
Definition attachedClasses (fontFaces : list FontFace)
    (variantClasses : list (string * FontFace)) (j : nat) (ff : FontFace) : list string :=
  (filter (fun kv : string * FontFace =>
             sameFace ff kv.2 ∧ Forall (fun ff0 => ¬ sameFace ff0 kv.2) (take j fontFaces))
          variantClasses).*1.

(* ===================================================================== *)
(** ** CSSParser *)
(* ===================================================================== *)

(** A node of the style sheet, as [css-simple-parser] gives it. *)
Record Node : Type := mkNode {
  selector : string;
  body : string;
}.

(** A parsed selector, as far as the code looks at it: the type of each rule,
    and the type and name of each item of a rule. *)
Inductive SelectorItem : Type :=
| ClassName (item_name : string)
| PseudoElement (item_name : string)
| OtherItem.

Inductive SelectorRule : Type :=
| Rule (items : list SelectorItem)
| OtherRule.

(** [s.trimStart()], [s.trimEnd()] and [s.trim()], on code units below 256. *)
Fixpoint trimStart (s : string) : string :=
  match s with
  | EmptyString => EmptyString
  | String c s' => if JS.is_space c then trimStart s' else s
  end.

Fixpoint trimEnd (s : string) : string :=
  match s with
  | EmptyString => EmptyString
  | String c s' =>
      match trimEnd s' with
      | EmptyString => if JS.is_space c then EmptyString else String c EmptyString
      | t => String c t
      end
  end.

Definition trim (s : string) : string := trimEnd (trimStart s).

(** [map.set(k, v)] on a [Map] kept as its entries in insertion order: the
    value of a present key is replaced in place, a new key goes last. *)
Definition Map_set {V : Type} (k : string) (v : V) (m : list (string * V))
  : list (string * V) :=
  if bool_decide (k ∈ m.*1)
  then (fun kv : string * V => if bool_decide (kv.1 = k) then (k, v) else kv) <$> m
  else m ++ [(k, v)].

(** A change made through [map.get(k)] to the object stored at [k]. *)
Definition Map_update {V : Type} (k : string) (f : V → V) (m : list (string * V))
  : list (string * V) :=
  (fun kv : string * V => if bool_decide (kv.1 = k) then (kv.1, f kv.2) else kv) <$> m.

(** [s.startsWith('@') || s.startsWith(':')] for [s = selector.trimStart()]. *)
Definition isAtOrPseudo (selector : string) : bool :=
  let s := trimStart selector in startsWith s "@" || startsWith s ":".

(** The name pushed by the loop over the items of one rule in
    [getClassesFromSelector]: that of the first [ClassName] item. *)
Fixpoint firstClassName (items : list SelectorItem) : option string :=
  match items with
  | [] => None
  | ClassName n :: _ => Some n
  | _ :: rest => firstClassName rest
  end.

(** The warnings of the second loop of [parseFontAssociations]. *)
Inductive FaceWarning : Type :=
| SkippingWithoutFamily   (* "Skipping @font-face without `font-family`." *)
| SkippingWithoutStyle    (* "Skipping @font-face without `font-style`." *)
| SkippingWithoutWeight.  (* "Skipping @font-face without `font-weight`." *)

Section CSSParser.

(** The selector parser, the regular-expression readers of a rule body and
    the path functions are taken as they are. *)
Variable parseCssSelector : string → list SelectorRule.
Variable getFontFamily : string → option string.
Variable getFontStyle : string → option FontStyle.
Variable getFontWeight : string → option FontWeight.
Variable matchUrls : string → list string.
Variable resolveURL : string → string → string.
Variable path_join : string → string → string.
Variable path_dirname : string → string.
(** [/\s*content:\s*"(\\[0-9a-f]+)"\s*/.exec(node.body)] followed by
    [Number('0x' + grps[1].slice(1))]. *)
Variable contentCodepoint : string → option Z.

(** [CSSParser.getClassesFromSelector]. *)
Definition getClassesFromSelector (sel : string) : list string :=
  if isAtOrPseudo sel then []
  else omap (fun r => match r with
                      | Rule items => firstClassName items
                      | OtherRule => None
                      end)
            (parseCssSelector sel).

(** [CSSParser.getClassesFromSelectorWithBefore]: the lines written and the
    classes. *)
Definition getClassesFromSelectorWithBefore (sel : string) : list string * list string :=
  if isAtOrPseudo sel then ([], [])
  else
    foldl (fun '(log, clss) r =>
             match r with
             | Rule [ClassName n; PseudoElement p] =>
                 if bool_decide (p = "before") then (log, clss ++ [n]) else (log, clss)
             | Rule items =>
                 if bool_decide (2 < length items)%nat
                 then (log ++ ["Skipped complex rule in selector: " +:+ sel], clss)
                 else (log, clss)
             | OtherRule => (log, clss)
             end)
          ([], []) (parseCssSelector sel).

(** [CSSParser.getIconToCodepoint]: the lines written and the map. *)
Definition getIconToCodepoint (children : list Node) : list string * list (string * Z) :=
  foldl (fun '(log, map) node =>
           match contentCodepoint (body node) with
           | None => (log, map)
           | Some codepoint =>
               let '(log', clss) := getClassesFromSelectorWithBefore (selector node) in
               (log ++ log', foldl (fun m cls => Map_set cls codepoint m) map clss)
           end)
        ([], []) children.

(** [CSSParser.getAllClasses]. *)
Definition getAllClasses (children : list Node) : list string :=
  foldl (fun set node =>
           if negb (isAtOrPseudo (selector node))
           then foldl JS.Set_add set (getClassesFromSelector (selector node))
           else set)
        [] children.

(** [if (family) font.family = family; ...] on a candidate. *)
Definition updateFace (b : string) (face : FontFace) : FontFace :=
  mkFontFace
    (match getFontFamily b with
     | Some f => if bool_decide (f = EmptyString) then family face else f
     | None => family face
     end)
    (default (style face) (getFontStyle b))
    (default (weight face) (getFontWeight b))
    (srcs face) (clss face) (font face).

Definition gatherItem (b : string) (vc : list (string * FontFace)) (item : SelectorItem)
  : list (string * FontFace) :=
  match item with
  | ClassName n => if bool_decide (n ∈ vc.*1) then Map_update n (updateFace b) vc else vc
  | _ => vc
  end.

(** The descriptor read from one node, when it is an [@font-face] rule with
    a family, a style and a weight. *)
Definition completeFace (filename : string) (node : Node) : option FontFace :=
  if bool_decide (trim (selector node) = "@font-face") then
    match getFontFamily (body node), getFontStyle (body node), getFontWeight (body node) with
    | Some fam, Some sty, Some wgt =>
        if bool_decide (fam = EmptyString) then None
        else Some (mkFontFace fam sty wgt
                     (getRelativeFile resolveURL path_join path_dirname filename
                        <$> getFontSrcs matchUrls (body node))
                     [] None)
    | _, _, _ => None
    end
  else None.

End CSSParser.

(* ===================================================================== *)
(** ** CSSParser: the constructor *)
(* ===================================================================== *)

(** [parseFontAssociations] runs in the constructor, on selectors that
    nothing has parsed before, and [parseCssSelector] throws on a selector
    it rejects: the error leaves the loop, the function and the
    constructor. *)
Inductive CSSParserError : Type :=
| ParserError (sel : string).  (* thrown by [parseCssSelector(sel)] *)

(** [for (const x of l) { a = f a x }] where the body may throw. *)
Fixpoint foldE {E A B : Type} (f : A → B → E + A) (a : A) (l : list B) : E + A :=
  match l with
  | [] => inr a
  | b :: l' =>
      match f a b with
      | inl e => inl e
      | inr a' => foldE f a' l'
      end
  end.

Section CSSParserConstructor.

(** The selector parser with its error: [None] when it throws. *)
Variable parseCssSelector : string → option (list SelectorRule).
Variable getFontFamily : string → option string.
Variable getFontStyle : string → option FontStyle.
Variable getFontWeight : string → option FontWeight.
Variable matchUrls : string → list string.
Variable resolveURL : string → string → string.
Variable path_join : string → string → string.
Variable path_dirname : string → string.

(** [CSSParser.getClassesFromSelector], called on a selector for the first
    time. *)
Definition getClassesFromSelectorOrThrow (sel : string) : CSSParserError + list string :=
  if isAtOrPseudo sel then inr []
  else
    match parseCssSelector sel with
    | None => inl (ParserError sel)
    | Some rules =>
        inr (omap (fun r => match r with
                            | Rule items => firstClassName items
                            | OtherRule => None
                            end)
                  rules)
    end.

(** The first loop of [parseFontAssociations]: the candidate classes. *)
Definition variantCandidates (children : list Node) : CSSParserError + list (string * FontFace) :=
  foldE (fun vc node =>
           if includes (body node) "font-family"
              && negb (bool_decide (trim (selector node) = "@font-face"))
           then
             match getClassesFromSelectorOrThrow (selector node) with
             | inl e => inl e
             | inr clss =>
                 inr (foldl (fun vc cls =>
                               Map_set cls (mkFontFace "" style_normal w_normal [] [] None) vc)
                            vc clss)
             end
           else inr vc)
        [] children.

(** The body of the second loop of [parseFontAssociations], for the style
    sheet [filename]: the warnings written, the descriptors and the
    candidates after the node, or the error thrown at it; the selector is
    parsed before anything else is done for the node. *)
Definition gatherNode (filename : string)
    (acc : list FaceWarning * list FontFace * list (string * FontFace)) (node : Node)
  : CSSParserError + list FaceWarning * list FontFace * list (string * FontFace) :=
  let '(warnings, fontFaces, vc) := acc in
  let trimmed := trim (selector node) in
  if bool_decide (trimmed = "@font-face") then
    match getFontFamily (body node) with
    | None => inr (warnings ++ [SkippingWithoutFamily], fontFaces, vc)
    | Some fam =>
        if bool_decide (fam = EmptyString)
        then inr (warnings ++ [SkippingWithoutFamily], fontFaces, vc)
        else
          match getFontStyle (body node) with
          | None => inr (warnings ++ [SkippingWithoutStyle], fontFaces, vc)
          | Some sty =>
              match getFontWeight (body node) with
              | None => inr (warnings ++ [SkippingWithoutWeight], fontFaces, vc)
              | Some wgt =>
                  inr (warnings,
                       fontFaces
                       ++ [mkFontFace fam sty wgt
                             (getRelativeFile resolveURL path_join path_dirname filename
                                <$> getFontSrcs matchUrls (body node))
                             [] None],
                       vc)
              end
          end
    end
  else if startsWith trimmed "@" || startsWith trimmed ":" then inr (warnings, fontFaces, vc)
  else
    match parseCssSelector (selector node) with
    | None => inl (ParserError (selector node))
    | Some rules =>
        inr (warnings, fontFaces,
             foldl (fun vc r =>
                      match r with
                      | Rule items =>
                          foldl (gatherItem getFontFamily getFontStyle getFontWeight (body node))
                                vc items
                      | OtherRule => vc
                      end)
                   vc rules)
    end.

(** The second loop: the state it reaches, and the error when it stops at a
    throw; what was written to the console before the throw stays written. *)
Fixpoint gatherNodes (filename : string)
    (acc : list FaceWarning * list FontFace * list (string * FontFace)) (children : list Node)
  : (list FaceWarning * list FontFace * list (string * FontFace)) * option CSSParserError :=
  match children with
  | [] => (acc, None)
  | node :: rest =>
      match gatherNode filename acc node with
      | inl e => (acc, Some e)
      | inr acc' => gatherNodes filename acc' rest
      end
  end.

(** [CSSParser.parseFontAssociations]: the warnings written, and either the
    error thrown or the lines written by the association loop and the
    descriptors returned. *)
Definition parseFontAssociations (filename : string) (children : list Node)
  : list FaceWarning * (CSSParserError + list string * list FontFace) :=
  match variantCandidates children with
  | inl e => ([], inl e)
  | inr vc0 =>
      match gatherNodes filename ([], [], vc0) children with
      | ((warnings, _, _), Some e) => (warnings, inl e)
      | ((warnings, fontFaces, vc), None) =>
          let '(log, associated, _) := associateClasses fontFaces vc in
          (warnings, inr (log, associated))
      end
  end.

(** The nodes whose selector the first loop gives to the parser, those whose
    selector the second loop gives to it, and the nodes the parser
    rejects. *)
Definition firstLoopParses (node : Node) : bool :=
  includes (body node) "font-family"
  && negb (bool_decide (trim (selector node) = "@font-face"))
  && negb (isAtOrPseudo (selector node)).

Definition secondLoopParses (node : Node) : bool :=
  negb (bool_decide (trim (selector node) = "@font-face"))
  && negb (startsWith (trim (selector node)) "@" || startsWith (trim (selector node)) ":").

Definition rejected (node : Node) : bool :=
  match parseCssSelector (selector node) with
  | None => true
  | Some _ => false
  end.

End CSSParserConstructor.

(* ===================================================================== *)
(** ** IconMinifier.minify: the class lists of steps 3 and 7 *)
(* ===================================================================== *)

(** [allClassesArr.filter(x => !iconClasses.has(x))]. *)
Definition specialClasses (allClassesArr iconClasses : list string) : list string :=
  filter (fun x => x ∉ iconClasses) allClassesArr.

(** [new Set(icons.map(icon => [icon.name, ...icon.modifiers]).flat())]. *)
Definition usedClasses (icons : list Icon) : list string :=
  JS.Set_from (icons ≫= fun icon => name icon :: modifiers icon).

(** [new Set(specialClasses.filter(cls => usedClasses.has(cls)))]. *)
Definition nonIconUsedClasses (special : list string) (icons : list Icon) : list string :=
  JS.Set_from (filter (fun cls => cls ∈ usedClasses icons) special).

(* ===================================================================== *)
(** ** IconMinifier.minify: from the style sheet to the engine *)
(* ===================================================================== *)

(** [new Set(iconToCodepoint.keys())] and the table as the engine looks it
    up, for the map returned by [getIconToCodepoint]. *)
Definition iconClassesOf (iconToCodepoint : list (string * Z)) : list string :=
  JS.Set_from iconToCodepoint.*1.

Definition tableOf (iconToCodepoint : list (string * Z)) : gmap string Z :=
  list_to_map iconToCodepoint.

Definition sampleEntries : list (string * Z) :=
  [("fa-google", 0xf1a0); ("fa-star", 0xf005); ("fa-home", 0xf015); ("fa-user", 0xf007)].

(* ===================================================================== *)
(** ** The first version of the tool (main.ts) *)
(* ===================================================================== *)

Module Legacy.

(** [s.slice(n)] for a natural number [n]. *)
Fixpoint slice (n : nat) (s : string) : string :=
  match n, s with
  | O, _ => s
  | S n', String _ s' => slice n' s'
  | S _, EmptyString => EmptyString
  end.

Inductive LegacyError : Type :=
| NotImplementedFor (filename : string)
    (* "matching for font file hasn't been implemented yet: ${filename}" *)
| NoCodepointForClasses (classes : list string).
    (* "could not find codepoint for classes: ${classes}" *)

(** A glyph as [extractIcons] sees it: [unicode] may be undefined. *)
Record RawGlyph : Type := mkRawGlyph {
  raw_unicode : option (list Z);
  raw_name : string;
}.

(** [WebFontMinifier.extractIcons], on the glyphs of the font created from
    the buffer: the new glyph list, the map from old to new codepoints and
    the next usable codepoint. *)
Definition extractIcons (glyf : list RawGlyph) (subset : list Z) (base : Z)
  : list RawGlyph * gmap Z Z * Z :=
  foldl (fun '(newGlyfs, newMapping, newCodepoint) g =>
           match raw_unicode g with
           | Some us =>
               (newGlyfs ++ [mkRawGlyph (Some [newCodepoint]) (raw_name g)],
                foldl (fun (m : gmap Z Z) u =>
                         if bool_decide (u ∈ subset) then <[u := newCodepoint]> m else m)
                      newMapping us,
                newCodepoint + 1)
           | None => (newGlyfs, newMapping, newCodepoint)
           end)
        ([], ∅, base) glyf.

Definition FA_SPECIAL_CLASSES : list string :=
  ["fab"; "fa-brands"; "far"; "fa-regular"; "fas"; "fa-solid"].

(** The loop over the classes of one icon in [faFindIconsAssociatedToFile]:
    whether the icon was pushed, and [hasSpecialClass] at the end. *)
Fixpoint scanClasses (lookFor : list string) (icon : list string) (hasSpecialClass : bool)
  : bool * bool :=
  match icon with
  | [] => (false, hasSpecialClass)
  | cls :: rest =>
      if bool_decide (cls ∈ lookFor) then (true, true)
      else if bool_decide (cls ∈ FA_SPECIAL_CLASSES) then scanClasses lookFor rest true
      else scanClasses lookFor rest hasSpecialClass
  end.

(** [faFindIconsAssociatedToFile]: the warnings written and the result. *)
Definition faFindIconsAssociatedToFile (crawledIcons : list (list string)) (filename : string)
  : list string * (LegacyError + list (list string)) :=
  let lookFor : LegacyError + option (list string) :=
    if includes filename "fa-brand" then inr (Some ["fab"; "fa-brands"])
    else if includes filename "fa-regular" then inr (Some ["far"; "fa-regular"])
    else if includes filename "fa-solid" then inr (Some ["fas"; "fa-solid"])
    else if includes filename "compatibility" then inr None
    else inl (NotImplementedFor filename) in
  match lookFor with
  | inl e => ([], inl e)
  | inr None => (["ignoring compatibility font"], inr [])
  | inr (Some lookFor) =>
      ([], inr (foldl (fun filteredIcons icon =>
                         let '(pushed, hasSpecialClass) := scanClasses lookFor icon false in
                         let filteredIcons :=
                           if pushed then filteredIcons ++ [icon] else filteredIcons in
                         if negb hasSpecialClass then
                           if includes filename "fa-solid" then filteredIcons ++ [icon]
                           else filteredIcons
                         else filteredIcons)
                      [] crawledIcons))
  end.

(** The body of the callback of [mapIconsToCodepoints]: the codepoint of the
    first class that is a key once [prefix.length] characters are dropped. *)
Fixpoint firstCodepoint (classToCodepoint : gmap string Z) (prefix : string)
    (classes : list string) : option Z :=
  match classes with
  | [] => None
  | cls :: rest =>
      match classToCodepoint !! slice (String.length prefix) cls with
      | Some cp => Some cp
      | None => firstCodepoint classToCodepoint prefix rest
      end
  end.

Fixpoint mapIconsToCodepoints (icons : list (list string)) (classToCodepoint : gmap string Z)
    (prefix : string) : LegacyError + list Z :=
  match icons with
  | [] => inr []
  | classes :: rest =>
      match firstCodepoint classToCodepoint prefix classes with
      | None => inl (NoCodepointForClasses classes)
      | Some cp =>
          match mapIconsToCodepoints rest classToCodepoint prefix with
          | inl e => inl e
          | inr cps => inr (cp :: cps)
          end
      end
  end.

(** The icons a font file is asked for: one of the classes looked for, or no
    class of a variant at all when the file is the solid one. *)
Definition associatedTo (lookFor : list string) (solidFile : bool) (icon : list string) : Prop :=
  Exists (fun cls => cls ∈ lookFor) icon
  ∨ (Forall (fun cls => cls ∉ FA_SPECIAL_CLASSES) icon ∧ solidFile = true).

Global Instance associatedTo_dec lookFor solidFile icon :
  Decision (associatedTo lookFor solidFile icon).
Proof. unfold associatedTo. apply _. Defined.

End Legacy.

(* ===================================================================== *)
(** ** More sample data *)
(* ===================================================================== *)

(** Three [@font-face] descriptors as read from a style sheet, the third
    repeating the family, style and weight of the second; and the candidate
    classes with the properties gathered for them. *)
Definition sampleFaces : list FontFace :=
  [mkFontFace "Font Awesome 6 Brands" style_normal w400 ["../webfonts/fa-brands-400.woff2"] [] None;
   mkFontFace "Font Awesome 6 Free" style_normal w900 ["../webfonts/fa-solid-900.woff2"] [] None;
   mkFontFace "Font Awesome 6 Free" style_normal w900 ["../webfonts/fa-v4compatibility.woff2"]
     [] None].

Definition sampleVariants : list (string * FontFace) :=
  [("fab", mkFontFace "Font Awesome 6 Brands" style_normal w400 [] [] None);
   ("fas", mkFontFace "Font Awesome 6 Free" style_normal w900 [] [] None);
   ("fa-brands", mkFontFace "Font Awesome 6 Brands" style_normal w400 [] [] None);
   ("fa", mkFontFace "" style_normal w_normal [] [] None)].

Definition sampleMatches : list string :=
  ["fab fa-google"; "fa-google  fab"; "fas fa-home"; "fa-lg"].

Definition sampleIconClasses : list string := ["fa-google"; "fa-home"; "fa-star"].

Definition sampleAllClasses : list string :=
  ["fa"; "fab"; "fas"; "fa-lg"; "fa-spin"; "fa-google"; "fa-home"; "fa-star"].

Definition sampleTableWithRocket : gmap string Z := <["fa-rocket" := 0xf135]> sampleTable.

(** A third descriptor, selected by [far], declared between [brands] and
    [solid]: its glyphs differ from those [solid] has at the same
    codepoints. *)
Definition regular : FontFace :=
  mkFontFace "Font Awesome 6 Free" style_normal w400 ["../webfonts/fa-regular-400.woff2"]
    ["far"; "fa-regular"]
    (Some (mkFont [sampleGlyph 0xf005 "star-outline"; sampleGlyph 0xf007 "user-outline"])).

(** A style sheet of four nodes, a selector parser that knows the two
    selectors of the sheet and rejects every other one, and readers of a
    rule body that look for the name of the property only. *)
Definition sampleSelectorParser (sel : string) : option (list SelectorRule) :=
  if bool_decide (sel = ".fas") then Some [Rule [ClassName "fas"]]
  else if bool_decide (sel = ".fa-home::before")
       then Some [Rule [ClassName "fa-home"; PseudoElement "before"]]
       else None.

Definition sampleFamily (b : string) : option string :=
  if includes b "font-family" then Some "Font Awesome 6 Free" else None.

Definition sampleStyle (b : string) : option FontStyle :=
  if includes b "font-style" then Some style_normal else None.

Definition sampleWeight (b : string) : option FontWeight :=
  if includes b "font-weight" then Some w900 else None.

Definition sampleSheet : list Node :=
  [mkNode "@font-face" "font-family: 'Font Awesome 6 Free'; font-style: normal; font-weight: 900";
   mkNode "@font-face" "font-family: 'Font Awesome 6 Free'";
   mkNode ".fas" "font-family: 'Font Awesome 6 Free'; font-weight: 900";
   mkNode ".fa-home::before" "content: '\f015'"].

Definition sampleConstructor (children : list Node)
  : list FaceWarning * (CSSParserError + list string * list FontFace) :=
  parseFontAssociations sampleSelectorParser sampleFamily sampleStyle sampleWeight
    (fun _ => []) (fun _ relativeFile => relativeFile) (fun a b => a +:+ "/" +:+ b)
    (fun p => p) "css/all.css" children.

(* ===================================================================== *)
(** * Properties *)
(* ===================================================================== *)

Local Open Scope list_scope.

(** ** Strings *)
Lemma str_app_cons (x : ascii) (a b : string) : (String x a ++ b = String x (a ++ b))%string.
Proof. reflexivity. Qed.
Lemma str_app_nil_l (b : string) : ("" ++ b = b)%string.
Proof. reflexivity. Qed.

Lemma str_app_assoc (a b c : string) : ((a ++ b) ++ c = a ++ (b ++ c))%string.
Proof. induction a as [|x a IH]; [done|]. by rewrite !str_app_cons, IH. Qed.

Lemma str_app_nil_r (a : string) : (a ++ "" = a)%string.
Proof. induction a as [|x a IH]; [done|]. by rewrite str_app_cons, IH. Qed.

Lemma str_length_app (a b : string) :
  String.length (a ++ b) = (String.length a + String.length b)%nat.
Proof. induction a as [|x a IH]; [done|]. rewrite str_app_cons. simpl. by rewrite IH. Qed.

Lemma str_get_app_l (a b : string) (i : nat) :
  (i < String.length a)%nat → String.get i (a ++ b) = String.get i a.
Proof.
  revert i. induction a as [|x a IH]; simpl; intros i Hi; [lia|].
  destruct i as [|i]; [done|]. apply IH. lia.
Qed.

Lemma str_get_app_length (a b : string) :
  String.get (String.length a) (a ++ b) = String.get 0 b.
Proof. induction a as [|x a IH]; [done|]. rewrite str_app_cons. simpl. done. Qed.

Lemma str_get_lt (a : string) (i : nat) :
  (i < String.length a)%nat → is_Some (String.get i a).
Proof.
  revert i. induction a as [|x a IH]; simpl; intros i Hi; [lia|].
  destruct i as [|i]; [by eexists|]. apply IH. lia.
Qed.

Lemma str_substring_app (a b : string) :
  String.substring 0 (String.length a) (a ++ b) = a.
Proof.
  induction a as [|x a IH]; [by destruct b|].
  rewrite str_app_cons. simpl. by rewrite IH.
Qed.

Lemma every_agree_Some (i : nat) (c : ascii) (ws : list string) :
  ∃ b : bool, every_agree i c (Some <$> ws) = Ok b
    ∧ (b = true ↔ ∀ w, w ∈ ws → JS.char_at i w = Some c).
Proof.
  induction ws as [|w ws IH]; csimpl.
  - exists true. split; [done|]. split; [|done]. intros _ w Hw. by apply elem_of_nil in Hw.
  - case_bool_decide as Hc.
    + destruct IH as (b & -> & Hb). exists b. split; [done|].
      rewrite Hb. split.
      * intros H w' [->|Hw']%elem_of_cons; auto.
      * intros H w' Hw'. apply H. by right.
    + exists false. split; [done|]. split; [done|].
      intros H. exfalso. apply Hc, H. by left.
Qed.

Lemma common_prefix_snoc (pre : string) (c : ascii) (ws : list string) :
  common_prefix pre ws →
  (∀ w, w ∈ ws → JS.char_at (String.length pre) w = Some c) →
  common_prefix (pre ++ String c "") ws.
Proof.
  intros Hpre Hc w Hw. destruct (Hpre w Hw) as [r ->].
  specialize (Hc _ Hw). unfold JS.char_at in Hc.
  rewrite str_get_app_length in Hc. destruct r as [|c' r]; simplify_eq/=.
  exists r. by rewrite str_app_assoc.
Qed.

Lemma common_prefix_length_le (q : string) (w : string) (ws : list string) :
  common_prefix q ws → w ∈ ws → (String.length q ≤ String.length w)%nat.
Proof. intros Hq Hw. destruct (Hq w Hw) as [r ->]. rewrite str_length_app. lia. Qed.

Lemma common_prefix_agree (q : string) (ws : list string) (w w' : string) (i : nat) :
  common_prefix q ws → w ∈ ws → w' ∈ ws → (i < String.length q)%nat →
  String.get i w = String.get i w'.
Proof.
  intros Hq Hw Hw' Hi. destruct (Hq w Hw) as [r ->]. destruct (Hq w' Hw') as [r' ->].
  by rewrite !str_get_app_l.
Qed.

Lemma findPrefix_loop_spec (rest pre : string) (ws : list string) :
  (pre ++ rest)%string ∈ ws →
  common_prefix pre ws →
  ∃ p, (i ← findPrefix_loop rest (String.length pre) (Some <$> ws);
        Ok (String.substring 0 i (pre ++ rest))) = Ok p
     ∧ common_prefix p ws
     ∧ (∀ q, common_prefix q ws → (String.length q ≤ String.length p)%nat)
     ∧ ¬ (∃ c, ∀ w, w ∈ ws → JS.char_at (String.length p) w = Some c).
Proof.
  revert pre. induction rest as [|c rest IH]; intros pre Hw0 Hpre.
  - exists pre. rewrite str_app_nil_r in *. simpl.
    rewrite <-(str_app_nil_r pre) at 2. rewrite str_substring_app.
    split_and!; [done|done| |].
    + intros q Hq. by eapply common_prefix_length_le.
    + intros [c Hc]. specialize (Hc _ Hw0). unfold JS.char_at in Hc.
      rewrite <-(str_app_nil_r pre) in Hc at 2. by rewrite str_get_app_length in Hc.
  - csimpl. destruct (every_agree_Some (String.length pre) c ws) as (b & Hb & Hbs).
    rewrite Hb. csimpl. destruct b.
    + destruct (IH (pre ++ String c "")%string) as (p & Hp & Hrest).
      * by rewrite str_app_assoc.
      * apply common_prefix_snoc; [done|]. by apply Hbs.
      * exists p. split; [|done]. rewrite <-Hp.
        rewrite str_length_app, str_app_assoc. simpl.
        by replace (String.length pre + 1)%nat with (S (String.length pre)) by lia.
    + exists pre. simpl. rewrite str_substring_app. split_and!; [done|done| |].
      * intros q Hq. destruct (decide (String.length q ≤ String.length pre)%nat) as [|Hlt]; [done|].
        exfalso. assert (true = false) as Habs; [|done]. symmetry. apply Hbs.
        intros w Hw. unfold JS.char_at.
        rewrite (common_prefix_agree q ws w (pre ++ String c rest)%string); [|done|done|done|lia].
        by rewrite str_get_app_length.
      * intros [c' Hc']. assert (true = false) as Habs; [|done]. symmetry. apply Hbs.
        intros w Hw. rewrite (Hc' w Hw). specialize (Hc' _ Hw0). unfold JS.char_at in Hc'.
        rewrite str_get_app_length in Hc'. simpl in Hc'. congruence.
Qed.

Lemma sample_index_lt (n i : nat) : (0 < n)%nat → (i < 4)%nat → (i * n / 4 < n)%nat.
Proof.
  intros Hn Hi. apply Nat.Div0.div_lt_upper_bound. nia.
Qed.

(** C8.  For a non-empty list of icon classes of size [n] (the key set in
    first-encounter order), the four samples at positions [i * n / 4],
    [i = 0..3], all exist, [getPrefixFromIconClasses] returns a prefix [p]
    without throwing, [p] is a leading-character prefix of every sample, no
    common prefix of the samples is longer, and the scan has stopped at the
    first index where the samples do not all carry one same character (a
    mismatch, or a sample that is exhausted). *)
Theorem C8_prefix_is_longest_common_prefix_of_quartile_samples (iconClasses : list string) :
  iconClasses ≠ [] →
  let n := length iconClasses in
  ∃ s0 s1 s2 s3 p,
    iconClasses !! (0 * n / 4)%nat = Some s0 ∧
    iconClasses !! (1 * n / 4)%nat = Some s1 ∧
    iconClasses !! (2 * n / 4)%nat = Some s2 ∧
    iconClasses !! (3 * n / 4)%nat = Some s3 ∧
    getPrefixFromIconClasses iconClasses = Ok p ∧
    common_prefix p [s0; s1; s2; s3] ∧
    (∀ q, common_prefix q [s0; s1; s2; s3] → (String.length q ≤ String.length p)%nat) ∧
    ¬ (∃ c, ∀ w, w ∈ [s0; s1; s2; s3] → JS.char_at (String.length p) w = Some c).
Proof.
  intros Hne n.
  assert (0 < n)%nat as Hn by (subst n; destruct iconClasses; simpl; [done|lia]).
  destruct (lookup_lt_is_Some_2 iconClasses (0 * n / 4)%nat) as [s0 H0];
    [by apply sample_index_lt; lia|].
  destruct (lookup_lt_is_Some_2 iconClasses (1 * n / 4)%nat) as [s1 H1];
    [by apply sample_index_lt; lia|].
  destruct (lookup_lt_is_Some_2 iconClasses (2 * n / 4)%nat) as [s2 H2];
    [by apply sample_index_lt; lia|].
  destruct (lookup_lt_is_Some_2 iconClasses (3 * n / 4)%nat) as [s3 H3];
    [by apply sample_index_lt; lia|].
  exists s0, s1, s2, s3.
  assert (getPrefixFromIconClasses iconClasses = findPrefix (Some <$> [s0; s1; s2; s3])) as ->.
  { unfold getPrefixFromIconClasses. cbn [seq map]. fold n. by rewrite H0, H1, H2, H3. }
  unfold findPrefix. cbn [fmap list_fmap lookup list_lookup].
  destruct s0 as [|c0 s0].
  - exists "". split_and!; [done..| | | ].
    + intros w _. by exists w.
    + intros q Hq. apply (common_prefix_length_le q "" [""; s1; s2; s3]); [done|]. by left.
    + intros [c Hc]. specialize (Hc "" ltac:(by left)). done.
  - rewrite bool_decide_eq_false_2 by (simpl; lia).
    destruct (findPrefix_loop_spec (String c0 s0) "" [String c0 s0; s1; s2; s3])
      as (p & Hp & Hrest).
    + rewrite str_app_nil_l. by left.
    + intros w _. by exists w.
    + exists p. split_and!; [done..| |apply Hrest|apply Hrest|apply Hrest].
      exact Hp.
Qed.

(** ** Icon.parse *)

Lemma filter_singleton_split {A} (P : A → Prop) `{!∀ x, Decision (P x)} (l : list A) (n : A) :
  filter P l = [n] →
  ∃ l1 l2, l = l1 ++ n :: l2 ∧ P n ∧ Forall (fun x => ¬ P x) l1 ∧ Forall (fun x => ¬ P x) l2.
Proof.
  induction l as [|x l IH]; [done|].
  rewrite filter_cons. case_decide as Hx.
  - intros [= -> Hl]. exists [], l. split_and!; [done|done|constructor|].
    apply Forall_forall. intros y Hy Py.
    assert (y ∈ filter P l) as Hin by (by apply list_elem_of_filter).
    rewrite Hl in Hin. by apply elem_of_nil in Hin.
  - intros Hl. destruct (IH Hl) as (l1 & l2 & -> & Pn & H1 & H2).
    exists (x :: l1), l2. split_and!; [done|done| |done]. by constructor.
Qed.

Lemma filter_none {A} (P : A → Prop) `{!∀ x, Decision (P x)} (l : list A) :
  Forall (fun x => ¬ P x) l → filter P l = [].
Proof.
  induction 1 as [|x l Hx _ IH]; [done|]. rewrite filter_cons.
  by rewrite decide_False.
Qed.

Lemma filter_all {A} (P : A → Prop) `{!∀ x, Decision (P x)} (l : list A) :
  Forall P l → filter P l = l.
Proof.
  induction 1 as [|x l Hx _ IH]; [done|]. rewrite filter_cons.
  rewrite decide_True by done. by rewrite IH.
Qed.

Lemma parseIcons_skip (unparsed : UnparsedIcon) (iconClasses : list string)
    (log : list string) (before after : list UnparsedIcon) :
  Icon_parse unparsed iconClasses = (log, Ok None) →
  (parseIcons (before ++ unparsed :: after) iconClasses).2
  = (parseIcons (before ++ after) iconClasses).2.
Proof.
  intros Hp. induction before as [|u before IH].
  - cbn [app parseIcons]. rewrite Hp.
    destruct (parseIcons after iconClasses) as [log' [icons|e]]; done.
  - cbn [app parseIcons].
    destruct (Icon_parse u iconClasses) as [logu [r|e]]; [|done].
    destruct (parseIcons (before ++ unparsed :: after) iconClasses) as [l1 r1].
    destruct (parseIcons (before ++ after) iconClasses) as [l2 r2].
    simpl in *. by subst.
Qed.

(** C4.  [Icon.parse] by the number of tokens that are icon classes.
    None: it logs one line and returns [null]; the combination then changes
    neither the icons handed on by step 5 nor the result of the engine run on
    them.  Exactly one: the icon has that token as its name and the remaining
    tokens, in order, as its modifiers.  Two or more: it throws the
    more-than-one-icon-class error, carrying the candidates. *)
Theorem C4_Icon_parse_by_number_of_name_candidates
    (unparsed : UnparsedIcon) (iconClasses : list string) :
  match filter (fun cls => cls ∈ iconClasses) unparsed with
  | [] =>
      Icon_parse unparsed iconClasses
      = (["Detected icon with no name: " +:+ JS.join " " unparsed +:+ ". (Skipping.)"], Ok None)
      ∧ ∀ (before after : list UnparsedIcon),
          (parseIcons (before ++ unparsed :: after) iconClasses).2
          = (parseIcons (before ++ after) iconClasses).2
          ∧ ∀ ffs iconToCodepoint,
              (parseAndMinify ffs (before ++ unparsed :: after) iconClasses iconToCodepoint).2
              = (parseAndMinify ffs (before ++ after) iconClasses iconToCodepoint).2
  | [candidate] =>
      ∃ l1 l2, unparsed = l1 ++ candidate :: l2
        ∧ candidate ∈ iconClasses
        ∧ Forall (fun cls => cls ∉ iconClasses) (l1 ++ l2)
        ∧ Icon_parse unparsed iconClasses = ([], Ok (Some (mkIcon candidate (l1 ++ l2))))
  | names => Icon_parse unparsed iconClasses = ([], Throw (MoreThanOneIconClass names))
  end.
Proof.
  destruct (filter (fun cls => cls ∈ iconClasses) unparsed) as [|n [|n' names]] eqn:Hf.
  - assert (Icon_parse unparsed iconClasses
      = (["Detected icon with no name: " +:+ JS.join " " unparsed +:+ ". (Skipping.)"], Ok None))
      as Hp by (unfold Icon_parse; by rewrite Hf).
    split; [done|]. intros before after.
    pose proof (parseIcons_skip _ _ _ before after Hp) as Hskip.
    split; [done|]. intros ffs tbl. unfold parseAndMinify.
    destruct (parseIcons (before ++ unparsed :: after) iconClasses) as [l1 r1].
    destruct (parseIcons (before ++ after) iconClasses) as [l2 r2].
    simpl in *. by subst.
  - destruct (filter_singleton_split _ _ _ Hf) as (l1 & l2 & -> & Hn & H1 & H2).
    exists l1, l2. split_and!; [done|done|by apply Forall_app| ].
    unfold Icon_parse. rewrite Hf.
    rewrite !bool_decide_eq_false_2 by (simpl; lia). cbn [lookup list_lookup].
    do 3 f_equal.
    rewrite filter_app, filter_cons, decide_False by (by intros H; apply H).
    rewrite !filter_all; [done| |].
    + eapply Forall_impl; [exact H2|]. simpl. intros x Hx ->. done.
    + eapply Forall_impl; [exact H1|]. simpl. intros x Hx ->. done.
  - unfold Icon_parse. rewrite Hf. simpl. done.
Qed.

(** C10.  Normalisation sorts the tokens of a match but keeps repeated
    tokens: the raw match ["fa-home fa-home"] yields the combination
    [["fa-home"; "fa-home"]]; and [Icon.parse] on a combination that repeats
    one icon class throws the more-than-one-icon-class error, although only
    one icon is named. *)
Theorem C10_repeated_icon_class_is_rejected :
  findIcons ["fa-home fa-home"] = [["fa-home"; "fa-home"]]
  ∧ ∀ (cls : string) (iconClasses : list string),
      cls ∈ iconClasses →
      Icon_parse [cls; cls] iconClasses = ([], Throw (MoreThanOneIconClass [cls; cls])).
Proof.
  split; [by vm_compute|].
  intros cls iconClasses Hin. unfold Icon_parse.
  rewrite !filter_cons, !decide_True by done. by rewrite filter_nil.
Qed.

Lemma C10_repeated_icon_class_witness :
  findIcons ["fa-home fa-home"] = [["fa-home"; "fa-home"]]
  ∧ Icon_parse ["fa-home"; "fa-home"] ["fa-home"; "fa-user"]
    = ([], Throw (MoreThanOneIconClass ["fa-home"; "fa-home"])).
Proof.
  split.
  - exact (proj1 C10_repeated_icon_class_is_rejected).
  - apply (proj2 C10_repeated_icon_class_is_rejected "fa-home" ["fa-home"; "fa-user"]).
    by left.
Defined.

(** ** Counting *)

Lemma filter_head_Some {A} (P : A → Prop) `{!∀ x, Decision (P x)} (l : list A) (x : A) :
  filter P l !! 0%nat = Some x → x ∈ l ∧ P x.
Proof.
  intros Hhd. apply list_elem_of_lookup_2, list_elem_of_filter in Hhd as [? ?]. done.
Qed.

Lemma filter_head_None {A} (P : A → Prop) `{!∀ x, Decision (P x)} (l : list A) :
  filter P l !! 0%nat = None → ∀ x, x ∈ l → ¬ P x.
Proof.
  intros Hhd x Hx HP. assert (x ∈ filter P l) as Hin by (by apply list_elem_of_filter).
  destruct (filter P l); [by apply elem_of_nil in Hin|done].
Qed.

Lemma filter_eq_length_NoDup {A} `{!EqDecision A} (l : list A) (x : A) :
  NoDup l → x ∈ l → length (filter (fun y => y = x) l) = 1%nat.
Proof.
  induction l as [|u l IH]; intros Hnd Hin; [by apply elem_of_nil in Hin|].
  apply NoDup_cons in Hnd as [Hu Hnd]. rewrite filter_cons.
  apply elem_of_cons in Hin as [<-|Hin].
  - rewrite decide_True by done. simpl. f_equal.
    apply length_zero_iff_nil, filter_none, Forall_forall.
    intros y Hy ->. done.
  - rewrite decide_False by (intros ->; done). by apply IH.
Qed.

Lemma filter_fmap_length {A B} (f : A → B) (P : B → Prop)
    `{!∀ y, Decision (P y)} `{!∀ x, Decision (P (f x))} (l : list A) :
  length (filter (fun x => P (f x)) l) = length (filter P (f <$> l)).
Proof.
  induction l as [|x l IH]; [done|]. rewrite fmap_cons, !filter_cons.
  repeat case_decide; simpl; rewrite ?IH; done.
Qed.

Lemma filter_elem_of_length_NoDup {A} `{!EqDecision A} (l V : list A) :
  NoDup l → NoDup V → (∀ x, x ∈ V → x ∈ l) →
  length (filter (fun x => x ∈ V) l) = length V.
Proof.
  intros Hl HV Hsub. apply Permutation_length, NoDup_Permutation; [by apply NoDup_filter|done|].
  intros x. rewrite list_elem_of_filter. split; [by intros [? _]|]. auto.
Qed.

(** ** Normalisation of crawled matches *)

Lemma split_ws_not_nil (s : string) : JS.split_ws s ≠ [].
Proof.
  induction s as [|c s IH]; [done|]. simpl.
  destruct (JS.is_space c).
  - destruct s as [|c' s']; [done|]. destruct (JS.is_space c'); [done|done].
  - by destruct (JS.split_ws s).
Qed.

Lemma split_ws_avoids_space (s : string) :
  Forall (fun t => str_avoids JS.is_space t = true) (JS.split_ws s).
Proof.
  induction s as [|c s IH]; [by repeat constructor|].
  cbn [JS.split_ws]. destruct (JS.is_space c) eqn:Hc.
  - destruct s as [|c' s']; [by repeat constructor|].
    destruct (JS.is_space c'); [done|]. by constructor.
  - destruct (JS.split_ws s) as [|t ts]; [by repeat constructor; simpl; rewrite Hc|].
    inversion IH; subst. constructor; [|done]. simpl. by rewrite Hc.
Qed.

Lemma str_avoids_space_char (t : string) :
  str_avoids JS.is_space t = true → str_avoids (Ascii.eqb " ") t = true.
Proof.
  induction t as [|c t IH]; [done|]. cbn [str_avoids].
  intros [Hc Ht]%andb_true_iff. rewrite IH by done.
  destruct (Ascii.eqb_spec " " c) as [<-|]; [by vm_compute in Hc|done].
Qed.

Lemma split_char_avoids (sep : ascii) (t : string) :
  str_avoids (Ascii.eqb sep) t = true → JS.split_char sep t = [t].
Proof.
  induction t as [|c t IH]; [done|]. cbn [str_avoids JS.split_char].
  intros [Hc Ht]%andb_true_iff. rewrite Ascii.eqb_sym.
  destruct (Ascii.eqb sep c); [done|]. by rewrite IH.
Qed.

Lemma split_char_app (sep : ascii) (t rest : string) :
  str_avoids (Ascii.eqb sep) t = true →
  JS.split_char sep (t +:+ String sep rest) = t :: JS.split_char sep rest.
Proof.
  induction t as [|c t IH].
  - intros _. rewrite str_app_nil_l. cbn [JS.split_char]. by rewrite Ascii.eqb_refl.
  - cbn [str_avoids]. intros [Hc Ht]%andb_true_iff. rewrite str_app_cons.
    cbn [JS.split_char]. rewrite Ascii.eqb_sym.
    destruct (Ascii.eqb sep c); [done|]. by rewrite IH.
Qed.

Lemma split_char_join (sep : ascii) (toks : list string) :
  toks ≠ [] →
  Forall (fun t => str_avoids (Ascii.eqb sep) t = true) toks →
  JS.split_char sep (JS.join (String sep "") toks) = toks.
Proof.
  intros Hne Hall. induction Hall as [|t toks Ht Htoks IH]; [done|].
  destruct toks as [|t' toks].
  - simpl. by apply split_char_avoids.
  - unfold JS.join in *. cbn [String.concat].
    rewrite str_app_cons, str_app_nil_l.
    rewrite split_char_app by done. f_equal. by apply IH.
Qed.

Lemma sort_Permutation (l : list string) : JS.sort l ≡ₚ l.
Proof. apply merge_sort_Permutation. Qed.

Lemma sort_Sorted (l : list string) : Sorted String.le (JS.sort l).
Proof. apply (Sorted_merge_sort String.le). Qed.


Lemma split_char_canonical (s : string) :
  JS.split_char " " (canonical s) = JS.sort (JS.split_ws s).
Proof.
  unfold canonical. apply split_char_join.
  - intros Hnil. apply (split_ws_not_nil s).
    apply Permutation_nil_r. rewrite <-Hnil. symmetry. apply sort_Permutation.
  - rewrite sort_Permutation.
    eapply Forall_impl; [apply split_ws_avoids_space|].
    intros t. apply str_avoids_space_char.
Qed.

Lemma Set_from_spec (arr seen : list string) :
  NoDup seen →
  NoDup (foldl JS.Set_add seen arr)
  ∧ ∀ x, x ∈ foldl JS.Set_add seen arr ↔ x ∈ seen ∨ x ∈ arr.
Proof.
  revert seen. induction arr as [|a arr IH]; intros seen Hnd; cbn [foldl].
  - split; [done|]. intros x. split; [by left|]. intros [H|H]; [done|].
    by apply elem_of_nil in H.
  - destruct (IH (JS.Set_add seen a)) as [H1 H2].
    { unfold JS.Set_add. case_bool_decide as Ha; [done|].
      apply NoDup_app. split_and!; [done| |apply NoDup_singleton].
      intros x Hx ->%list_elem_of_singleton. done. }
    split; [done|]. intros x. rewrite H2, elem_of_cons. unfold JS.Set_add.
    case_bool_decide as Ha.
    + split; [intros [?|?]; auto|]. intros [?|[->|?]]; auto.
    + rewrite elem_of_app, list_elem_of_singleton.
      split; [intros [[?|?]|?]; auto|]. intros [?|[?|?]]; auto.
Qed.

Lemma Set_from_NoDup (arr : list string) : NoDup (JS.Set_from arr).
Proof. apply Set_from_spec, NoDup_nil_2. Qed.

Lemma Set_from_elem_of (arr : list string) (x : string) : x ∈ JS.Set_from arr ↔ x ∈ arr.
Proof.
  unfold JS.Set_from. destruct (Set_from_spec arr [] (NoDup_nil_2)) as [_ H].
  rewrite H. split; [intros [Hx|Hx]; [by apply elem_of_nil in Hx|done]|by right].
Qed.

Lemma findIcons_NoDup (matches : list string) : NoDup (findIcons matches).
Proof.
  unfold findIcons. apply NoDup_fmap_2_strong; [|apply Set_from_NoDup].
  intros k1 k2 [s1 [-> _]]%Set_from_elem_of%list_elem_of_fmap
    [s2 [-> _]]%Set_from_elem_of%list_elem_of_fmap Heq.
  rewrite !split_char_canonical in Heq. unfold canonical. by rewrite Heq.
Qed.



(** ** The subsetting engine *)

Lemma refs_lookup (ffs : list FontFace) (j : nat) (ff : FontFace) :
  (j, ff) ∈ refs ffs ↔ ffs !! j = Some ff.
Proof.
  unfold refs. rewrite elem_of_lookup_imap. split.
  - intros (i & y & [= -> ->] & H). done.
  - intros H. by exists j, ff.
Qed.

Lemma refs_lookup_index (ffs : list FontFace) (i : nat) (r : FontFaceRef) :
  refs ffs !! i = Some r → r.1 = i ∧ ffs !! i = Some r.2.
Proof.
  unfold refs. rewrite list_lookup_imap. destruct (ffs !! i) as [ff|]; [|done].
  by intros [= <-].
Qed.

Lemma initState_lookup (l : list FontFaceRef) (m : gmap nat (gmap Z Z)) (j : nat) :
  foldl (fun m (ff : FontFaceRef) => <[ff.1 := ∅]> m) m l !! j
  = if decide (j ∈ l.*1) then Some ∅ else m !! j.
Proof.
  revert m. induction l as [|[k ff] l IH]; intros m; [done|].
  cbn [foldl fmap list_fmap fst]. rewrite IH. 
  destruct (decide (j ∈ l.*1)) as [Hin|Hnin].
  - rewrite decide_True; [done|]. by right.
  - destruct (decide (j = k)) as [->|Hne].
    + rewrite decide_True by (by left). apply lookup_insert_eq.
    + rewrite decide_False by (intros [->|?]%elem_of_cons; done).
      by apply lookup_insert_ne.
Qed.

Lemma refs_fst (ffs : list FontFace) (j : nat) : j ∈ (refs ffs).*1 ↔ (j < length ffs)%nat.
Proof.
  rewrite list_elem_of_fmap. split.
  - intros ([k ff] & -> & H%refs_lookup). by eapply lookup_lt_Some.
  - intros H. destruct (lookup_lt_is_Some_2 ffs j H) as [ff Hff].
    exists (j, ff). split; [done|]. by apply refs_lookup.
Qed.

Lemma falsy_Some (n : Z) : n ≠ 0 → JS.falsy (Some n) = false.
Proof. intros H. unfold JS.falsy. by rewrite bool_decide_eq_false_2. Qed.

Lemma codepointOf_Some (st : MinifyState) (j : nat) (cp n : Z) :
  codepointOf st j cp = Some n ↔ ∃ m, oldCodepointsToNew st !! j = Some m ∧ m !! cp = Some n.
Proof.
  unfold codepointOf. destruct (oldCodepointsToNew st !! j) as [m|]; simpl.
  - split; [by exists m|]. by intros (m' & [= <-] & ?).
  - split; [done|]. by intros (m' & ? & ?).
Qed.

Lemma codepointOf_registerMapping (n : Z) (icon : Icon) (st : MinifyState) (j : nat) (cp : Z) :
  codepointOf (registerMapping n icon st) j cp = codepointOf st j cp.
Proof. done. Qed.

Section Engine.
Variable ffs : list FontFace.
Variable base : Z.
Hypothesis base_pos : 0 < base.

Lemma Inv_init : Inv ffs base (initState ffs base).
Proof.
  split; simpl.
  - lia.
  - intros j. rewrite initState_lookup. rewrite <-refs_fst.
    destruct (decide (j ∈ (refs ffs).*1)); [by split; [|eexists]|].
    rewrite lookup_empty. split; [by intros []|done].
  - intros i g. by rewrite lookup_nil.
  - intros j cp n. unfold codepointOf. simpl. rewrite initState_lookup.
    destruct (decide _); simpl; [by rewrite lookup_empty|by rewrite lookup_empty].
  - intros j cp j' cp' n. unfold codepointOf. simpl. rewrite initState_lookup.
    destruct (decide _); simpl; [by rewrite lookup_empty|by rewrite lookup_empty].
  - intros i Hi. lia.
  - intros n sels. by rewrite lookup_empty.
Qed.

Lemma Registered_init : Registered (initState ffs base).
Proof.
  intros j cp n. unfold codepointOf. simpl. rewrite initState_lookup.
  destruct (decide _); simpl; [by rewrite lookup_empty|by rewrite lookup_empty].
Qed.

Lemma Inv_allocated_pos (st : MinifyState) (j : nat) (cp n : Z) :
  Inv ffs base st → codepointOf st j cp = Some n →
  base ≤ n < newCodepoint_value st ∧ n ≠ 0.
Proof.
  intros HI Hn. destruct (inv_alloc _ _ _ HI _ _ _ Hn) as (ff & f & g0 & rest & i & _ & _ & _ & -> & Hi).
  apply lookup_lt_Some in Hi. rewrite (inv_counter _ _ _ HI). lia.
Qed.

(** [addGlyph] on a descriptor without the glyph. *)
Lemma addGlyph_lacks (j : nat) (ff : FontFace) (f : Font) (cp : Z) (st : MinifyState) :
  font ff = Some f → Font_find f [cp] = [] →
  addGlyph (j, ff) cp st = Ok (None, st).
Proof. intros Hf Hfind. unfold addGlyph. simpl. by rewrite Hf, Hfind. Qed.

(** [addGlyph] on a descriptor with the glyph allocates or reuses. *)
Lemma addGlyph_allocOrReuse (j : nat) (ff : FontFace) (f : Font) (g0 : Glyph)
    (rest : list Glyph) (cp : Z) (st : MinifyState) :
  Inv ffs base st → ffs !! j = Some ff →
  font ff = Some f → Font_find f [cp] = g0 :: rest →
  addGlyph (j, ff) cp st
  = Ok (Some (allocOrReuse j g0 cp st).1, (allocOrReuse j g0 cp st).2).
Proof.
  intros HI Hj Hf Hfind. unfold addGlyph. simpl. rewrite Hf, Hfind.
  destruct (proj2 (inv_dom _ _ _ HI j)) as [m Hm]; [by eapply lookup_lt_Some|].
  unfold allocOrReuse, codepointOf. rewrite Hm. simpl.
  destruct (m !! cp) as [n|] eqn:Hn.
  - rewrite falsy_Some; [done|].
    eapply (Inv_allocated_pos st j cp n HI). apply codepointOf_Some. eauto.
  - done.
Qed.

Lemma codepointOf_alloc (j : nat) (g0 : Glyph) (cp : Z) (st : MinifyState) (j' : nat) (cp' : Z) :
  codepointOf st j cp = None →
  is_Some (oldCodepointsToNew st !! j) →
  codepointOf (allocOrReuse j g0 cp st).2 j' cp'
  = if decide (j' = j ∧ cp' = cp) then Some (newCodepoint_value st)
    else codepointOf st j' cp'.
Proof.
  intros Hnone [m Hm]. unfold allocOrReuse. rewrite Hnone. simpl.
  unfold codepointOf. simpl. rewrite Hm. simpl.
  destruct (decide (j' = j)) as [->|Hj].
  - rewrite lookup_insert_eq. simpl. rewrite Hm. simpl.
    destruct (decide (cp' = cp)) as [->|Hcp].
    + rewrite decide_True by done. apply lookup_insert_eq.
    + rewrite decide_False by (intros [_ ?]; done). by apply lookup_insert_ne.
  - rewrite lookup_insert_ne by done. by rewrite decide_False by (intros [? _]; done).
Qed.

Lemma allocOrReuse_Inv (j : nat) (ff : FontFace) (f : Font) (g0 : Glyph)
    (rest : list Glyph) (cp : Z) (st : MinifyState) :
  Inv ffs base st → ffs !! j = Some ff →
  font ff = Some f → Font_find f [cp] = g0 :: rest →
  Inv ffs base (allocOrReuse j g0 cp st).2.
Proof.
  intros HI Hj Hf Hfind.
  destruct (codepointOf st j cp) as [n|] eqn:Hcp.
  { unfold allocOrReuse. by rewrite Hcp. }
  assert (is_Some (oldCodepointsToNew st !! j)) as Hm
    by (apply (inv_dom _ _ _ HI); by eapply lookup_lt_Some).
  pose proof (codepointOf_alloc j g0 cp st) as Hlk.
  assert (glyfs (allocOrReuse j g0 cp st).2
          = glyfs st ++ [set_unicode g0 [newCodepoint_value st]]) as Hg
    by (unfold allocOrReuse; by rewrite Hcp).
  assert (newCodepoint_value (allocOrReuse j g0 cp st).2 = newCodepoint_value st + 1) as Hc
    by (unfold allocOrReuse; by rewrite Hcp).
  assert (newCodepointsToClasses (allocOrReuse j g0 cp st).2 = newCodepointsToClasses st) as Hk
    by (unfold allocOrReuse; by rewrite Hcp).
  assert (∀ k, is_Some (oldCodepointsToNew (allocOrReuse j g0 cp st).2 !! k)
               ↔ is_Some (oldCodepointsToNew st !! k)) as Hd.
  { intros k. unfold allocOrReuse. rewrite Hcp. simpl.
    destruct (decide (k = j)) as [->|Hk'].
    - rewrite lookup_insert_eq. split; [done|by eexists].
    - by rewrite lookup_insert_ne. }
  pose proof (inv_counter _ _ _ HI) as Hcount.
  split.
  - rewrite Hc, Hg, length_app. simpl. lia.
  - intros k. rewrite Hd. apply (inv_dom _ _ _ HI).
  - intros i g. rewrite Hg. intros Hi.
    apply lookup_app_Some in Hi as [Hi|[Hlen Hi]].
    + by apply (inv_unicode _ _ _ HI).
    + destruct (i - length (glyfs st))%nat as [|k] eqn:Hk'; [|done].
      simpl in Hi. injection Hi as <-. simpl. f_equal. lia.
  - intros j' cp' n. rewrite Hlk by done. case_decide as Hd'.
    + destruct Hd' as [-> ->]. intros [= <-].
      exists ff, f, g0, rest, (length (glyfs st)). split_and!; [done..|lia|].
      rewrite Hg. rewrite lookup_app_r by lia. by rewrite Nat.sub_diag.
    + intros Hn. destruct (inv_alloc _ _ _ HI _ _ _ Hn)
        as (ff' & f' & g0' & rest' & i & ? & ? & ? & ? & Hi).
      exists ff', f', g0', rest', i. split_and!; [done..|].
      rewrite Hg. by apply lookup_app_l_Some.
  - intros j1 cp1 j2 cp2 n. rewrite !Hlk by done.
    case_decide as Hd1; case_decide as Hd2.
    + destruct Hd1 as [-> ->], Hd2 as [-> ->]. done.
    + intros [= <-] Hn. apply (Inv_allocated_pos st _ _ _ HI) in Hn. lia.
    + intros Hn [= <-]. apply (Inv_allocated_pos st _ _ _ HI) in Hn. lia.
    + apply (inv_inj _ _ _ HI).
  - intros i. rewrite Hg, length_app. simpl. intros Hi.
    destruct (decide (i = length (glyfs st))) as [->|Hne].
    + exists j, cp. rewrite Hlk by done. rewrite decide_True by done. by rewrite Hcount.
    + destruct (inv_surj _ _ _ HI i) as (j' & cp' & Hn); [lia|].
      exists j', cp'. rewrite Hlk by done. rewrite decide_False; [done|].
      intros [-> ->]. congruence.
  - intros n sels. rewrite Hk. intros Hn.
    destruct (inv_keys _ _ _ HI _ _ Hn) as [Hne (j' & cp' & Hn')]. split; [done|].
    exists j', cp'. rewrite Hlk by done. rewrite decide_False; [done|].
    intros [-> ->]. congruence.
Qed.

Lemma allocOrReuse_codepointOf (j : nat) (g0 : Glyph) (cp : Z) (st : MinifyState) :
  is_Some (oldCodepointsToNew st !! j) →
  codepointOf (allocOrReuse j g0 cp st).2 j cp = Some (allocOrReuse j g0 cp st).1.
Proof.
  intros Hm. destruct (codepointOf st j cp) as [n|] eqn:Hcp.
  - unfold allocOrReuse. by rewrite Hcp.
  - rewrite codepointOf_alloc by done. rewrite decide_True by done.
    unfold allocOrReuse. by rewrite Hcp.
Qed.

Lemma allocOrReuse_keeps (j : nat) (g0 : Glyph) (cp : Z) (st : MinifyState)
    (j' : nat) (cp' n : Z) :
  is_Some (oldCodepointsToNew st !! j) →
  codepointOf st j' cp' = Some n →
  codepointOf (allocOrReuse j g0 cp st).2 j' cp' = Some n.
Proof.
  intros Hm Hn. destruct (codepointOf st j cp) as [n0|] eqn:Hcp.
  - unfold allocOrReuse. by rewrite Hcp.
  - rewrite codepointOf_alloc by done. rewrite decide_False; [done|].
    intros [-> ->]. congruence.
Qed.

Lemma allocOrReuse_other (j : nat) (g0 : Glyph) (cp : Z) (st : MinifyState)
    (j' : nat) (cp' : Z) :
  is_Some (oldCodepointsToNew st !! j) →
  (j', cp') ≠ (j, cp) →
  codepointOf (allocOrReuse j g0 cp st).2 j' cp' = codepointOf st j' cp'.
Proof.
  intros Hm Hne. destruct (codepointOf st j cp) as [n0|] eqn:Hcp.
  - unfold allocOrReuse. by rewrite Hcp.
  - rewrite codepointOf_alloc by done. rewrite decide_False; [done|].
    intros [-> ->]. done.
Qed.

Lemma allocOrReuse_classes (j : nat) (g0 : Glyph) (cp : Z) (st : MinifyState) :
  newCodepointsToClasses (allocOrReuse j g0 cp st).2 = newCodepointsToClasses st.
Proof. unfold allocOrReuse. by destruct (codepointOf st j cp). Qed.

Lemma registerMapping_Inv (n : Z) (icon : Icon) (st : MinifyState) :
  Inv ffs base st → (∃ j cp, codepointOf st j cp = Some n) →
  Inv ffs base (registerMapping n icon st).
Proof.
  intros HI Hn. split; try apply HI.
  intros n' sels. unfold registerMapping. simpl.
  destruct (decide (n' = n)) as [->|Hne].
  - rewrite lookup_insert_eq. intros [= <-]. split; [|done].
    by destruct (default [] (newCodepointsToClasses st !! n)).
  - rewrite lookup_insert_ne by done. apply (inv_keys _ _ _ HI).
Qed.

Lemma registerMapping_lookup (n : Z) (icon : Icon) (st : MinifyState) (n' : Z) :
  newCodepointsToClasses (registerMapping n icon st) !! n'
  = if decide (n' = n)
    then Some (default [] (newCodepointsToClasses st !! n) ++ [toIconSelector icon])
    else newCodepointsToClasses st !! n'.
Proof.
  unfold registerMapping. simpl. case_decide as Hd.
  - subst. apply lookup_insert_eq.
  - by apply lookup_insert_ne.
Qed.

(** Registering a list of derived icons at one codepoint. *)
Lemma registerFold_codepointOf (n : Z) (icon : Icon) (l : list string) (st : MinifyState)
    (j : nat) (cp : Z) :
  codepointOf (foldl (fun st cls => registerMapping n (derivedIcon icon cls) st) st l) j cp
  = codepointOf st j cp.
Proof. revert st. induction l as [|cls l IH]; intros st; [done|]. simpl. by rewrite IH. Qed.

Lemma registerFold_glyfs (n : Z) (icon : Icon) (l : list string) (st : MinifyState) :
  glyfs (foldl (fun st cls => registerMapping n (derivedIcon icon cls) st) st l) = glyfs st.
Proof. revert st. induction l as [|cls l IH]; intros st; [done|]. simpl. by rewrite IH. Qed.

Lemma registerFold_Inv (n : Z) (icon : Icon) (l : list string) (st : MinifyState) :
  Inv ffs base st → (∃ j cp, codepointOf st j cp = Some n) →
  Inv ffs base (foldl (fun st cls => registerMapping n (derivedIcon icon cls) st) st l).
Proof.
  revert st. induction l as [|cls l IH]; intros st HI Hn; [done|]. simpl.
  apply IH; [by apply registerMapping_Inv|done].
Qed.

Lemma registerFold_lookup (n : Z) (icon : Icon) (l : list string) (st : MinifyState) (n' : Z) :
  newCodepointsToClasses
    (foldl (fun st cls => registerMapping n (derivedIcon icon cls) st) st l) !! n'
  = if decide (n' = n ∧ l ≠ [])
    then Some (default [] (newCodepointsToClasses st !! n)
               ++ ((fun cls => toIconSelector (derivedIcon icon cls)) <$> l))
    else newCodepointsToClasses st !! n'.
Proof.
  revert st. induction l as [|cls l IH]; intros st.
  - simpl. by rewrite decide_False by (intros [_ ?]; done).
  - cbn [foldl]. rewrite IH.
    rewrite (registerMapping_lookup n _ st n), (registerMapping_lookup n _ st n').
    destruct (decide (n' = n)) as [->|Hne].
    + rewrite (decide_True (P := n = n)) by done.
      rewrite (decide_True (P := n = n ∧ cls :: l ≠ [])) by done.
      destruct l as [|cls' l].
      * by rewrite decide_False by (intros [_ ?]; done).
      * rewrite decide_True by done. simpl. by rewrite <-app_assoc.
    + by rewrite !decide_False by (intros [? _]; done).
Qed.

(** The state change of one resolution: [allocOrReuse] followed by the
    registration of at least one selector. *)
Lemma allocOrReuse_Registered (j : nat) (g0 : Glyph) (cp : Z) (st st' : MinifyState) :
  is_Some (oldCodepointsToNew st !! j) →
  Registered st →
  (∀ j' cp', codepointOf st' j' cp' = codepointOf (allocOrReuse j g0 cp st).2 j' cp') →
  (∀ n', is_Some (newCodepointsToClasses st !! n') → is_Some (newCodepointsToClasses st' !! n')) →
  is_Some (newCodepointsToClasses st' !! (allocOrReuse j g0 cp st).1) →
  Registered st'.
Proof.
  intros Hm HR Hcp Hold Hnew j' cp' n. rewrite Hcp.
  destruct (codepointOf st j cp) as [n0|] eqn:Hn0.
  - unfold allocOrReuse in *. rewrite Hn0 in *. simpl. intros Hn. eapply Hold, HR, Hn.
  - rewrite codepointOf_alloc by done. case_decide as Hd.
    + intros [= <-]. unfold allocOrReuse in Hnew. by rewrite Hn0 in Hnew.
    + intros Hn. eapply Hold, HR, Hn.
Qed.

Lemma resolveFrom_props (icon : Icon) (cp : Z) (st : MinifyState) (j : nat)
    (ff : FontFace) (f : Font) (g0 : Glyph) (rest : list Glyph) :
  Inv ffs base st → ffs !! j = Some ff →
  font ff = Some f → Font_find f [cp] = g0 :: rest →
  Inv ffs base (resolveFrom icon cp st j g0)
  ∧ (∀ j' cp', is_Some (codepointOf (resolveFrom icon cp st j g0) j' cp')
               ↔ is_Some (codepointOf st j' cp') ∨ (j', cp') = (j, cp))
  ∧ (Registered st → Registered (resolveFrom icon cp st j g0)).
Proof.
  intros HI Hj Hf Hfind.
  assert (is_Some (oldCodepointsToNew st !! j)) as Hm
    by (apply (inv_dom _ _ _ HI); by eapply lookup_lt_Some).
  pose proof (allocOrReuse_Inv j ff f g0 rest cp st HI Hj Hf Hfind) as HI1.
  pose proof (allocOrReuse_codepointOf j g0 cp st Hm) as Hn.
  unfold resolveFrom. destruct (allocOrReuse j g0 cp st) as [n st1] eqn:Ha.
  simpl in *. split_and!.
  - apply registerMapping_Inv; eauto.
  - intros j' cp'. rewrite codepointOf_registerMapping.
    destruct (decide ((j', cp') = (j, cp))) as [[= -> ->]|Hne].
    + rewrite Hn. split; [by right|by eexists].
    + replace st1 with (allocOrReuse j g0 cp st).2 by (by rewrite Ha).
      rewrite allocOrReuse_other by done. split; [by left|]. by intros [?|?].
  - intros HR. eapply (allocOrReuse_Registered j g0 cp st); [done|done| | |].
    + intros j' cp'. by rewrite Ha.
    + intros n'. rewrite registerMapping_lookup.
      replace (newCodepointsToClasses st1) with (newCodepointsToClasses st)
        by (rewrite <-(allocOrReuse_classes j g0 cp st); by rewrite Ha).
      case_decide; [by eexists|done].
    + rewrite Ha. cbn [fst snd]. rewrite registerMapping_lookup. by rewrite decide_True.
Qed.

Lemma hasGlyph_true (ff : FontFace) (cp : Z) :
  hasGlyph ff cp = true
  ↔ ∃ g0, font ff ≫= (fun f => head (Font_find f [cp])) = Some g0.
Proof.
  unfold hasGlyph. destruct (font ff) as [f|]; simpl.
  - rewrite bool_decide_eq_true. destruct (Font_find f [cp]) as [|g0 rest]; simpl.
    + split; [done|]. by intros [? ?].
    + split; [by eexists|done].
  - split; [done|]. by intros [? ?].
Qed.

Lemma expandDescriptor_props (icon : Icon) (cp : Z) (st : MinifyState) (ff : FontFaceRef) :
  Inv ffs base st → ffs !! ff.1 = Some ff.2 →
  Inv ffs base (expandDescriptor icon cp st ff)
  ∧ (∀ j' cp', is_Some (codepointOf (expandDescriptor icon cp st ff) j' cp')
               ↔ is_Some (codepointOf st j' cp')
                 ∨ ((j', cp') = (ff.1, cp) ∧ hasGlyph ff.2 cp = true))
  ∧ (clss ff.2 ≠ [] → Registered st → Registered (expandDescriptor icon cp st ff)).
Proof.
  intros HI Hj. destruct ff as [j ff]. simpl in *.
  assert (is_Some (oldCodepointsToNew st !! j)) as Hm
    by (apply (inv_dom _ _ _ HI); by eapply lookup_lt_Some).
  unfold expandDescriptor. simpl.
  destruct (font ff ≫= (fun f => head (Font_find f [cp]))) as [g0|] eqn:Hg.
  - assert (hasGlyph ff cp = true) as Hhas by (apply hasGlyph_true; eauto).
    destruct (font ff) as [f|] eqn:Hf; [|done]. simpl in Hg.
    destruct (Font_find f [cp]) as [|g0' rest] eqn:Hfind; [done|].
    simpl in Hg. injection Hg as ->.
    pose proof (allocOrReuse_Inv j ff f g0 rest cp st HI Hj Hf Hfind) as HI1.
    pose proof (allocOrReuse_codepointOf j g0 cp st Hm) as Hn.
    destruct (allocOrReuse j g0 cp st) as [n st1] eqn:Ha. simpl in *.
    split_and!.
    + apply registerFold_Inv; eauto.
    + intros j' cp'. rewrite registerFold_codepointOf.
      destruct (decide ((j', cp') = (j, cp))) as [[= -> ->]|Hne].
      * rewrite Hn. split; [by right|by eexists].
      * replace st1 with (allocOrReuse j g0 cp st).2 by (by rewrite Ha).
        rewrite allocOrReuse_other by done. split; [by left|]. by intros [?|[? _]].
    + intros Hcl HR. eapply (allocOrReuse_Registered j g0 cp st); [done|done| | |].
      * intros j' cp'. rewrite Ha. cbn [fst snd]. apply registerFold_codepointOf.
      * intros n'. rewrite registerFold_lookup.
        replace (newCodepointsToClasses st1) with (newCodepointsToClasses st)
          by (rewrite <-(allocOrReuse_classes j g0 cp st); by rewrite Ha).
        case_decide; [by eexists|done].
      * rewrite Ha. cbn [fst snd]. rewrite registerFold_lookup. by rewrite decide_True.
  - split_and!; [done| |done].
    intros j' cp'. split; [by left|]. intros [?|[_ Hhas]]; [done|].
    apply hasGlyph_true in Hhas as [g0 Hg0]. congruence.
Qed.

(** The code's steps against the specification-worded ones. *)
Lemma useFont_Ok (icon : Icon) (cp : Z) (st st' : MinifyState) (j : nat) (ff : FontFace) :
  Inv ffs base st → ffs !! j = Some ff →
  useFont icon cp st (j, ff) = Ok st' →
  ∃ f g0 rest, font ff = Some f ∧ Font_find f [cp] = g0 :: rest
               ∧ st' = resolveFrom icon cp st j g0.
Proof.
  intros HI Hj. unfold useFont.
  destruct (font ff) as [f|] eqn:Hf; [|by unfold addGlyph; simpl; rewrite Hf].
  destruct (Font_find f [cp]) as [|g0 rest] eqn:Hfind.
  - by rewrite (addGlyph_lacks j ff f cp st Hf Hfind).
  - rewrite (addGlyph_allocOrReuse j ff f g0 rest cp st HI Hj Hf Hfind).
    cbn -[JS.falsy allocOrReuse registerMapping].
    rewrite falsy_Some.
    + intros [= <-]. exists f, g0, rest. split_and!; [done..|].
      unfold resolveFrom. by destruct (allocOrReuse j g0 cp st).
    + eapply (Inv_allocated_pos _ j cp).
      * by eapply allocOrReuse_Inv.
      * apply allocOrReuse_codepointOf, (inv_dom _ _ _ HI). by eapply lookup_lt_Some.
Qed.

Lemma expandInto_loaded (icon : Icon) (cp : Z) (st : MinifyState) (ff : FontFaceRef) :
  Inv ffs base st → ffs !! ff.1 = Some ff.2 → is_Some (font ff.2) →
  expandInto icon cp st ff = Ok (expandDescriptor icon cp st ff).
Proof.
  intros HI Hj [f Hf]. destruct ff as [j ff]. simpl in *.
  unfold expandInto, expandDescriptor. simpl. rewrite Hf. simpl.
  destruct (Font_find f [cp]) as [|g0 rest] eqn:Hfind.
  - by rewrite (addGlyph_lacks j ff f cp st Hf Hfind).
  - rewrite (addGlyph_allocOrReuse j ff f g0 rest cp st HI Hj Hf Hfind).
    cbn -[JS.falsy allocOrReuse registerMapping].
    rewrite falsy_Some.
    + by destruct (allocOrReuse j g0 cp st).
    + eapply (Inv_allocated_pos _ j cp).
      * by eapply allocOrReuse_Inv.
      * apply allocOrReuse_codepointOf, (inv_dom _ _ _ HI). by eapply lookup_lt_Some.
Qed.

Lemma expandInto_Ok (icon : Icon) (cp : Z) (st st' : MinifyState) (ff : FontFaceRef) :
  Inv ffs base st → ffs !! ff.1 = Some ff.2 →
  expandInto icon cp st ff = Ok st' →
  st' = expandDescriptor icon cp st ff.
Proof.
  intros HI Hj. destruct (font ff.2) as [f|] eqn:Hf.
  - rewrite expandInto_loaded by (by rewrite ?Hf). by intros [= <-].
  - unfold expandInto, addGlyph. by rewrite Hf.
Qed.

Lemma expandDescriptor_mono (icon : Icon) (cp : Z) (st : MinifyState) (ff : FontFaceRef) :
  Inv ffs base st → ffs !! ff.1 = Some ff.2 →
  (∀ j' cp' n, codepointOf st j' cp' = Some n →
               codepointOf (expandDescriptor icon cp st ff) j' cp' = Some n)
  ∧ (∀ n sels, newCodepointsToClasses st !! n = Some sels →
               ∃ more, newCodepointsToClasses (expandDescriptor icon cp st ff) !! n
                       = Some (sels ++ more)).
Proof.
  intros HI Hj. destruct ff as [j ff]. simpl in *.
  assert (is_Some (oldCodepointsToNew st !! j)) as Hm
    by (apply (inv_dom _ _ _ HI); by eapply lookup_lt_Some).
  unfold expandDescriptor. cbn [fst snd].
  destruct (font ff ≫= (fun f => head (Font_find f [cp]))) as [g0|].
  - pose proof (allocOrReuse_keeps j g0 cp st) as Hkeep.
    pose proof (allocOrReuse_classes j g0 cp st) as Hcl.
    destruct (allocOrReuse j g0 cp st) as [n0 st1]. cbn [fst snd] in *. split.
    + intros j' cp' n Hn. rewrite registerFold_codepointOf. by apply Hkeep.
    + intros n sels Hn. rewrite registerFold_lookup, Hcl. case_decide as Hd.
      * destruct Hd as [-> _]. rewrite Hn. simpl. eauto.
      * exists []. by rewrite app_nil_r.
  - split; [done|]. intros n sels Hn. exists []. by rewrite app_nil_r.
Qed.

Lemma expandDescriptor_registers (icon : Icon) (cp : Z) (st : MinifyState)
    (j : nat) (ff : FontFace) :
  Inv ffs base st → ffs !! j = Some ff → hasGlyph ff cp = true →
  ∃ n, codepointOf (expandDescriptor icon cp st (j, ff)) j cp = Some n
       ∧ ∀ cls, cls ∈ clss ff →
           ∃ sels, newCodepointsToClasses (expandDescriptor icon cp st (j, ff)) !! n = Some sels
                   ∧ toIconSelector (derivedIcon icon cls) ∈ sels.
Proof.
  intros HI Hj [g0 Hg]%hasGlyph_true.
  assert (is_Some (oldCodepointsToNew st !! j)) as Hm
    by (apply (inv_dom _ _ _ HI); by eapply lookup_lt_Some).
  unfold expandDescriptor. cbn [fst snd]. rewrite Hg.
  pose proof (allocOrReuse_codepointOf j g0 cp st Hm) as Hn.
  destruct (allocOrReuse j g0 cp st) as [n st1]. cbn [fst snd] in *.
  exists n. split; [by rewrite registerFold_codepointOf|].
  intros cls Hcls. rewrite registerFold_lookup.
  rewrite decide_True by (split; [done|]; intros Hnil; rewrite Hnil in Hcls;
                          by apply elem_of_nil in Hcls).
  eexists. split; [done|]. apply elem_of_app. right.
  apply list_elem_of_fmap. by exists cls.
Qed.

Lemma expansionSpec_mono (icon : Icon) (cp : Z) (l : list FontFaceRef) (st : MinifyState) :
  (∀ r, r ∈ l → ffs !! r.1 = Some r.2) →
  Inv ffs base st →
  (∀ j' cp' n, codepointOf st j' cp' = Some n →
               codepointOf (expansionSpec icon cp st l) j' cp' = Some n)
  ∧ (∀ n sels, newCodepointsToClasses st !! n = Some sels →
               ∃ more, newCodepointsToClasses (expansionSpec icon cp st l) !! n
                       = Some (sels ++ more)).
Proof.
  revert st. induction l as [|r l IH]; intros st Hl HI.
  - split; [done|]. intros n sels Hn. exists []. by rewrite app_nil_r.
  - unfold expansionSpec. cbn [foldl]. fold (expansionSpec icon cp (expandDescriptor icon cp st r) l).
    destruct (expandDescriptor_mono icon cp st r HI) as [Hc1 Hs1]; [apply Hl; by left|].
    destruct (IH (expandDescriptor icon cp st r)) as [Hc2 Hs2].
    { intros r' Hr'. apply Hl. by right. }
    { apply expandDescriptor_props; [done|]. apply Hl. by left. }
    split.
    + intros j' cp' n Hn. by apply Hc2, Hc1.
    + intros n sels Hn. destruct (Hs1 _ _ Hn) as [more1 H1].
      destruct (Hs2 _ _ H1) as [more2 H2]. exists (more1 ++ more2).
      by rewrite app_assoc.
Qed.

Lemma expansionSpec_registers (icon : Icon) (cp : Z) (l : list FontFaceRef)
    (st : MinifyState) (j : nat) (ff : FontFace) :
  (∀ r, r ∈ l → ffs !! r.1 = Some r.2) →
  Inv ffs base st →
  (j, ff) ∈ l → hasGlyph ff cp = true →
  ∃ n, codepointOf (expansionSpec icon cp st l) j cp = Some n
       ∧ ∀ cls, cls ∈ clss ff →
           ∃ sels, newCodepointsToClasses (expansionSpec icon cp st l) !! n = Some sels
                   ∧ toIconSelector (derivedIcon icon cls) ∈ sels.
Proof.
  revert st. induction l as [|r l IH]; intros st Hl HI Hin Hhas;
    [by apply elem_of_nil in Hin|].
  unfold expansionSpec. cbn [foldl]. fold (expansionSpec icon cp (expandDescriptor icon cp st r) l).
  assert (Inv ffs base (expandDescriptor icon cp st r)) as HI1
    by (apply expandDescriptor_props; [done|]; apply Hl; by left).
  assert (∀ r', r' ∈ l → ffs !! r'.1 = Some r'.2) as Hl'
    by (intros r' Hr'; apply Hl; by right).
  apply elem_of_cons in Hin as [<-|Hin].
  - destruct (expandDescriptor_registers icon cp st j ff HI) as (n & Hn & Hsel);
      [by apply (Hl (j, ff)); left|done|].
    destruct (expansionSpec_mono icon cp l _ Hl' HI1) as [Hc Hs].
    exists n. split; [by apply Hc|].
    intros cls Hcls. destruct (Hsel cls Hcls) as (sels & Hsels & Hmem).
    destruct (Hs _ _ Hsels) as [more Hmore]. exists (sels ++ more).
    split; [done|]. apply elem_of_app. by left.
  - by apply IH.
Qed.

Variable iconToCodepoint : gmap string Z.

Lemma lookupCodepoint_Ok (icon : Icon) (cp : Z) :
  lookupCodepoint iconToCodepoint icon = Ok cp ↔
  iconToCodepoint !! name icon = Some cp ∧ cp ≠ 0.
Proof.
  unfold lookupCodepoint. destruct (iconToCodepoint !! name icon) as [cp'|].
  - unfold JS.falsy. case_bool_decide as Hz.
    + split; [done|]. intros [[= ->] ?]. done.
    + split; [by intros [= <-]|]. by intros [[= ->] _].
  - split; [done|]. by intros [? _].
Qed.

Lemma ReqInv_snoc (processed : list Icon) (icon : Icon) (st st' : MinifyState) :
  ReqInv ffs iconToCodepoint processed st →
  (∀ j cp, is_Some (codepointOf st' j cp)
           ↔ is_Some (codepointOf st j cp) ∨ (j, cp) ∈ requestsOf ffs iconToCodepoint icon) →
  ReqInv ffs iconToCodepoint (processed ++ [icon]) st'.
Proof.
  intros HR Hst j cp. rewrite Hst, (HR j cp), !list_elem_of_bind. split.
  - intros [(y & Hy & Hin)|Hreq].
    + exists y. split; [done|]. apply elem_of_app. by left.
    + exists icon. split; [done|]. apply elem_of_app. right. by left.
  - intros (y & Hy & [Hin|Heq%list_elem_of_singleton]%elem_of_app);
      [left|subst; by right].
    by exists y.
Qed.

(** The expansion loop over the descriptors. *)
Lemma expansion_fold (icon : Icon) (cp : Z) (l : list FontFaceRef) (st st' : MinifyState) :
  (∀ r, r ∈ l → ffs !! r.1 = Some r.2) →
  Inv ffs base st →
  foldM (expandInto icon cp) st l = Ok st' →
  st' = expansionSpec icon cp st l
  ∧ Inv ffs base st'
  ∧ (∀ j' cp', is_Some (codepointOf st' j' cp')
               ↔ is_Some (codepointOf st j' cp')
                 ∨ (cp' = cp ∧ ∃ ff, (j', ff) ∈ l ∧ hasGlyph ff cp = true))
  ∧ ((∀ r, r ∈ l → clss r.2 ≠ []) → Registered st → Registered st').
Proof.
  revert st. induction l as [|r l IH]; intros st Hl HI.
  - intros [= <-]. split_and!; [done..| |done].
    intros j' cp'. split; [by left|]. intros [?|(_ & ff & []%elem_of_nil & _)]. done.
  - cbn [foldM]. destruct (expandInto icon cp st r) as [st1|e] eqn:Hstep; [|done].
    cbn -[expandInto]. intros Hfold.
    apply expandInto_Ok in Hstep; [|done|apply Hl; by left]. subst st1.
    destruct (expandDescriptor_props icon cp st r HI) as (HI1 & Hcp1 & HR1);
      [apply Hl; by left|].
    destruct (IH _ (fun r' Hr' => Hl r' (list_elem_of_further _ _ _ Hr')) HI1 Hfold)
      as (-> & HI' & Hcp' & HR').
    split_and!; [done|done| |].
    + intros j' cp'. rewrite Hcp', Hcp1. split.
      * intros [[?|[[= -> ->] Hhas]]|(-> & ff & Hin & Hhas)]; [by left|right..].
        -- split; [done|]. exists r.2. split; [|done]. destruct r; by left.
        -- split; [done|]. exists ff. split; [by right|done].
      * intros [?|(-> & ff & [<-|Hin]%elem_of_cons & Hhas)]; [by left; left| |].
        -- left. right. done.
        -- right. split; [done|]. by exists ff.
    + intros Hcl HR. apply HR'.
      * intros r' Hr'. apply Hcl. by right.
      * apply HR1; [apply Hcl; by left|done].
Qed.

Lemma expansion_fold_loaded (icon : Icon) (cp : Z) (l : list FontFaceRef) (st : MinifyState) :
  (∀ r, r ∈ l → ffs !! r.1 = Some r.2 ∧ is_Some (font r.2)) →
  Inv ffs base st →
  foldM (expandInto icon cp) st l = Ok (expansionSpec icon cp st l).
Proof.
  revert st. induction l as [|r l IH]; intros st Hl HI; [done|].
  destruct (Hl r) as [Hr Hf]; [by left|].
  cbn [foldM]. rewrite expandInto_loaded by done. cbn -[expandDescriptor].
  rewrite IH; [done| |by apply expandDescriptor_props].
  intros r' Hr'. apply Hl. by right.
Qed.

Lemma requestsOf_direct (icon : Icon) (cp : Z) (r : FontFaceRef) :
  iconToCodepoint !! name icon = Some cp →
  isMultiVariant ffs = true →
  filter (fun ff : FontFaceRef => hasIntersection ff.2 icon) (refs ffs) !! 0%nat = Some r →
  requestsOf ffs iconToCodepoint icon = [(r.1, cp)].
Proof. intros Hcp Hm Hr. unfold requestsOf. by rewrite Hcp, Hm, Hr. Qed.

Lemma requestsOf_expand (icon : Icon) (cp : Z) (j' : nat) (cp' : Z) :
  iconToCodepoint !! name icon = Some cp →
  isMultiVariant ffs = true →
  filter (fun ff : FontFaceRef => hasIntersection ff.2 icon) (refs ffs) !! 0%nat = None →
  (j', cp') ∈ requestsOf ffs iconToCodepoint icon
  ↔ cp' = cp ∧ ∃ ff, (j', ff) ∈ refs ffs ∧ hasGlyph ff cp = true.
Proof.
  intros Hcp Hm Hr. unfold requestsOf. rewrite Hcp, Hm, Hr.
  rewrite list_elem_of_fmap. split.
  - intros ([j ff] & [= -> ->] & [Hhas Hin]%list_elem_of_filter). eauto.
  - intros (-> & ff & Hin & Hhas). exists (j', ff). split; [done|].
    by apply list_elem_of_filter.
Qed.

Lemma requestsOf_single (icon : Icon) (cp : Z) :
  iconToCodepoint !! name icon = Some cp →
  isMultiVariant ffs = false →
  requestsOf ffs iconToCodepoint icon = [(0%nat, cp)].
Proof. intros Hcp Hm. unfold requestsOf. by rewrite Hcp, Hm. Qed.

Lemma useFont_step (processed : list Icon) (icon : Icon) (cp : Z) (st st' : MinifyState)
    (j : nat) (ff : FontFace) :
  Inv ffs base st → ReqInv ffs iconToCodepoint processed st →
  ffs !! j = Some ff →
  requestsOf ffs iconToCodepoint icon = [(j, cp)] →
  useFont icon cp st (j, ff) = Ok st' →
  Inv ffs base st'
  ∧ ReqInv ffs iconToCodepoint (processed ++ [icon]) st'
  ∧ (Registered st → Registered st').
Proof.
  intros HI HR Hj Hreq Hstep.
  apply useFont_Ok in Hstep as (f & g0 & rest & Hf & Hfind & ->); [|done..].
  destruct (resolveFrom_props icon cp st j ff f g0 rest HI Hj Hf Hfind) as (HI' & Hcp' & HR').
  split_and!; [done| |done].
  apply (ReqInv_snoc _ _ st); [done|]. intros j' cp'. rewrite Hcp', Hreq.
  by rewrite list_elem_of_singleton.
Qed.

Lemma minifyIconMulti_step (processed : list Icon) (icon : Icon) (st st' : MinifyState) :
  isMultiVariant ffs = true →
  Inv ffs base st → ReqInv ffs iconToCodepoint processed st →
  minifyIconMulti ffs iconToCodepoint st icon = Ok st' →
  Inv ffs base st'
  ∧ ReqInv ffs iconToCodepoint (processed ++ [icon]) st'
  ∧ (Forall (fun ff => clss ff ≠ []) ffs → Registered st → Registered st').
Proof.
  intros Hm HI HR. unfold minifyIconMulti.
  destruct (lookupCodepoint iconToCodepoint icon) as [cp|e] eqn:Hcp; [|done].
  apply lookupCodepoint_Ok in Hcp as [Hcp Hnz]. cbn -[useFont expandInto].
  destruct (filter _ (refs ffs) !! 0%nat) as [[j ff]|] eqn:Hfilter.
  - intros Hstep. pose proof (filter_head_Some _ _ _ Hfilter) as [Hin%refs_lookup _].
    destruct (useFont_step processed icon cp st st' j ff) as (? & ? & ?); [done..| |done|].
    + by rewrite (requestsOf_direct icon cp (j, ff)).
    + split_and!; auto.
  - intros Hfold.
    destruct (expansion_fold icon cp (refs ffs) st st') as (_ & HI' & Hcp' & HR');
      [|done|done|].
    { intros [j ff]. by rewrite refs_lookup. }
    split_and!; [done| |].
    + apply (ReqInv_snoc _ _ st); [done|]. intros j' cp'.
      by rewrite Hcp', requestsOf_expand.
    + intros Hcl. apply HR'. intros [j ff] Hin%refs_lookup. simpl.
      eapply Forall_forall in Hcl; [done|]. by eapply list_elem_of_lookup_2.
Qed.

Lemma minifyIconSingle_step (ff : FontFace) (processed : list Icon) (icon : Icon)
    (st st' : MinifyState) :
  isMultiVariant ffs = false → ffs !! 0%nat = Some ff →
  Inv ffs base st → ReqInv ffs iconToCodepoint processed st →
  minifyIconSingle (0%nat, ff) iconToCodepoint st icon = Ok st' →
  Inv ffs base st'
  ∧ ReqInv ffs iconToCodepoint (processed ++ [icon]) st'
  ∧ (Registered st → Registered st').
Proof.
  intros Hm Hff HI HR. unfold minifyIconSingle.
  destruct (lookupCodepoint iconToCodepoint icon) as [cp|e] eqn:Hcp; [|done].
  apply lookupCodepoint_Ok in Hcp as [Hcp Hnz]. cbn -[useFont].
  apply useFont_step; [done..|]. by apply requestsOf_single.
Qed.

Lemma foldM_steps (C : Prop) (step : MinifyState → Icon → Res MinifyState) :
  (∀ processed icon st st',
      Inv ffs base st → ReqInv ffs iconToCodepoint processed st →
      step st icon = Ok st' →
      Inv ffs base st'
      ∧ ReqInv ffs iconToCodepoint (processed ++ [icon]) st'
      ∧ (C → Registered st → Registered st')) →
  ∀ icons processed st st',
    Inv ffs base st → ReqInv ffs iconToCodepoint processed st →
    foldM step st icons = Ok st' →
    Inv ffs base st'
    ∧ ReqInv ffs iconToCodepoint (processed ++ icons) st'
    ∧ (C → Registered st → Registered st').
Proof.
  intros Hstep icons. induction icons as [|icon icons IH]; intros processed st st' HI HR.
  - intros [= <-]. by rewrite app_nil_r.
  - cbn [foldM]. destruct (step st icon) as [st1|e] eqn:H1; [|done].
    cbn. intros Hfold.
    destruct (Hstep _ _ _ _ HI HR H1) as (HI1 & HR1 & HReg1).
    destruct (IH _ _ _ HI1 HR1 Hfold) as (HI' & HR' & HReg').
    rewrite <-app_assoc in HR'. split_and!; auto.
Qed.

Lemma ReqInv_init : ReqInv ffs iconToCodepoint [] (initState ffs base).
Proof.
  intros j cp. split.
  - intros [n Hn]. revert Hn. unfold codepointOf. simpl. rewrite initState_lookup.
    destruct (decide _); simpl; by rewrite ?lookup_empty.
  - by intros []%elem_of_nil.
Qed.

(** What holds of the shared variables at the end of the loops. *)
Lemma minify_run_props (icons : list Icon) (st : MinifyState) :
  minify_run ffs icons iconToCodepoint base = Ok st →
  Inv ffs base st
  ∧ ReqInv ffs iconToCodepoint icons st
  ∧ ((isMultiVariant ffs = true → Forall (fun ff => clss ff ≠ []) ffs) → Registered st).
Proof.
  unfold minify_run. case_bool_decide as Hlen; [done|].
  destruct (isMultiVariant ffs) eqn:Hm.
  - intros Hfold.
    destruct (foldM_steps (Forall (fun ff => clss ff ≠ []) ffs)
                (minifyIconMulti ffs iconToCodepoint)
                (fun p i s s' => minifyIconMulti_step p i s s' Hm)
                icons [] _ _ Inv_init ReqInv_init Hfold) as (HI & HR & HReg).
    split_and!; [done|done|]. intros Hcl. apply HReg; [by apply Hcl|apply Registered_init].
  - destruct (refs ffs !! 0%nat) as [[j ff]|] eqn:Hr; [|done].
    apply refs_lookup_index in Hr as [Hj Hff]. simpl in Hj, Hff. subst j.
    intros Hfold.
    destruct (foldM_steps True
                (minifyIconSingle (0%nat, ff) iconToCodepoint)
                (fun p i s s' HI HR Hs =>
                   match minifyIconSingle_step ff p i s s' Hm Hff HI HR Hs with
                   | conj a (conj b c) => conj a (conj b (fun _ => c))
                   end)
                icons [] _ _ Inv_init ReqInv_init Hfold) as (HI & HR & HReg).
    split_and!; [done|done|]. intros _. apply HReg; [done|apply Registered_init].
Qed.

Lemma Inv_unicode_seq (st : MinifyState) :
  Inv ffs base st →
  unicode <$> glyfs st
  = (fun i : nat => [base + Z.of_nat i]) <$> seq 0 (length (glyfs st)).
Proof.
  intros HI. apply list_eq. intros i. rewrite !list_lookup_fmap.
  destruct (glyfs st !! i) as [g|] eqn:Hg; simpl.
  - rewrite (inv_unicode _ _ _ HI _ _ Hg).
    rewrite lookup_seq_lt by (by eapply lookup_lt_Some). done.
  - rewrite lookup_seq_ge by (by apply lookup_ge_None). done.
Qed.

Lemma Inv_unicode_NoDup (st : MinifyState) :
  Inv ffs base st → NoDup (unicode <$> glyfs st).
Proof.
  intros HI. rewrite Inv_unicode_seq by done.
  apply NoDup_fmap_2; [|apply NoDup_seq].
  intros i1 i2 [= Heq]. lia.
Qed.

Lemma Inv_glyph_of_codepoint (st : MinifyState) (j : nat) (cp n : Z) :
  Inv ffs base st → codepointOf st j cp = Some n →
  ∃ ff f g0 rest,
    ffs !! j = Some ff ∧ font ff = Some f ∧ Font_find f [cp] = g0 :: rest
    ∧ glyfs st !! Z.to_nat (n - base) = Some (set_unicode g0 [n]).
Proof.
  intros HI Hn.
  destruct (inv_alloc _ _ _ HI _ _ _ Hn) as (ff & f & g0 & rest & i & ? & ? & ? & -> & Hi).
  exists ff, f, g0, rest. split_and!; [done..|].
  by replace (Z.to_nat (base + Z.of_nat i - base)) with i by lia.
Qed.

Lemma Inv_codepoint_of_index (st : MinifyState) (n : Z) :
  Inv ffs base st → base ≤ n < newCodepoint_value st →
  ∃ j cp, codepointOf st j cp = Some n.
Proof.
  intros HI Hn. rewrite (inv_counter _ _ _ HI) in Hn.
  destruct (inv_surj _ _ _ HI (Z.to_nat (n - base))) as (j & cp & Hcp); [lia|].
  exists j, cp. rewrite Hcp. f_equal. lia.
Qed.

End Engine.

(** ** Properties of FontManager.minify *)

(** [FontManager] is not exported: [minify] is reached only through
    [IconMinifier.minify], which passes no base (so [defaultBase] is used) and
    adds a descriptor only when it has at least one associated class.  The
    theorems ask less: a positive base and, where selectors must exist for
    every packed glyph, classes on the descriptors of a multi-variant set. *)

(** C2.  After a successful [minify] from a positive base, with every
    descriptor of a multi-variant set having at least one associated class
    (as the descriptors added by [IconMinifier.minify] have): every key of the
    returned selector map is the sole codepoint of a glyph of the returned
    font, and every glyph of the returned font has a sole codepoint that is a
    key of the selector map with a non-empty selector list. *)
Theorem C2_selector_keys_and_packed_glyphs_correspond
    (ffs : list FontFace) (icons : list Icon) (iconToCodepoint : gmap string Z)
    (base : Z) (packed : Font) (selectors : gmap Z (list string)) :
  0 < base →
  (isMultiVariant ffs = true → Forall (fun ff => clss ff ≠ []) ffs) →
  minify ffs icons iconToCodepoint base = Ok (packed, selectors) →
  (∀ n, is_Some (selectors !! n) → ∃ g, g ∈ glyf packed ∧ unicode g = [n])
  ∧ (∀ g, g ∈ glyf packed →
       ∃ n sels, unicode g = [n] ∧ selectors !! n = Some sels ∧ sels ≠ []).
Proof.
  intros Hbase Hcl. unfold minify.
  destruct (minify_run ffs icons iconToCodepoint base) as [st|e] eqn:Hrun; [|done].
  cbn. destruct (ffs !! 0%nat) as [ff0|]; [|done].
  destruct (font ff0) as [template|]; [|done]. intros [= <- <-]. simpl.
  destruct (minify_run_props ffs base Hbase iconToCodepoint icons st Hrun) as (HI & _ & HReg).
  specialize (HReg Hcl). split.
  - intros n [sels Hn]. destruct (inv_keys _ _ _ HI _ _ Hn) as [_ (j & cp & Hcp)].
    destruct (Inv_glyph_of_codepoint ffs base st j cp n HI Hcp)
      as (ff & f & g0 & rest & _ & _ & _ & Hg).
    exists (set_unicode g0 [n]). split; [|done]. by eapply list_elem_of_lookup_2.
  - intros g [i Hi]%list_elem_of_lookup.
    pose proof (inv_unicode _ _ _ HI _ _ Hi) as Hu.
    destruct (inv_surj _ _ _ HI i) as (j & cp & Hcp); [by eapply lookup_lt_Some|].
    destruct (HReg _ _ _ Hcp) as [sels Hsels].
    exists (base + Z.of_nat i), sels. split_and!; [done|done|].
    by apply (inv_keys _ _ _ HI _ _ Hsels).
Qed.

Lemma requestedFrom_elem_of (ffs : list FontFace) (iconToCodepoint : gmap string Z)
    (icons : list Icon) (j : nat) (cp : Z) :
  cp ∈ requestedFrom ffs iconToCodepoint icons j
  ↔ (j, cp) ∈ icons ≫= requestsOf ffs iconToCodepoint.
Proof.
  unfold requestedFrom. rewrite list_elem_of_fmap. split.
  - intros ([j' cp'] & -> & [Hj Hin]%list_elem_of_filter). simpl in *. by subst.
  - intros Hin. exists (j, cp). split; [done|]. by apply list_elem_of_filter.
Qed.

Lemma filter_head_first {A} (P : A → Prop) `{!∀ x, Decision (P x)} (l : list A)
    (j : nat) (x : A) :
  l !! j = Some x → P x →
  (∀ k y, (k < j)%nat → l !! k = Some y → ¬ P y) →
  filter P l !! 0%nat = Some x.
Proof.
  revert j. induction l as [|y l IH]; intros j Hj HP Hfirst; [done|].
  rewrite filter_cons. destruct j as [|j].
  - injection Hj as ->. by rewrite decide_True.
  - rewrite decide_False by (apply (Hfirst 0%nat); [lia|done]).
    apply (IH j); [done|done|]. intros k z Hk Hz. apply (Hfirst (S k)); [lia|done].
Qed.

Lemma refs_lookup_Some (ffs : list FontFace) (j : nat) (ff : FontFace) :
  ffs !! j = Some ff → refs ffs !! j = Some (j, ff).
Proof. intros H. unfold refs. by rewrite list_lookup_imap, H. Qed.

Lemma useFont_cases (icon : Icon) (cp : Z) (st st' : MinifyState) (j : nat) (ff : FontFace) :
  useFont icon cp st (j, ff) = Ok st' →
  ∃ f g0 rest m n,
    font ff = Some f ∧ Font_find f [cp] = g0 :: rest
    ∧ oldCodepointsToNew st !! j = Some m ∧ n ≠ 0
    ∧ ((m !! cp = Some n ∧ st' = registerMapping n icon st)
       ∨ (JS.falsy (m !! cp) = true ∧ n = newCodepoint_value st
          ∧ st' = registerMapping n icon
                    (mkState (glyfs st ++ [set_unicode g0 [n]])
                             (<[j := <[cp := n]> m]> (oldCodepointsToNew st))
                             (newCodepointsToClasses st) (n + 1)))).
Proof.
  unfold useFont, addGlyph. cbn [fst snd].
  destruct (font ff) as [f|] eqn:Hf; [|done].
  destruct (Font_find f [cp]) as [|g0 rest] eqn:Hfind; [done|].
  destruct (oldCodepointsToNew st !! j) as [m|] eqn:Hm; [|done].
  destruct (JS.falsy (m !! cp)) eqn:Hfalsy.
  - cbn -[registerMapping]. unfold JS.falsy. case_bool_decide as Hz; [done|].
    intros [= <-]. exists f, g0, rest, m, (newCodepoint_value st).
    split_and!; [done..|]. right. done.
  - cbn -[registerMapping]. destruct (m !! cp) as [n|] eqn:Hn; [|done].
    rewrite Hfalsy. intros [= <-]. exists f, g0, rest, m, n.
    split_and!; [done..| |by left].
    unfold JS.falsy in Hfalsy. by case_bool_decide.
Qed.

(** C6.  In a multi-variant pass from a positive base with all descriptors
    loaded, at any state reached by the loop, for an icon with a legacy
    codepoint whose modifiers meet no descriptor's classes: the step does not
    throw and yields the state of the expansion as specified: in declaration
    order, each descriptor with a glyph at the codepoint gets a codepoint for
    the pair (reused when recorded, else the next counter value with the clone
    packed) and, for each of its classes, the selector of the icon with that
    class added to its modifiers; each descriptor without the glyph leaves the
    state as it is.  In the resulting state every descriptor holding the glyph
    has a codepoint for the pair (the one it had, if any) whose selector list
    contains the derived selector of each of its classes; a descriptor without
    the glyph has no codepoint for the pair, and its turn in the loop returns
    the state unchanged without an error. *)
Theorem C6_expansion_over_descriptors_with_the_glyph
    (ffs : list FontFace) (iconToCodepoint : gmap string Z) (base : Z)
    (processed : list Icon) (st : MinifyState) (icon : Icon) (cp : Z) :
  0 < base →
  isMultiVariant ffs = true →
  Forall (fun ff => is_Some (font ff)) ffs →
  foldM (minifyIconMulti ffs iconToCodepoint) (initState ffs base) processed = Ok st →
  iconToCodepoint !! name icon = Some cp → cp ≠ 0 →
  Forall (fun ff => hasIntersection ff icon = false) ffs →
  let st' := expansionSpec icon cp st (refs ffs) in
  minifyIconMulti ffs iconToCodepoint st icon = Ok st'
  ∧ (∀ j ff, ffs !! j = Some ff → hasGlyph ff cp = true →
       ∃ n, codepointOf st' j cp = Some n
            ∧ (∀ n0, codepointOf st j cp = Some n0 → n = n0)
            ∧ ∀ cls, cls ∈ clss ff →
                ∃ sels, newCodepointsToClasses st' !! n = Some sels
                        ∧ toIconSelector (mkIcon (name icon) (modifiers icon ++ [cls])) ∈ sels)
  ∧ (∀ j ff, ffs !! j = Some ff → hasGlyph ff cp = false →
       codepointOf st' j cp = None
       ∧ ∀ s, expandInto icon cp s (j, ff) = Ok s).
Proof.
  intros Hbase Hm Hloaded Hreach Hcp Hnz Hnone st'.
  destruct (foldM_steps ffs base iconToCodepoint
              (Forall (fun ff => clss ff ≠ []) ffs)
              (minifyIconMulti ffs iconToCodepoint)
              (fun p i s s' => minifyIconMulti_step ffs base Hbase iconToCodepoint p i s s' Hm)
              processed [] _ _ (Inv_init ffs base) (ReqInv_init ffs base iconToCodepoint) Hreach)
    as (HI & _ & _).
  assert (∀ r : nat * FontFace, r ∈ refs ffs → ffs !! r.1 = Some r.2) as Hrefs
    by (intros [j ff]; by rewrite refs_lookup).
  assert (foldM (expandInto icon cp) st (refs ffs) = Ok st') as Hfold.
  { apply (expansion_fold_loaded ffs base Hbase); [|done].
    intros [j ff] Hin%refs_lookup. simpl. split; [done|].
    eapply Forall_forall in Hloaded; [done|]. by eapply list_elem_of_lookup_2. }
  split_and!.
  - unfold minifyIconMulti.
    rewrite (proj2 (lookupCodepoint_Ok iconToCodepoint icon cp)) by done.
    cbn -[useFont expandInto].
    destruct (filter _ (refs ffs) !! 0%nat) as [[j ff]|] eqn:Hfilter; [|done].
    apply filter_head_Some in Hfilter as [Hin%refs_lookup Hint]. simpl in Hint.
    eapply Forall_forall in Hnone; [|by eapply list_elem_of_lookup_2].
    by rewrite Hnone in Hint.
  - intros j ff Hj Hhas.
    destruct (expansionSpec_registers ffs base Hbase icon cp (refs ffs) st j ff Hrefs HI)
      as (n & Hn & Hsel); [by apply refs_lookup|done|].
    exists n. split_and!; [done| |done].
    intros n0 Hn0.
    destruct (expansionSpec_mono ffs base Hbase icon cp (refs ffs) st Hrefs HI) as [Hkeep _].
    apply Hkeep in Hn0. rewrite Hn in Hn0. by injection Hn0.
  - intros j ff Hj Hhas. split.
    + destruct (expansion_fold ffs base Hbase icon cp (refs ffs) st st' Hrefs HI Hfold)
        as (_ & _ & Hiff & _).
      apply eq_None_not_Some. rewrite Hiff. intros [[n Hn]|(_ & ff' & Hin%refs_lookup & Hhas')].
      * destruct (inv_alloc _ _ _ HI _ _ _ Hn) as (ff' & f & g0 & rest & i & Hj' & Hf & Hfind & _).
        assert (ff' = ff) as -> by congruence.
        unfold hasGlyph in Hhas. rewrite Hf, Hfind in Hhas.
        apply bool_decide_eq_false in Hhas. by apply Hhas.
      * assert (ff' = ff) as -> by congruence. congruence.
    + intros s. unfold expandInto, addGlyph, hasGlyph in *. cbn [fst snd].
      eapply Forall_forall in Hloaded; [|by eapply list_elem_of_lookup_2].
      destruct Hloaded as [f Hf]. rewrite Hf in *.
      apply bool_decide_eq_false in Hhas.
      destruct (Font_find f [cp]) as [|g0 rest]; [done|]. exfalso. by apply Hhas.
Qed.

(** ** Selectors *)

Lemma toIconSelector_with_modifiers (icon : Icon) :
  modifiers icon ≠ [] → toIconSelector icon = dotJoined icon.
Proof.
  unfold toIconSelector, dotJoined, JS.join. destruct icon as [n [|m ms]]; [done|]. done.
Qed.

(** C9.  The selector that the engine registers for an icon without
    modifiers is the dot-joined selector followed by one more dot, hence not
    the dot-joined selector: for [fa-home] it is [.fa-home.], not [.fa-home],
    as in the pass over the single descriptor [solid] with that one icon. *)
Theorem C9_selector_of_an_icon_without_modifiers (n : string) :
  toIconSelector (mkIcon n []) = dotJoined (mkIcon n []) +:+ "."
  ∧ toIconSelector (mkIcon n []) ≠ dotJoined (mkIcon n [])
  ∧ toIconSelector (mkIcon "fa-home" []) = ".fa-home."
  ∧ dotJoined (mkIcon "fa-home" []) = ".fa-home"
  ∧ (st ← minify_run [solid] [mkIcon "fa-home" []] sampleTable defaultBase;
     Ok (newCodepointsToClasses st !! defaultBase)) = Ok (Some [".fa-home."]).
Proof.
  assert (toIconSelector (mkIcon n []) = dotJoined (mkIcon n []) +:+ ".") as Heq.
  { unfold toIconSelector, dotJoined, JS.join. simpl.
    by rewrite ?str_app_cons, ?str_app_nil_l, ?str_app_nil_r. }
  split_and!; [done| |by vm_compute..].
  rewrite Heq. intros Habs.
  apply (f_equal String.length) in Habs. rewrite str_length_app in Habs. simpl in Habs. lia.
Qed.

(** ** Why the base is taken positive *)

(** [addGlyph] and its callers test a codepoint with [!newcp], which also
    holds for the number 0.  From base 0 the first codepoint handed out is
    taken for a missing one: below, the expansion of [fa-star] packs the
    [brands] glyph at 0 without registering it, and the next icon packs the
    same glyph again at 2. *)
Example base_zero_packs_a_glyph_twice :
  (st ← minify_run [brands; solid] [mkIcon "fa-star" []; mkIcon "fa-star" ["fa-spin"]]
         sampleTable 0;
   Ok (unicode <$> glyfs st, glyph_name <$> glyfs st, codepointOf st 0 0xf005))
  = Ok ([[0]; [1]; [2]], ["star"; "star"; "star"], Some 2).
Proof. by vm_compute. Qed.

(** ** The properties at concrete inputs *)

Lemma C8_prefix_witness :
  ∃ p, getPrefixFromIconClasses ["fa-home"; "fa-user"; "fa-star"; "fa-google"; "fa-500px"] = Ok p
       ∧ common_prefix p ["fa-home"; "fa-user"; "fa-star"; "fa-google"].
Proof.
  destruct (C8_prefix_is_longest_common_prefix_of_quartile_samples
              ["fa-home"; "fa-user"; "fa-star"; "fa-google"; "fa-500px"])
    as (s0 & s1 & s2 & s3 & p & H0 & H1 & H2 & H3 & Hp & Hcommon & _).
  - discriminate.
  - exists p. split; [exact Hp|].
    injection H0 as <-. injection H1 as <-. injection H2 as <-. injection H3 as <-.
    exact Hcommon.
Defined.


Lemma C2_correspondence_witness :
  ∃ packed selectors,
    minify [brands; solid] sampleIcons sampleTable defaultBase = Ok (packed, selectors)
    ∧ (∀ n, is_Some (selectors !! n) → ∃ g, g ∈ glyf packed ∧ unicode g = [n])
    ∧ (∀ g, g ∈ glyf packed →
         ∃ n sels, unicode g = [n] ∧ selectors !! n = Some sels ∧ sels ≠ []).
Proof.
  do 2 eexists. split; [vm_compute; reflexivity|].
  apply (C2_selector_keys_and_packed_glyphs_correspond
           [brands; solid] sampleIcons sampleTable defaultBase).
  - reflexivity.
  - intros _. repeat constructor; discriminate.
  - vm_compute; reflexivity.
Defined.

Lemma C6_expansion_witness :
  ∃ st,
    foldM (minifyIconMulti [brands; solid] sampleTable)
      (initState [brands; solid] defaultBase) [mkIcon "fa-google" ["fab"]] = Ok st
    ∧ minifyIconMulti [brands; solid] sampleTable st (mkIcon "fa-star" [])
      = Ok (expansionSpec (mkIcon "fa-star" []) 0xf005 st (refs [brands; solid]))
    ∧ (st' ← minifyIconMulti [brands; solid] sampleTable st (mkIcon "fa-star" []);
       Ok (newCodepointsToClasses st' !! 0xE001, newCodepointsToClasses st' !! 0xE002))
      = Ok (Some [".fa-star.fab"; ".fa-star.fa-brands"], Some [".fa-star.fas"]).
Proof.
  eexists. split; [vm_compute; reflexivity|]. split; [|vm_compute; reflexivity].
  refine (proj1 (C6_expansion_over_descriptors_with_the_glyph
                   [brands; solid] sampleTable defaultBase [mkIcon "fa-google" ["fab"]]
                   _ (mkIcon "fa-star" []) 0xf005 _ _ _ _ _ _ _)).
  - reflexivity.
  - vm_compute; reflexivity.
  - repeat constructor; eexists; reflexivity.
  - vm_compute; reflexivity.
  - vm_compute; reflexivity.
  - discriminate.
  - repeat constructor; vm_compute; reflexivity.
Defined.

(* ===================================================================== *)
(** * Further properties of the crawler, the style-sheet reader, the engine
      and the first version of the tool *)
(* ===================================================================== *)

(** ** findPrefix on arbitrary word lists *)

Lemma findPrefix_defined (ws : list string) :
  ws ≠ [] →
  ∃ p, findPrefix (Some <$> ws) = Ok p
       ∧ common_prefix p ws
       ∧ (∀ q, common_prefix q ws → (String.length q ≤ String.length p)%nat).
Proof.
  destruct ws as [|w0 ws]; [done|]. intros _.
  unfold findPrefix. cbn [fmap list_fmap lookup list_lookup].
  destruct w0 as [|c0 w0].
  - exists "". split_and!; [done| |].
    + intros w _. by exists w.
    + intros q Hq. apply (common_prefix_length_le q "" ("" :: ws)); [done|by left].
  - case_bool_decide as Hlen.
    + destruct ws as [|w1 ws]; [|done].
      exists (String c0 w0). split_and!; [done| |].
      * intros w ->%list_elem_of_singleton. exists "". by rewrite str_app_nil_r.
      * intros q Hq. apply (common_prefix_length_le q _ [String c0 w0]); [done|by left].
    + destruct (findPrefix_loop_spec (String c0 w0) "" (String c0 w0 :: ws))
        as (p & Hp & Hcommon & Hmax & _).
      * rewrite str_app_nil_l. by left.
      * intros w _. by exists w.
      * exists p. split_and!; [exact Hp|done|done].
Qed.

Lemma str_prefix_full (p c r : string) :
  c = p +:+ r → (String.length c ≤ String.length p)%nat → p = c.
Proof.
  intros -> Hlen. rewrite str_length_app in Hlen.
  destruct r as [|x r]; [by rewrite str_app_nil_r|]. simpl in Hlen. lia.
Qed.

(** X1.  [findPrefix] on any non-empty list of words returns, without
    throwing, a common prefix of all the words that no common prefix exceeds
    in length; on a one-word list it returns the word itself. *)
Theorem X1_findPrefix_longest_common_prefix (ws : list string) :
  ws ≠ [] →
  ∃ p, findPrefix (Some <$> ws) = Ok p
       ∧ common_prefix p ws
       ∧ (∀ q, common_prefix q ws → (String.length q ≤ String.length p)%nat)
       ∧ (∀ w, ws = [w] → p = w).
Proof.
  intros Hne. destruct (findPrefix_defined ws Hne) as (p & Hp & Hc & Hmax).
  exists p. split_and!; [done..|].
  intros w ->. destruct (Hc w) as [r Hr]; [by left|].
  apply (str_prefix_full p w r Hr), Hmax.
  intros w' ->%list_elem_of_singleton. exists "". by rewrite str_app_nil_r.
Qed.

(** X1 at three words. *)
Lemma X1_findPrefix_witness :
  ∃ p, findPrefix (Some <$> ["fa-home"; "fa-house"; "fa-hospital"]) = Ok p
       ∧ common_prefix p ["fa-home"; "fa-house"; "fa-hospital"].
Proof.
  destruct (X1_findPrefix_longest_common_prefix ["fa-home"; "fa-house"; "fa-hospital"])
    as (p & Hp & Hc & _).
  - discriminate.
  - exists p. split; [exact Hp|exact Hc].
Defined.

(** X2.  [getPrefixFromIconClasses] never throws: for an empty key set the
    four samples are [undefined] and the prefix is the empty string, for a
    single key the prefix is the whole key, and in general the result is a
    prefix of the first key. *)
Theorem X2_getPrefixFromIconClasses_small_key_sets :
  getPrefixFromIconClasses [] = Ok ""
  ∧ (∀ c, getPrefixFromIconClasses [c] = Ok c)
  ∧ (∀ arr, ∃ p, getPrefixFromIconClasses arr = Ok p
                 ∧ ∀ c0, arr !! 0%nat = Some c0 → ∃ r, c0 = p +:+ r).
Proof.
  split_and!.
  - done.
  - intros c.
    assert (getPrefixFromIconClasses [c] = findPrefix (Some <$> [c; c; c; c])) as -> by done.
    destruct (findPrefix_defined [c; c; c; c]) as (p & Hp & Hc & Hmax); [done|].
    rewrite Hp. f_equal. destruct (Hc c) as [r Hr]; [by left|].
    apply (str_prefix_full p c r Hr), Hmax.
    intros w Hw. exists "". rewrite str_app_nil_r.
    repeat (apply elem_of_cons in Hw as [->|Hw]; [done|]). by apply elem_of_nil in Hw.
  - intros arr. destruct arr as [|c0 arr]; [by exists ""|].
    set (n := length (c0 :: arr)).
    assert (0 < n)%nat as Hn by (subst n; simpl; lia).
    destruct (lookup_lt_is_Some_2 (c0 :: arr) (1 * n / 4)%nat) as [s1 H1];
      [by apply sample_index_lt; lia|].
    destruct (lookup_lt_is_Some_2 (c0 :: arr) (2 * n / 4)%nat) as [s2 H2];
      [by apply sample_index_lt; lia|].
    destruct (lookup_lt_is_Some_2 (c0 :: arr) (3 * n / 4)%nat) as [s3 H3];
      [by apply sample_index_lt; lia|].
    assert (getPrefixFromIconClasses (c0 :: arr) = findPrefix (Some <$> [c0; s1; s2; s3])) as ->.
    { unfold getPrefixFromIconClasses. cbn [seq map]. fold n. rewrite H1, H2, H3.
      by replace (0 * n / 4)%nat with 0%nat by (rewrite Nat.mul_0_l; done). }
    destruct (findPrefix_defined [c0; s1; s2; s3]) as (p & Hp & Hc & _); [done|].
    exists p. split; [done|]. intros c [= <-]. apply Hc. by left.
Qed.

(** ** findIcons and step 5 *)



Lemma Icon_parse_Some_Permutation (u : list string) (ic : list string) (log : list string)
    (icon : Icon) :
  Icon_parse u ic = (log, Ok (Some icon)) →
  u ≡ₚ name icon :: modifiers icon
  ∧ name icon ∈ ic ∧ Forall (fun cls => cls ∉ ic) (modifiers icon).
Proof.
  unfold Icon_parse. case_bool_decide as H1; [done|]. case_bool_decide as H2; [done|].
  destruct (filter (fun cls => cls ∈ ic) u) as [|n [|n' names]] eqn:Hf;
    [done| |simpl in H1; lia].
  cbn [lookup list_lookup]. intros [= <- <-]. cbn [name modifiers].
  destruct (filter_singleton_split _ _ _ Hf) as (l1 & l2 & -> & Hn & Hl1 & Hl2).
  rewrite filter_app, filter_cons, decide_False by (by intros H; apply H).
  rewrite !filter_all.
  - split_and!; [by rewrite Permutation_middle|done|by apply Forall_app].
  - eapply Forall_impl; [exact Hl2|]. simpl. intros x Hx ->. done.
  - eapply Forall_impl; [exact Hl1|]. simpl. intros x Hx ->. done.
Qed.

(** The icon a combination is classified as, when there is one. *)
Lemma parseIcons_Ok_inv (us : list (list string)) (ic : list string) (log : list string)
    (icons : list Icon) :
  parseIcons us ic = (log, Ok icons) →
  ∃ rs : list (option Icon),
    Forall2 (fun u r => ∃ l, Icon_parse u ic = (l, Ok r)) us rs
    ∧ icons = omap id rs.
Proof.
  revert log icons. induction us as [|u us IH]; intros log icons.
  - intros [= <- <-]. exists []. split; [constructor|done].
  - cbn [parseIcons]. destruct (Icon_parse u ic) as [l [r|e]] eqn:Hu; [|done].
    destruct (parseIcons us ic) as [l' [icons'|e]] eqn:Hus; [|done].
    destruct (IH _ _ eq_refl) as (rs & Hrs & ->).
    intros [= <- <-]. exists (r :: rs). split; [constructor; eauto|].
    by destruct r.
Qed.

Lemma parsed_icons_distinct (us : list (list string)) (ic : list string)
    (rs : list (option Icon)) :
  NoDup us → Forall (Sorted String.le) us →
  Forall2 (fun u r => ∃ l, Icon_parse u ic = (l, Ok r)) us rs →
  NoDup (omap id rs)
  ∧ Forall (fun icon => name icon ∈ ic
                        ∧ Forall (fun cls => cls ∉ ic) (modifiers icon)
                        ∧ JS.sort (name icon :: modifiers icon) ∈ us) (omap id rs).
Proof.
  intros Hnd Hsorted Hrs.
  induction Hrs as [|u r us rs [l Hu] Hrs IH]; [split; constructor|].
  apply NoDup_cons in Hnd as [Hnotin Hnd]. apply Forall_cons in Hsorted as [Hsu Hsorted].
  destruct IH as [IHnd IHall]; [done|done|].
  assert (Forall (fun icon => name icon ∈ ic
                        ∧ Forall (fun cls => cls ∉ ic) (modifiers icon)
                        ∧ JS.sort (name icon :: modifiers icon) ∈ u :: us) (omap id rs))
    as IHall'.
  { eapply Forall_impl; [exact IHall|]. intros icon (? & ? & ?). split_and!; [done..|by right]. }
  destruct r as [icon|]; [|done]. cbn [omap list_omap id].
  destruct (Icon_parse_Some_Permutation _ _ _ _ Hu) as (Hperm & Hn & Hm).
  assert (JS.sort (name icon :: modifiers icon) = u) as Hsortu.
  { apply (Sorted_unique String.le); [apply sort_Sorted|done|].
    by rewrite sort_Permutation. }
  split.
  - apply NoDup_cons. split; [|done].
    intros Hin. apply Hnotin.
    apply list_elem_of_omap in Hin as (r' & Hr' & Hid). simpl in Hid. subst r'.
    apply list_elem_of_lookup in Hr' as [i Hi].
    destruct (Forall2_lookup_r _ _ _ _ _ Hrs Hi) as (u' & Hu' & l' & Hpu').
    destruct (Icon_parse_Some_Permutation _ _ _ _ Hpu') as (Hperm' & _ & _).
    assert (u' = u) as <-; [|by eapply list_elem_of_lookup_2].
    apply (Sorted_unique String.le); [|done|by rewrite Hperm, Hperm'].
    eapply Forall_lookup_1 in Hsorted; [exact Hsorted|exact Hu'].
  - constructor; [|done]. split_and!; [done|done|].
    rewrite Hsortu. by left.
Qed.

(** X4.  When step 5 succeeds on the combinations returned by [findIcons],
    the parsed icons are pairwise distinct; each has its name among the icon
    classes, no modifier among them, and its name and modifiers, sorted, are
    one of the crawled combinations. *)
Theorem X4_icons_parsed_from_findIcons_are_distinct
    (matches : list string) (iconClasses : list string) (log : list string)
    (icons : list Icon) :
  parseIcons (findIcons matches) iconClasses = (log, Ok icons) →
  NoDup icons
  ∧ Forall (fun icon => name icon ∈ iconClasses
                        ∧ Forall (fun cls => cls ∉ iconClasses) (modifiers icon)
                        ∧ JS.sort (name icon :: modifiers icon) ∈ findIcons matches) icons.
Proof.
  intros Hp. apply parseIcons_Ok_inv in Hp as (rs & Hrs & ->).
  apply parsed_icons_distinct; [apply findIcons_NoDup| |done].
  apply Forall_forall. intros u Hu.
  unfold findIcons in Hu. apply list_elem_of_fmap in Hu as (k & -> & Hk).
  apply Set_from_elem_of, list_elem_of_fmap in Hk as (s & -> & Hs).
  rewrite split_char_canonical. apply sort_Sorted.
Qed.

Lemma Icon_parse_cases (u : list string) (ic : list string) :
  match filter (fun cls => cls ∈ ic) u with
  | [] => ∃ line, Icon_parse u ic = ([line], Ok None)
  | [n] => ∃ icon, Icon_parse u ic = ([], Ok (Some icon))
  | names => Icon_parse u ic = ([], Throw (MoreThanOneIconClass names))
  end.
Proof.
  unfold Icon_parse. destruct (filter (fun cls => cls ∈ ic) u) as [|n [|n' names]].
  - rewrite bool_decide_eq_false_2 by (simpl; lia). eauto.
  - rewrite !bool_decide_eq_false_2 by (simpl; lia). eauto.
  - rewrite bool_decide_eq_true_2 by (simpl; lia). done.
Qed.

(** X5.  Step 5 throws exactly when some combination holds more than one
    icon class, with the candidates of the first such combination in the
    error; otherwise it returns one icon per combination with exactly one
    icon class and writes one line per combination with none. *)
Theorem X5_step5_fails_exactly_on_two_name_candidates
    (unparsedIcons : list (list string)) (iconClasses : list string) :
  match list_find (fun u => (1 < length (filter (fun cls => cls ∈ iconClasses) u))%nat)
                  unparsedIcons with
  | Some (_, u) =>
      (parseIcons unparsedIcons iconClasses).2
      = Throw (MoreThanOneIconClass (filter (fun cls => cls ∈ iconClasses) u))
  | None =>
      ∃ log icons,
        parseIcons unparsedIcons iconClasses = (log, Ok icons)
        ∧ length icons
          = length (filter (fun u => length (filter (fun cls => cls ∈ iconClasses) u) = 1%nat)
                           unparsedIcons)
        ∧ length log
          = length (filter (fun u => filter (fun cls => cls ∈ iconClasses) u = [])
                           unparsedIcons)
  end.
Proof.
  induction unparsedIcons as [|u us IH]; [by exists [], []|].
  cbn [list_find]. pose proof (Icon_parse_cases u iconClasses) as Hu.
  cbn [parseIcons]. rewrite !filter_cons.
  destruct (filter (fun cls => cls ∈ iconClasses) u) as [|n [|n' names]] eqn:Hf.
  - rewrite decide_False by (simpl; lia). destruct Hu as [line ->].
    rewrite decide_False by done. rewrite decide_True by done.
    destruct (list_find _ us) as [[i u']|]; simpl.
    + destruct (parseIcons us iconClasses) as [l' r']. simpl in *. by rewrite IH.
    + destruct IH as (log & icons & -> & Hi & Hl). exists (line :: log), icons.
      split_and!; [done|done|]. simpl. by rewrite Hl.
  - rewrite decide_False by (simpl; lia). destruct Hu as [icon ->].
    rewrite decide_True by done. rewrite decide_False by done.
    destruct (list_find _ us) as [[i u']|]; simpl.
    + destruct (parseIcons us iconClasses) as [l' r']. simpl in *. by rewrite IH.
    + destruct IH as (log & icons & -> & Hi & Hl). exists log, (icon :: icons).
      split_and!; [done| |done]. simpl. by rewrite Hi.
  - rewrite decide_True by (simpl; lia). rewrite Hu. simpl. by rewrite Hf.
Qed.

(** ** More on the subsetting engine *)

Lemma grows_refl (st : MinifyState) : grows st st.
Proof. split; [done|]. intros n sels Hn. exists []. by rewrite app_nil_r. Qed.

Lemma grows_trans (st1 st2 st3 : MinifyState) : grows st1 st2 → grows st2 st3 → grows st1 st3.
Proof.
  intros [Hc1 Hs1] [Hc2 Hs2]. split; [by auto|].
  intros n sels Hn. destruct (Hs1 _ _ Hn) as [more1 H1].
  destruct (Hs2 _ _ H1) as [more2 H2]. exists (more1 ++ more2). by rewrite app_assoc.
Qed.

Section EngineGrowth.
Variable ffs : list FontFace.
Variable base : Z.
Hypothesis base_pos : 0 < base.
Variable iconToCodepoint : gmap string Z.

Lemma resolveFrom_grows (icon : Icon) (cp : Z) (st : MinifyState) (j : nat) (g0 : Glyph) :
  is_Some (oldCodepointsToNew st !! j) →
  grows st (resolveFrom icon cp st j g0)
  ∧ ∃ n sels, codepointOf (resolveFrom icon cp st j g0) j cp = Some n
              ∧ newCodepointsToClasses (resolveFrom icon cp st j g0) !! n = Some sels
              ∧ toIconSelector icon ∈ sels.
Proof.
  intros Hm. unfold resolveFrom.
  pose proof (allocOrReuse_keeps j g0 cp st) as Hkeep.
  pose proof (allocOrReuse_classes j g0 cp st) as Hcl.
  pose proof (allocOrReuse_codepointOf j g0 cp st Hm) as Hn.
  destruct (allocOrReuse j g0 cp st) as [n st1]. cbn [fst snd] in *. split; [split|].
  - intros j' cp' n' Hn'. rewrite codepointOf_registerMapping. by apply Hkeep.
  - intros n' sels Hsels. rewrite registerMapping_lookup, Hcl. case_decide as Hd.
    + subst n'. rewrite Hsels. simpl. eauto.
    + exists []. by rewrite app_nil_r.
  - exists n. eexists. rewrite codepointOf_registerMapping, registerMapping_lookup.
    rewrite decide_True by done. split_and!; [done|done|].
    apply elem_of_app. right. by left.
Qed.

Lemma useFont_grows (icon : Icon) (cp : Z) (st st' : MinifyState) (j : nat) (ff : FontFace) :
  Inv ffs base st → ffs !! j = Some ff →
  useFont icon cp st (j, ff) = Ok st' →
  grows st st'
  ∧ ∃ n sels, codepointOf st' j cp = Some n
              ∧ newCodepointsToClasses st' !! n = Some sels
              ∧ toIconSelector icon ∈ sels.
Proof.
  intros HI Hj Hstep.
  apply (useFont_Ok ffs base base_pos) in Hstep as (f & g0 & rest & Hf & Hfind & ->); [|done..].
  apply resolveFrom_grows, (inv_dom _ _ _ HI). by eapply lookup_lt_Some.
Qed.

Lemma minifyIconMulti_grows (icon : Icon) (st st' : MinifyState) :
  Inv ffs base st →
  minifyIconMulti ffs iconToCodepoint st icon = Ok st' →
  grows st st'.
Proof.
  intros HI. unfold minifyIconMulti.
  destruct (lookupCodepoint iconToCodepoint icon) as [cp|e] eqn:Hcp; [|done].
  cbn -[useFont expandInto].
  destruct (filter _ (refs ffs) !! 0%nat) as [[j ff]|] eqn:Hfilter.
  - intros Hstep. pose proof (filter_head_Some _ _ _ Hfilter) as [Hin%refs_lookup _].
    by apply (useFont_grows icon cp st st' j ff).
  - intros Hfold.
    assert (∀ r : nat * FontFace, r ∈ refs ffs → ffs !! r.1 = Some r.2) as Hrefs
      by (intros [j ff]; by rewrite refs_lookup).
    destruct (expansion_fold ffs base base_pos icon cp (refs ffs) st st' Hrefs HI Hfold)
      as (-> & _).
    by apply (expansionSpec_mono ffs base base_pos).
Qed.

Lemma foldM_grows (step : MinifyState → Icon → Res MinifyState) :
  (∀ processed icon st st',
      Inv ffs base st → ReqInv ffs iconToCodepoint processed st →
      step st icon = Ok st' →
      Inv ffs base st' ∧ ReqInv ffs iconToCodepoint (processed ++ [icon]) st' ∧ grows st st') →
  ∀ icons processed st st',
    Inv ffs base st → ReqInv ffs iconToCodepoint processed st →
    foldM step st icons = Ok st' →
    grows st st'
    ∧ ∀ before icon after, icons = before ++ icon :: after →
        ∃ st1 st2, foldM step st before = Ok st1 ∧ step st1 icon = Ok st2
                   ∧ Inv ffs base st1 ∧ grows st2 st'.
Proof.
  intros Hstep icons. induction icons as [|icon icons IH]; intros processed st st' HI HR.
  - intros [= <-]. split; [apply grows_refl|]. intros [|??] ??; done.
  - cbn [foldM]. destruct (step st icon) as [st1|e] eqn:H1; [|done]. cbn.
    intros Hfold. destruct (Hstep _ _ _ _ HI HR H1) as (HI1 & HR1 & Hg1).
    destruct (IH _ _ _ HI1 HR1 Hfold) as (Hg' & Hsplit).
    split; [by eapply grows_trans|].
    intros before icon' after Heq. destruct before as [|b before].
    + injection Heq as <- <-. exists st, st1. split_and!; done.
    + injection Heq as <- ->.
      destruct (Hsplit before icon' after eq_refl) as (s1 & s2 & Hb & Hs & HIs & Hgs).
      exists s1, s2. split_and!; [|done..]. cbn [foldM]. by rewrite H1.
Qed.

Lemma minify_run_registers (icons : list Icon) (st : MinifyState) (icon : Icon) :
  minify_run ffs icons iconToCodepoint base = Ok st →
  icon ∈ icons → resolvesDirectly ffs icon →
  ∃ j cp n sels,
    requestsOf ffs iconToCodepoint icon = [(j, cp)]
    ∧ codepointOf st j cp = Some n
    ∧ newCodepointsToClasses st !! n = Some sels
    ∧ toIconSelector icon ∈ sels.
Proof.
  unfold minify_run. case_bool_decide as Hlen; [done|].
  intros Hrun [i Hi]%list_elem_of_lookup Hdirect.
  apply take_drop_middle in Hi. symmetry in Hi. unfold resolvesDirectly in Hdirect.
  destruct (isMultiVariant ffs) eqn:Hm.
  - destruct Hdirect as [?|[[j ff] Hfilter]]; [done|].
    destruct (foldM_grows (minifyIconMulti ffs iconToCodepoint)) with
      (icons := icons) (processed := @nil Icon) (st := initState ffs base) (st' := st)
      as (_ & Hsplit); [| apply Inv_init | apply ReqInv_init | done |].
    { intros p ic s s' HI HR Hs.
      destruct (minifyIconMulti_step ffs base base_pos iconToCodepoint p ic s s' Hm HI HR Hs)
        as (? & ? & _).
      split_and!; [done..|]. exact (minifyIconMulti_grows ic s s' HI Hs). }
    destruct (Hsplit _ _ _ Hi) as (s1 & s2 & _ & Hstep & HI1 & [Hgc Hgs]).
    unfold minifyIconMulti in Hstep.
    destruct (lookupCodepoint iconToCodepoint icon) as [cp|e] eqn:Hcp; [|done].
    apply lookupCodepoint_Ok in Hcp as [Hcp Hnz]. cbn -[useFont expandInto] in Hstep.
    rewrite Hfilter in Hstep.
    pose proof (filter_head_Some _ _ _ Hfilter) as [Hin%refs_lookup _].
    destruct (useFont_grows icon cp s1 s2 j ff HI1 Hin Hstep) as (_ & n & sels & Hn & Hsels & Hsel).
    destruct (Hgs _ _ Hsels) as [more Hmore].
    exists j, cp, n, (sels ++ more). split_and!; [|by apply Hgc|done|].
    + by rewrite (requestsOf_direct ffs iconToCodepoint icon cp (j, ff)).
    + apply elem_of_app. by left.
  - destruct (refs ffs !! 0%nat) as [[j ff]|] eqn:Hr; [|done].
    apply refs_lookup_index in Hr as [Hj Hff]. simpl in Hj, Hff. subst j.
    destruct (foldM_grows (minifyIconSingle (0%nat, ff) iconToCodepoint)) with
      (icons := icons) (processed := @nil Icon) (st := initState ffs base) (st' := st)
      as (_ & Hsplit); [| apply Inv_init | apply ReqInv_init | done |].
    { intros p ic s s' HI HR Hs.
      destruct (minifyIconSingle_step ffs base base_pos iconToCodepoint ff p ic s s' Hm Hff HI HR Hs)
        as (? & ? & _).
      split_and!; [done..|]. unfold minifyIconSingle in Hs.
      destruct (lookupCodepoint iconToCodepoint ic) as [cp|e]; [|done].
      cbn -[useFont] in Hs. by apply (useFont_grows ic cp s s' 0%nat ff). }
    destruct (Hsplit _ _ _ Hi) as (s1 & s2 & _ & Hstep & HI1 & [Hgc Hgs]).
    unfold minifyIconSingle in Hstep.
    destruct (lookupCodepoint iconToCodepoint icon) as [cp|e] eqn:Hcp; [|done].
    apply lookupCodepoint_Ok in Hcp as [Hcp Hnz]. cbn -[useFont] in Hstep.
    destruct (useFont_grows icon cp s1 s2 0%nat ff HI1 Hff Hstep)
      as (_ & n & sels & Hn & Hsels & Hsel).
    destruct (Hgs _ _ Hsels) as [more Hmore].
    exists 0%nat, cp, n, (sels ++ more). split_and!; [|by apply Hgc|done|].
    + by rewrite (requestsOf_single ffs iconToCodepoint icon cp).
    + apply elem_of_app. by left.
Qed.

End EngineGrowth.

Lemma foldM_app {A S : Type} (f : S → A → Res S) (st : S) (l1 l2 : list A) :
  foldM f st (l1 ++ l2) = (st1 ← foldM f st l1; foldM f st1 l2).
Proof.
  revert st. induction l1 as [|x l1 IH]; intros st; [done|].
  cbn [app foldM]. destruct (f st x) as [st'|e]; [|done]. cbn. apply IH.
Qed.

Lemma minify_run_app (ffs : list FontFace) (tbl : gmap string Z) (base : Z)
    (before after : list Icon) :
  minify_run ffs (before ++ after) tbl base
  = (st ← minify_run ffs before tbl base;
     if isMultiVariant ffs then foldM (minifyIconMulti ffs tbl) st after
     else match refs ffs !! 0%nat with
          | Some ff => foldM (minifyIconSingle ff tbl) st after
          | None => Throw TypeError
          end).
Proof.
  unfold minify_run. case_bool_decide; [done|].
  destruct (isMultiVariant ffs); [apply foldM_app|].
  destruct (refs ffs !! 0%nat); [apply foldM_app|done].
Qed.

(** X6.  After a successful pass from a positive base, every icon that is
    resolved directly (a single descriptor, or some descriptor sharing a
    class with the icon) has its selector in the selector list of the new
    codepoint recorded for its one request. *)
Theorem X6_every_directly_resolved_icon_is_registered
    (ffs : list FontFace) (icons : list Icon) (iconToCodepoint : gmap string Z)
    (base : Z) (st : MinifyState) (icon : Icon) :
  0 < base →
  minify_run ffs icons iconToCodepoint base = Ok st →
  icon ∈ icons → resolvesDirectly ffs icon →
  ∃ j cp n sels,
    requestsOf ffs iconToCodepoint icon = [(j, cp)]
    ∧ iconToCodepoint !! name icon = Some cp
    ∧ codepointOf st j cp = Some n
    ∧ newCodepointsToClasses st !! n = Some sels
    ∧ toIconSelector icon ∈ sels.
Proof.
  intros Hbase Hrun Hin Hdirect.
  destruct (minify_run_registers ffs base Hbase iconToCodepoint icons st icon Hrun Hin Hdirect)
    as (j & cp & n & sels & Hreq & Hn & Hsels & Hsel).
  exists j, cp, n, sels. split_and!; [done| |done..].
  unfold requestsOf in Hreq. destruct (iconToCodepoint !! name icon) as [cp'|]; [|done].
  unfold resolvesDirectly in Hdirect.
  destruct (isMultiVariant ffs); [|injection Hreq as _ Hc; by subst].
  destruct (filter _ (refs ffs) !! 0%nat) as [ff|] eqn:Hf;
    [injection Hreq as _ Hc; by subst|].
  destruct Hdirect as [Hd|[? Hd]]; done.
Qed.

(** X7.  An icon whose name has no codepoint in the table, or the codepoint
    0, makes the pass throw the no-codepoint error for that name, whatever
    follows it; hence after a successful pass every icon has a non-zero
    codepoint in the table. *)
Theorem X7_icon_without_usable_codepoint_fails_the_pass
    (ffs : list FontFace) (iconToCodepoint : gmap string Z) (base : Z) :
  (∀ icons st, minify_run ffs icons iconToCodepoint base = Ok st →
     Forall (fun icon => ∃ cp, iconToCodepoint !! name icon = Some cp ∧ cp ≠ 0) icons)
  ∧ (∀ before icon after st0,
       minify_run ffs before iconToCodepoint base = Ok st0 →
       iconToCodepoint !! name icon = None ∨ iconToCodepoint !! name icon = Some 0 →
       minify_run ffs (before ++ icon :: after) iconToCodepoint base
       = Throw (NoCodepointFound (name icon))).
Proof.
  assert (∀ icon, iconToCodepoint !! name icon = None ∨ iconToCodepoint !! name icon = Some 0 →
                  lookupCodepoint iconToCodepoint icon = Throw (NoCodepointFound (name icon)))
    as Hlookup.
  { intros icon [H|H]; unfold lookupCodepoint; by rewrite H. }
  assert (∀ before icon after st0,
       minify_run ffs before iconToCodepoint base = Ok st0 →
       iconToCodepoint !! name icon = None ∨ iconToCodepoint !! name icon = Some 0 →
       minify_run ffs (before ++ icon :: after) iconToCodepoint base
       = Throw (NoCodepointFound (name icon))) as Hfail.
  { intros before icon after st0 Hbefore Hmiss. rewrite minify_run_app, Hbefore.
    cbn -[minifyIconMulti minifyIconSingle foldM refs].
    destruct (isMultiVariant ffs) eqn:Hm.
    - cbn [foldM]. unfold minifyIconMulti. by rewrite (Hlookup icon Hmiss).
    - destruct (refs ffs !! 0%nat) as [ff|] eqn:Hr.
      + cbn [foldM]. unfold minifyIconSingle. by rewrite (Hlookup icon Hmiss).
      + unfold minify_run in Hbefore. rewrite Hm, Hr in Hbefore. by case_bool_decide. }
  split; [|done].
  intros icons st Hrun. apply Forall_forall. intros icon [i Hi]%list_elem_of_lookup.
  apply take_drop_middle in Hi.
  rewrite <-Hi in Hrun.
  assert (¬ (iconToCodepoint !! name icon = None ∨ iconToCodepoint !! name icon = Some 0))
    as Hnot.
  { intros Hmiss.
    destruct (minify_run ffs (take i icons) iconToCodepoint base) as [st0|e] eqn:Hb.
    - by rewrite (Hfail _ icon _ st0 Hb Hmiss) in Hrun.
    - by rewrite minify_run_app, Hb in Hrun. }
  destruct (iconToCodepoint !! name icon) as [cp|]; [|by destruct Hnot; left].
  exists cp. split; [done|]. intros ->. apply Hnot. by right.
Qed.

Lemma expandInto_lacking (icon : Icon) (cp : Z) (st : MinifyState) (l : list (nat * FontFace)) :
  Forall (fun r => is_Some (font r.2) ∧ hasGlyph r.2 cp = false) l →
  foldM (expandInto icon cp) st l = Ok st.
Proof.
  induction 1 as [|[j ff] l [[f Hf] Hhas] _ IH]; [done|].
  cbn [foldM]. simpl in Hf, Hhas.
  assert (expandInto icon cp st (j, ff) = Ok st) as ->; [|done].
  unfold expandInto, addGlyph, hasGlyph in *. cbn [fst snd]. rewrite Hf in *.
  apply bool_decide_eq_false in Hhas.
  destruct (Font_find f [cp]) as [|g0 rest]; [done|]. exfalso. by apply Hhas.
Qed.

(** X8.  With several descriptors, all loaded, an icon that shares no class
    with any descriptor and whose glyph no descriptor holds changes nothing:
    its step returns the state it was given, and the pass gives the same
    result as without the icon. *)
Theorem X8_icon_without_variant_class_and_glyph_is_dropped_silently
    (ffs : list FontFace) (iconToCodepoint : gmap string Z) (base : Z)
    (before after : list Icon) (icon : Icon) (cp : Z) :
  isMultiVariant ffs = true →
  iconToCodepoint !! name icon = Some cp → cp ≠ 0 →
  Forall (fun ff => hasIntersection ff icon = false
                    ∧ is_Some (font ff) ∧ hasGlyph ff cp = false) ffs →
  (∀ st, minifyIconMulti ffs iconToCodepoint st icon = Ok st)
  ∧ minify_run ffs (before ++ icon :: after) iconToCodepoint base
    = minify_run ffs (before ++ after) iconToCodepoint base.
Proof.
  intros Hm Hcp Hnz Hall.
  assert (∀ st, minifyIconMulti ffs iconToCodepoint st icon = Ok st) as Hstep.
  { intros st. unfold minifyIconMulti.
    rewrite (proj2 (lookupCodepoint_Ok iconToCodepoint icon cp)) by done.
    cbn -[useFont expandInto].
    destruct (filter _ (refs ffs) !! 0%nat) as [[j ff]|] eqn:Hfilter.
    - apply filter_head_Some in Hfilter as [Hin%refs_lookup Hint]. simpl in Hint.
      eapply Forall_forall in Hall; [|by eapply list_elem_of_lookup_2].
      destruct Hall as [Hno _]. by rewrite Hno in Hint.
    - apply expandInto_lacking, Forall_forall. intros [j ff] Hin%refs_lookup. simpl.
      eapply Forall_forall in Hall; [|by eapply list_elem_of_lookup_2]. tauto. }
  split; [done|].
  rewrite !minify_run_app, Hm.
  destruct (minify_run ffs before iconToCodepoint base) as [st|e]; [|done].
  cbn -[minifyIconMulti foldM]. cbn [foldM]. by rewrite Hstep.
Qed.

(** X9.  [intersection] keeps, in the order of its first argument, exactly
    the elements found in every other argument; with no other argument it
    returns the first; a descriptor intersects an icon exactly when one of
    its classes is a modifier of the icon. *)
Theorem X9_intersection_keeps_the_common_elements
    (a : list string) (args : list (list string)) :
  (∀ e, e ∈ intersection a args ↔ e ∈ a ∧ Forall (fun a2 => e ∈ a2) args)
  ∧ intersection a args `sublist_of` a
  ∧ intersection a [] = a
  ∧ ∀ (ff : FontFace) (icon : Icon),
      hasIntersection ff icon = true ↔ ∃ cls, cls ∈ clss ff ∧ cls ∈ modifiers icon.
Proof.
  split_and!.
  - intros e. unfold intersection. rewrite list_elem_of_filter. tauto.
  - apply sublist_filter.
  - unfold intersection. apply filter_all, Forall_forall. intros e _. constructor.
  - intros ff icon. unfold hasIntersection. rewrite bool_decide_eq_true. split.
    + intros Hlen. destruct (intersection (clss ff) [modifiers icon]) as [|cls l] eqn:Hi;
        [simpl in Hlen; lia|].
      assert (cls ∈ intersection (clss ff) [modifiers icon]) as Hin by (rewrite Hi; by left).
      unfold intersection in Hin. apply list_elem_of_filter in Hin as [Hall Hin].
      exists cls. split; [done|]. by inversion Hall.
    + intros (cls & Hc & Hm).
      assert (cls ∈ intersection (clss ff) [modifiers icon]) as Hin.
      { unfold intersection. apply list_elem_of_filter. split; [|done].
        by apply Forall_singleton. }
      destruct (intersection (clss ff) [modifiers icon]); [by apply elem_of_nil in Hin|].
      simpl. lia.
Qed.

(** ** Deduplication, first-match resolution and the counter *)

Lemma codepointOf_same_maps (st st' : MinifyState) (j : nat) (cp : Z) :
  oldCodepointsToNew st' = oldCodepointsToNew st →
  codepointOf st' j cp = codepointOf st j cp.
Proof. intros Heq. unfold codepointOf. by rewrite Heq. Qed.

Lemma resolveFrom_recorded (icon : Icon) (cp : Z) (st : MinifyState) (j : nat)
    (g0 : Glyph) (n : Z) :
  codepointOf st j cp = Some n →
  resolveFrom icon cp st j g0 = registerMapping n icon st.
Proof. intros Hn. unfold resolveFrom, allocOrReuse. by rewrite Hn. Qed.

Lemma registerFold_sameGlyphs (n : Z) (icon : Icon) (l : list string) (st : MinifyState) :
  sameGlyphs st (foldl (fun st cls => registerMapping n (derivedIcon icon cls) st) st l).
Proof.
  revert st. induction l as [|cls l IH]; intros st; [done|]. cbn [foldl].
  destruct (IH (registerMapping n (derivedIcon icon cls) st)) as (? & ? & ?). done.
Qed.

Lemma expandDescriptor_recorded (icon : Icon) (cp : Z) (st : MinifyState) (ff : FontFaceRef) :
  (hasGlyph ff.2 cp = true → is_Some (codepointOf st ff.1 cp)) →
  sameGlyphs st (expandDescriptor icon cp st ff).
Proof.
  intros Hrec. unfold expandDescriptor.
  destruct (font ff.2 ≫= (fun f => head (Font_find f [cp]))) as [g0|] eqn:Hg; [|done].
  destruct Hrec as [n Hn]; [apply hasGlyph_true; eauto|].
  unfold allocOrReuse. rewrite Hn. apply registerFold_sameGlyphs.
Qed.

Lemma expansionSpec_recorded (icon : Icon) (cp : Z) (l : list FontFaceRef) (st : MinifyState) :
  (∀ r, r ∈ l → hasGlyph r.2 cp = true → is_Some (codepointOf st r.1 cp)) →
  sameGlyphs st (expansionSpec icon cp st l).
Proof.
  revert st. induction l as [|r l IH]; intros st Hrec; [done|].
  unfold expansionSpec. cbn [foldl].
  fold (expansionSpec icon cp (expandDescriptor icon cp st r) l).
  destruct (expandDescriptor_recorded icon cp st r) as (Hg1 & Hm1 & Hc1);
    [apply Hrec; by left|].
  destruct (IH (expandDescriptor icon cp st r)) as (Hg2 & Hm2 & Hc2).
  { intros r' Hr' Hhas. rewrite (codepointOf_same_maps st) by done.
    apply Hrec; [by right|done]. }
  split_and!; congruence.
Qed.

Section EngineDedup.
Variable ffs : list FontFace.
Variable base : Z.
Hypothesis base_pos : 0 < base.
Variable iconToCodepoint : gmap string Z.

Lemma useFont_recorded (icon : Icon) (cp : Z) (st st' : MinifyState) (j : nat) (ff : FontFace) :
  Inv ffs base st → ffs !! j = Some ff →
  is_Some (codepointOf st j cp) →
  useFont icon cp st (j, ff) = Ok st' →
  sameGlyphs st st'.
Proof.
  intros HI Hj [n Hn] Hstep.
  apply (useFont_Ok ffs base base_pos) in Hstep as (f & g0 & rest & _ & _ & ->); [|done..].
  by rewrite (resolveFrom_recorded icon cp st j g0 n).
Qed.

Lemma minifyIconMulti_recorded (icon : Icon) (st st' : MinifyState) :
  isMultiVariant ffs = true → Inv ffs base st →
  (∀ r, r ∈ requestsOf ffs iconToCodepoint icon → is_Some (codepointOf st r.1 r.2)) →
  minifyIconMulti ffs iconToCodepoint st icon = Ok st' →
  sameGlyphs st st'.
Proof.
  intros Hm HI Hrec. unfold minifyIconMulti.
  destruct (lookupCodepoint iconToCodepoint icon) as [cp|e] eqn:Hcp; [|done].
  apply lookupCodepoint_Ok in Hcp as [Hcp Hnz]. cbn -[useFont expandInto].
  destruct (filter _ (refs ffs) !! 0%nat) as [[j ff]|] eqn:Hfilter.
  - pose proof (filter_head_Some _ _ _ Hfilter) as [Hin%refs_lookup _].
    apply useFont_recorded; [done|done|].
    apply (Hrec (j, cp)).
    rewrite (requestsOf_direct ffs iconToCodepoint icon cp (j, ff)) by done. by left.
  - intros Hfold.
    destruct (expansion_fold ffs base base_pos icon cp (refs ffs) st st') as (-> & _);
      [by intros [j ff]; rewrite refs_lookup|done|done|].
    apply expansionSpec_recorded. intros [j ff] Hin Hhas.
    apply (Hrec (j, cp)).
    apply (requestsOf_expand ffs iconToCodepoint icon cp); [done..|]. eauto.
Qed.

Lemma minifyIconSingle_recorded (ff : FontFace) (icon : Icon) (st st' : MinifyState) :
  isMultiVariant ffs = false → ffs !! 0%nat = Some ff → Inv ffs base st →
  (∀ r, r ∈ requestsOf ffs iconToCodepoint icon → is_Some (codepointOf st r.1 r.2)) →
  minifyIconSingle (0%nat, ff) iconToCodepoint st icon = Ok st' →
  sameGlyphs st st'.
Proof.
  intros Hm Hff HI Hrec. unfold minifyIconSingle.
  destruct (lookupCodepoint iconToCodepoint icon) as [cp|e] eqn:Hcp; [|done].
  apply lookupCodepoint_Ok in Hcp as [Hcp Hnz]. cbn -[useFont].
  apply useFont_recorded; [done|done|].
  apply (Hrec (0%nat, cp)).
  rewrite (requestsOf_single ffs iconToCodepoint icon cp) by done. by left.
Qed.

(** The recorded pairs, one per packed glyph. *)
Lemma recorded_pairs_upto (st : MinifyState) (k : nat) :
  Inv ffs base st → (k ≤ length (glyfs st))%nat →
  ∃ L : list (nat * Z),
    length L = k ∧ NoDup L
    ∧ ∀ j cp, (j, cp) ∈ L ↔ ∃ i, (i < k)%nat ∧ codepointOf st j cp = Some (base + Z.of_nat i).
Proof.
  intros HI. induction k as [|k IH]; intros Hk.
  - exists []. split_and!; [done|constructor|]. intros j cp. split; [by intros ?%elem_of_nil|].
    intros (i & ? & _). lia.
  - destruct IH as (L & Hlen & Hnd & HL); [lia|].
    destruct (inv_surj _ _ _ HI k) as (j0 & cp0 & H0); [lia|].
    exists (L ++ [(j0, cp0)]). split_and!.
    + rewrite length_app. simpl. lia.
    + apply NoDup_app. split_and!; [done| |apply NoDup_singleton].
      intros [j cp] Hin [= -> ->]%list_elem_of_singleton.
      apply HL in Hin as (i & Hi & Hcp). rewrite H0 in Hcp. injection Hcp as Hcp. lia.
    + intros j cp. rewrite elem_of_app, list_elem_of_singleton, HL. split.
      * intros [(i & Hi & Hcp)|[= -> ->]]; [exists i; split; [lia|done]|].
        exists k. split; [lia|done].
      * intros (i & Hi & Hcp). destruct (decide (i = k)) as [->|Hne].
        -- right. destruct (inv_inj _ _ _ HI _ _ _ _ _ Hcp H0) as [-> ->]. done.
        -- left. exists i. split; [lia|done].
Qed.

Lemma recorded_pairs (st : MinifyState) :
  Inv ffs base st →
  ∃ L : list (nat * Z),
    length L = length (glyfs st) ∧ NoDup L
    ∧ ∀ j cp, (j, cp) ∈ L ↔ is_Some (codepointOf st j cp).
Proof.
  intros HI. destruct (recorded_pairs_upto st (length (glyfs st)) HI) as (L & Hlen & Hnd & HL);
    [done|].
  exists L. split_and!; [done|done|]. intros j cp. rewrite HL. split.
  - intros (i & _ & Hcp). by eexists.
  - intros [n Hn].
    destruct (inv_alloc _ _ _ HI _ _ _ Hn) as (ff & f & g0 & rest & i & _ & _ & _ & -> & Hi).
    exists i. split; [by eapply lookup_lt_Some|done].
Qed.

Lemma glyph_count_is_pair_count (icons : list Icon) (st : MinifyState) :
  Inv ffs base st → ReqInv ffs iconToCodepoint icons st →
  length (glyfs st)
  = size (list_to_set (icons ≫= requestsOf ffs iconToCodepoint) : gset (nat * Z)).
Proof.
  intros HI HR. destruct (recorded_pairs st HI) as (L & <- & Hnd & HL).
  rewrite <-(size_list_to_set (C := gset (nat * Z)) L) by done. f_equal.
  apply set_eq. intros [j cp]. rewrite !elem_of_list_to_set, HL. apply HR.
Qed.

Lemma glyphsFor_elem_of (st : MinifyState) (j : nat) (g : Glyph) :
  g ∈ glyphsFor st j
  ↔ g ∈ glyfs st ∧ ∃ cp n, codepointOf st j cp = Some n ∧ unicode g = [n].
Proof.
  unfold glyphsFor, codepointOf. destruct (oldCodepointsToNew st !! j) as [m|]; simpl.
  - rewrite list_elem_of_filter, list_elem_of_fmap. split.
    + intros [([cp n] & Hu & Hin%elem_of_map_to_list) Hg]. split; [done|]. by exists cp, n.
    + intros [Hg (cp & n & Hn & Hu)]. split; [|done]. exists (cp, n).
      split; [done|]. by apply elem_of_map_to_list.
  - split; [by intros ?%elem_of_nil|]. by intros [_ (? & ? & ? & _)].
Qed.

Lemma packed_glyph_owner (st : MinifyState) (g : Glyph) :
  Inv ffs base st → g ∈ glyfs st →
  ∃ j, (j < length ffs)%nat ∧ g ∈ glyphsFor st j
       ∧ ∀ j', g ∈ glyphsFor st j' → j' = j.
Proof.
  intros HI Hg. pose proof Hg as [i Hi]%list_elem_of_lookup.
  destruct (inv_surj _ _ _ HI i) as (j & cp & Hcp); [by eapply lookup_lt_Some|].
  pose proof (inv_unicode _ _ _ HI _ _ Hi) as Hu.
  exists j. split_and!.
  - destruct (inv_alloc _ _ _ HI _ _ _ Hcp) as (ff & _ & _ & _ & _ & Hj & _).
    by eapply lookup_lt_Some.
  - apply glyphsFor_elem_of. split; [done|]. by exists cp, (base + Z.of_nat i).
  - intros j' (_ & cp' & n' & Hcp' & Hu')%glyphsFor_elem_of.
    rewrite Hu in Hu'. injection Hu' as <-.
    by destruct (inv_inj _ _ _ HI _ _ _ _ _ Hcp' Hcp).
Qed.

Lemma minifyIconSingle_grows (ff : FontFace) (icon : Icon) (st st' : MinifyState) :
  ffs !! 0%nat = Some ff → Inv ffs base st →
  minifyIconSingle (0%nat, ff) iconToCodepoint st icon = Ok st' →
  grows st st'.
Proof.
  intros Hff HI. unfold minifyIconSingle.
  destruct (lookupCodepoint iconToCodepoint icon) as [cp|e]; [|done].
  cbn -[useFont]. intros Hs.
  by apply (useFont_grows ffs base base_pos icon cp st st' 0%nat ff).
Qed.

(** A pass over [before ++ after] goes through the state of the pass over
    [before]. *)
Lemma minify_run_prefix (before after : list Icon) (st : MinifyState) :
  minify_run ffs (before ++ after) iconToCodepoint base = Ok st →
  ∃ st1, minify_run ffs before iconToCodepoint base = Ok st1
         ∧ Inv ffs base st1 ∧ ReqInv ffs iconToCodepoint before st1
         ∧ grows st1 st
         ∧ (if isMultiVariant ffs
            then foldM (minifyIconMulti ffs iconToCodepoint) st1 after = Ok st
            else ∃ ff, ffs !! 0%nat = Some ff
                       ∧ foldM (minifyIconSingle (0%nat, ff) iconToCodepoint) st1 after = Ok st).
Proof.
  rewrite minify_run_app.
  destruct (minify_run ffs before iconToCodepoint base) as [st1|e] eqn:Hb; [|done].
  destruct (minify_run_props ffs base base_pos iconToCodepoint before st1 Hb) as (HI1 & HR1 & _).
  cbn -[minifyIconMulti minifyIconSingle foldM refs].
  destruct (isMultiVariant ffs) eqn:Hm.
  - intros Hfold. exists st1. split_and!; [done..| |done].
    destruct (foldM_grows ffs base iconToCodepoint (minifyIconMulti ffs iconToCodepoint))
      with (icons := after) (processed := before) (st := st1) (st' := st)
      as (Hg & _); [|done..].
    intros p ic s s' HI HR Hs.
    destruct (minifyIconMulti_step ffs base base_pos iconToCodepoint p ic s s' Hm HI HR Hs)
      as (? & ? & _).
    split_and!; [done..|]. exact (minifyIconMulti_grows ffs base base_pos iconToCodepoint ic s s' HI Hs).
  - destruct (refs ffs !! 0%nat) as [[j ff]|] eqn:Hr; [|done].
    apply refs_lookup_index in Hr as [Hj Hff]. simpl in Hj, Hff. subst j.
    intros Hfold. exists st1. split_and!; [done..| |by exists ff].
    destruct (foldM_grows ffs base iconToCodepoint (minifyIconSingle (0%nat, ff) iconToCodepoint))
      with (icons := after) (processed := before) (st := st1) (st' := st)
      as (Hg & _); [|done..].
    intros p ic s s' HI HR Hs.
    destruct (minifyIconSingle_step ffs base base_pos iconToCodepoint ff p ic s s' Hm Hff HI HR Hs)
      as (? & ? & _).
    split_and!; [done..|]. by apply (minifyIconSingle_grows ff ic s s').
Qed.

Lemma grows_glyphs_prefix (st1 st : MinifyState) :
  Inv ffs base st1 → Inv ffs base st → grows st1 st →
  take (length (glyfs st1)) (glyfs st) = glyfs st1.
Proof.
  intros HI1 HI [Hg _]. apply list_eq. intros i.
  destruct (decide (i < length (glyfs st1))%nat) as [Hlt|Hge].
  - rewrite lookup_take_lt by done.
    destruct (inv_surj _ _ _ HI1 i Hlt) as (j & cp & Hcp).
    pose proof (Hg _ _ _ Hcp) as Hcp'.
    destruct (inv_alloc _ _ _ HI1 _ _ _ Hcp) as (ff & f & g0 & rest & i1 & Hj & Hf & Hfind & Hn & Hi1).
    destruct (inv_alloc _ _ _ HI _ _ _ Hcp') as (ff' & f' & g0' & rest' & i2 & Hj' & Hf' & Hfind' & Hn' & Hi2).
    assert (i1 = i) as -> by lia. assert (i2 = i) as -> by lia.
    rewrite Hi1, Hi2. rewrite Hj in Hj'. injection Hj' as <-.
    rewrite Hf in Hf'. injection Hf' as <-. rewrite Hfind in Hfind'. by injection Hfind' as <- _.
  - rewrite lookup_take_ge by lia. symmetry. apply lookup_ge_None. lia.
Qed.

Lemma minify_run_repeat (before : list Icon) (icon : Icon) (st1 st2 : MinifyState) :
  minify_run ffs before iconToCodepoint base = Ok st1 →
  minify_run ffs (before ++ [icon]) iconToCodepoint base = Ok st2 →
  (∀ r, r ∈ requestsOf ffs iconToCodepoint icon →
        r ∈ before ≫= requestsOf ffs iconToCodepoint) →
  sameGlyphs st1 st2.
Proof.
  intros H1 H2 Hreq.
  destruct (minify_run_prefix before [icon] st2 H2) as (st1' & H1' & HI1 & HR1 & _ & Hstep).
  rewrite H1 in H1'. injection H1' as <-.
  assert (∀ r, r ∈ requestsOf ffs iconToCodepoint icon → is_Some (codepointOf st1 r.1 r.2))
    as Hrec.
  { intros [j cp] Hr. apply (HR1 j cp). by apply Hreq. }
  destruct (isMultiVariant ffs) eqn:Hm.
  - cbn [foldM] in Hstep.
    destruct (minifyIconMulti ffs iconToCodepoint st1 icon) as [s|e] eqn:Hs; [|done].
    cbn in Hstep. injection Hstep as ->.
    by apply (minifyIconMulti_recorded icon st1 st2).
  - destruct Hstep as (ff & Hff & Hstep). cbn [foldM] in Hstep.
    destruct (minifyIconSingle (0%nat, ff) iconToCodepoint st1 icon) as [s|e] eqn:Hs; [|done].
    cbn in Hstep. injection Hstep as ->.
    by apply (minifyIconSingle_recorded ff icon st1 st2).
Qed.

End EngineDedup.

(** C1.  After a successful pass from a positive base.  For every descriptor
    [j]: each legacy codepoint requested from [j] has one recorded new
    codepoint, carried by exactly one glyph of the packed list; codepoints are
    recorded only for requested legacy codepoints; and the number of packed
    glyphs carrying a codepoint of [j] is the number of distinct legacy
    codepoints requested from [j].  The packed list holds nothing else: every
    packed glyph carries a codepoint of exactly one descriptor, and the length
    of the packed list is the number of distinct requested (descriptor, legacy
    codepoint) pairs, not the number of requests.  However many icons ask for
    a pair, its codepoint is the one given at the first request: the pass over
    any initial part of the icons succeeds, what it recorded and packed is
    still there at the end, and an icon all of whose requests were made by
    earlier icons adds no glyph, records no codepoint and leaves the counter
    alone. *)
Theorem C1_one_new_codepoint_and_one_glyph_per_requested_codepoint
    (ffs : list FontFace) (icons : list Icon) (iconToCodepoint : gmap string Z)
    (base : Z) (st : MinifyState) :
  0 < base →
  minify_run ffs icons iconToCodepoint base = Ok st →
  (∀ j, (j < length ffs)%nat →
     (∀ cp, cp ∈ requestedFrom ffs iconToCodepoint icons j →
        ∃ n, codepointOf st j cp = Some n
             ∧ length (filter (fun g => unicode g = [n]) (glyfs st)) = 1%nat)
     ∧ (∀ cp, is_Some (codepointOf st j cp) → cp ∈ requestedFrom ffs iconToCodepoint icons j)
     ∧ length (glyphsFor st j)
       = size (list_to_set (requestedFrom ffs iconToCodepoint icons j) : gset Z))
  ∧ (∀ g, g ∈ glyfs st →
       ∃ j, (j < length ffs)%nat ∧ g ∈ glyphsFor st j
            ∧ ∀ j', g ∈ glyphsFor st j' → j' = j)
  ∧ length (glyfs st)
    = size (list_to_set (icons ≫= requestsOf ffs iconToCodepoint) : gset (nat * Z))
  ∧ (∀ before after, icons = before ++ after →
       ∃ st1, minify_run ffs before iconToCodepoint base = Ok st1
              ∧ (∀ j cp n, codepointOf st1 j cp = Some n → codepointOf st j cp = Some n)
              ∧ take (length (glyfs st1)) (glyfs st) = glyfs st1)
  ∧ (∀ before icon after, icons = before ++ icon :: after →
       (∀ r, r ∈ requestsOf ffs iconToCodepoint icon →
             r ∈ before ≫= requestsOf ffs iconToCodepoint) →
       ∃ st1 st2,
         minify_run ffs before iconToCodepoint base = Ok st1
         ∧ minify_run ffs (before ++ [icon]) iconToCodepoint base = Ok st2
         ∧ glyfs st2 = glyfs st1
         ∧ oldCodepointsToNew st2 = oldCodepointsToNew st1
         ∧ newCodepoint_value st2 = newCodepoint_value st1).
Proof.
  intros Hbase Hrun.
  destruct (minify_run_props ffs base Hbase iconToCodepoint icons st Hrun) as (HI & HR & _).
  pose proof (Inv_unicode_NoDup ffs base st HI) as Hnd.
  split_and!.
  - intros j Hj. split_and!.
    + intros cp Hcp. apply requestedFrom_elem_of, HR in Hcp as [n Hn].
      exists n. split; [done|].
      rewrite (filter_fmap_length unicode (fun u => u = [n])).
      apply filter_eq_length_NoDup; [done|].
      destruct (Inv_glyph_of_codepoint ffs base st j cp n HI Hn)
        as (ff & f & g0 & rest & _ & _ & _ & Hg).
      apply list_elem_of_fmap. exists (set_unicode g0 [n]). split; [done|].
      by eapply list_elem_of_lookup_2.
    + intros cp Hcp. by apply requestedFrom_elem_of, HR.
    + unfold glyphsFor.
      destruct (proj2 (inv_dom _ _ _ HI j) Hj) as [m Hm]. rewrite Hm.
      assert (∀ cp n, m !! cp = Some n ↔ codepointOf st j cp = Some n) as Hmcp.
      { intros cp n. unfold codepointOf. by rewrite Hm. }
      rewrite (filter_fmap_length unicode
                 (fun u => u ∈ (fun r : Z * Z => [r.2]) <$> map_to_list m)).
      rewrite filter_elem_of_length_NoDup; [|done| |].
      * rewrite length_fmap, length_map_to_list, <-size_dom. f_equal.
        apply set_eq. intros cp. rewrite elem_of_dom, elem_of_list_to_set.
        rewrite requestedFrom_elem_of, <-(HR j cp). unfold codepointOf. by rewrite Hm.
      * apply NoDup_fmap_2_strong; [|apply NoDup_map_to_list].
        intros [cp1 n1] [cp2 n2] H1%elem_of_map_to_list H2%elem_of_map_to_list [= Heq].
        simpl in Heq. subst n2. apply Hmcp in H1, H2.
        by destruct (inv_inj _ _ _ HI _ _ _ _ _ H1 H2) as [_ ->].
      * intros u ([cp n] & -> & Hr%elem_of_map_to_list)%list_elem_of_fmap. simpl.
        apply Hmcp in Hr.
        destruct (Inv_glyph_of_codepoint ffs base st j cp n HI Hr)
          as (ff & f & g0 & rest & _ & _ & _ & Hg).
        apply list_elem_of_fmap. exists (set_unicode g0 [n]). split; [done|].
        by eapply list_elem_of_lookup_2.
  - intros g Hg. by apply (packed_glyph_owner ffs base st g).
  - by apply (glyph_count_is_pair_count ffs base iconToCodepoint icons st).
  - intros before after ->.
    destruct (minify_run_prefix ffs base Hbase iconToCodepoint before after st Hrun)
      as (st1 & H1 & HI1 & _ & Hg & _).
    exists st1. split_and!; [done|apply Hg|].
    by apply (grows_glyphs_prefix ffs base).
  - intros before icon after -> Hreq.
    replace (before ++ icon :: after) with ((before ++ [icon]) ++ after) in Hrun
      by (by rewrite <-app_assoc).
    destruct (minify_run_prefix ffs base Hbase iconToCodepoint (before ++ [icon]) after st Hrun)
      as (st2 & H2 & _).
    destruct (minify_run_prefix ffs base Hbase iconToCodepoint before [icon] st2 H2)
      as (st1 & H1 & _).
    exists st1, st2. split_and!; [done|done|..];
      by destruct (minify_run_repeat ffs base Hbase iconToCodepoint before icon st1 st2 H1 H2 Hreq)
        as (? & ? & ?).
Qed.

(** C7.  The counter starts at the base.  After a successful pass from a
    positive base: the counter is the base plus the number of packed glyphs,
    which is the number of distinct requested (descriptor, legacy codepoint)
    pairs, so it moved by one for each and by nothing else; the [unicode]
    fields of the packed glyphs are, in order, [[base]], [[base + 1]], ...;
    every recorded new codepoint lies in the range handed out, every value of
    the range is recorded for some pair, no value is recorded for two pairs,
    the glyph at a recorded codepoint is the clone of the descriptor's glyph
    with that sole codepoint, and selectors are registered under codepoints
    of the range only.  A further call of [addGlyph] on a descriptor holding
    the glyph returns the codepoint recorded for the pair and changes
    nothing, or, when none is recorded, returns the counter value, moves the
    counter by one, records the value for the pair alone and appends the
    clone with that sole codepoint.  At any state whatever, a call of
    [addGlyph] that returns either changes nothing and returns nothing or the
    non-zero codepoint recorded for the pair, or returns the counter value
    taken for a pair with no usable codepoint, recorded for it, with the
    counter moved by one and one glyph appended whose [unicode] is that value
    alone. *)
Theorem C7_codepoints_come_from_one_counter
    (ffs : list FontFace) (icons : list Icon) (iconToCodepoint : gmap string Z)
    (base : Z) (st : MinifyState) :
  0 < base →
  minify_run ffs icons iconToCodepoint base = Ok st →
  newCodepoint_value (initState ffs base) = base
  ∧ newCodepoint_value st = base + Z.of_nat (length (glyfs st))
  ∧ newCodepoint_value st
    = base + Z.of_nat (size (list_to_set (icons ≫= requestsOf ffs iconToCodepoint)
                               : gset (nat * Z)))
  ∧ unicode <$> glyfs st = (fun i : nat => [base + Z.of_nat i]) <$> seq 0 (length (glyfs st))
  ∧ (∀ j cp n, codepointOf st j cp = Some n → base ≤ n < newCodepoint_value st)
  ∧ (∀ n, base ≤ n < newCodepoint_value st → ∃ j cp, codepointOf st j cp = Some n)
  ∧ (∀ j cp j' cp' n,
       codepointOf st j cp = Some n → codepointOf st j' cp' = Some n → j = j' ∧ cp = cp')
  ∧ (∀ j cp n, codepointOf st j cp = Some n →
       ∃ ff f g0 rest,
         ffs !! j = Some ff ∧ font ff = Some f ∧ Font_find f [cp] = g0 :: rest
         ∧ glyfs st !! Z.to_nat (n - base) = Some (set_unicode g0 [n]))
  ∧ (∀ n, is_Some (newCodepointsToClasses st !! n) → base ≤ n < newCodepoint_value st)
  ∧ (∀ j ff f g0 rest cp,
       ffs !! j = Some ff → font ff = Some f → Font_find f [cp] = g0 :: rest →
       match codepointOf st j cp with
       | Some n => addGlyph (j, ff) cp st = Ok (Some n, st)
       | None =>
           ∃ st', addGlyph (j, ff) cp st = Ok (Some (newCodepoint_value st), st')
                  ∧ newCodepoint_value st' = newCodepoint_value st + 1
                  ∧ glyfs st' = glyfs st ++ [set_unicode g0 [newCodepoint_value st]]
                  ∧ codepointOf st' j cp = Some (newCodepoint_value st)
                  ∧ (∀ j' cp', (j', cp') ≠ (j, cp) →
                               codepointOf st' j' cp' = codepointOf st j' cp')
                  ∧ newCodepointsToClasses st' = newCodepointsToClasses st
       end)
  ∧ (∀ ff cp s r s', addGlyph ff cp s = Ok (r, s') →
       (s' = s
        ∧ (r = None ∨ ∃ n, r = Some n ∧ n ≠ 0 ∧ codepointOf s ff.1 cp = Some n))
       ∨ (r = Some (newCodepoint_value s)
          ∧ (codepointOf s ff.1 cp = None ∨ codepointOf s ff.1 cp = Some 0)
          ∧ codepointOf s' ff.1 cp = Some (newCodepoint_value s)
          ∧ newCodepoint_value s' = newCodepoint_value s + 1
          ∧ ∃ g0, glyfs s' = glyfs s ++ [set_unicode g0 [newCodepoint_value s]])).
Proof.
  intros Hbase Hrun.
  destruct (minify_run_props ffs base Hbase iconToCodepoint icons st Hrun) as (HI & HR & _).
  split_and!.
  - done.
  - apply (inv_counter _ _ _ HI).
  - rewrite (inv_counter _ _ _ HI).
    by rewrite (glyph_count_is_pair_count ffs base iconToCodepoint icons st).
  - by apply (Inv_unicode_seq ffs).
  - intros j cp n Hn. by eapply (Inv_allocated_pos ffs base).
  - intros n Hn. by apply (Inv_codepoint_of_index ffs base).
  - apply (inv_inj _ _ _ HI).
  - intros j cp n Hn. by apply (Inv_glyph_of_codepoint ffs base st j cp n HI).
  - intros n [sels Hn]. destruct (inv_keys _ _ _ HI _ _ Hn) as [_ (j & cp & Hcp)].
    by eapply (Inv_allocated_pos ffs base).
  - intros j ff f g0 rest cp Hj Hf Hfind.
    rewrite (addGlyph_allocOrReuse ffs base Hbase j ff f g0 rest cp st HI Hj Hf Hfind).
    assert (is_Some (oldCodepointsToNew st !! j)) as Hm
      by (apply (inv_dom _ _ _ HI); by eapply lookup_lt_Some).
    pose proof (codepointOf_alloc j g0 cp st) as Halloc.
    destruct (codepointOf st j cp) as [n|] eqn:Hcp.
    + unfold allocOrReuse. by rewrite Hcp.
    + eexists. split; [by unfold allocOrReuse; rewrite Hcp|]. simpl.
      split_and!; [done|done| | |done].
      * specialize (Halloc j cp eq_refl Hm). rewrite decide_True in Halloc by done.
        unfold allocOrReuse in Halloc. by rewrite Hcp in Halloc.
      * intros j' cp' Hne. specialize (Halloc j' cp' eq_refl Hm).
        rewrite decide_False in Halloc by (intros [-> ->]; done).
        unfold allocOrReuse in Halloc. by rewrite Hcp in Halloc.
  - intros ff cp s r s'. unfold addGlyph.
    destruct (font ff.2) as [f|]; [|done].
    destruct (Font_find f [cp]) as [|g0 rest]; [by intros [= <- <-]; left; split; [|left]|].
    unfold codepointOf.
    destruct (oldCodepointsToNew s !! ff.1) as [m|] eqn:Hm; [|done]. simpl.
    destruct (JS.falsy (m !! cp)) eqn:Hfalsy.
    + simpl. intros [= <- <-]. right. simpl. split_and!; [done| | |done|by eexists].
      * unfold JS.falsy in Hfalsy. destruct (m !! cp) as [n|]; [|by left].
        right. apply bool_decide_eq_true in Hfalsy. by subst.
      * rewrite lookup_insert_eq. simpl. apply lookup_insert_eq.
    + intros [= <- <-]. left. split; [done|]. right.
      unfold JS.falsy in Hfalsy. destruct (m !! cp) as [n|]; [|done].
      exists n. split_and!; [done| |done]. by apply bool_decide_eq_false in Hfalsy.
Qed.

(** C5.  In the multi-variant loop body, when descriptor [j] is the first in
    declaration order whose classes meet the icon's modifiers (others after it
    may meet them too), the step is the direct resolution from [j] alone.
    When it succeeds, the pair ([j], legacy codepoint) has a codepoint whose
    selector list gained the icon's selector, no other selector list and no
    other descriptor's map changed, and at most the clone of [j]'s glyph was
    packed.  It does succeed when [j] holds a glyph at the codepoint, at any
    state that has a map for [j] and a non-zero counter, as every state
    reached by the loop from a positive base has: the glyph is taken from [j], the first one
    its font finds at the codepoint; the pair keeps the non-zero codepoint it
    had, with nothing packed and the counter and the maps as they were, or,
    having none, gets the counter value, with the clone of [j]'s glyph packed
    last under that sole codepoint and the counter moved by one; the
    codepoints of all other pairs are as before.  When [j] has no glyph at the
    codepoint the step throws, whatever the other descriptors hold. *)
Theorem C5_first_intersecting_descriptor_supplies_the_glyph
    (ffs : list FontFace) (iconToCodepoint : gmap string Z) (st : MinifyState)
    (icon : Icon) (cp : Z) (j : nat) (ff : FontFace) :
  iconToCodepoint !! name icon = Some cp → cp ≠ 0 →
  ffs !! j = Some ff → hasIntersection ff icon = true →
  (∀ k ff', (k < j)%nat → ffs !! k = Some ff' → hasIntersection ff' icon = false) →
  minifyIconMulti ffs iconToCodepoint st icon = useFont icon cp st (j, ff)
  ∧ (∀ st', minifyIconMulti ffs iconToCodepoint st icon = Ok st' →
       ∃ f g0 rest n,
         font ff = Some f ∧ Font_find f [cp] = g0 :: rest
         ∧ codepointOf st' j cp = Some n
         ∧ newCodepointsToClasses st' !! n
           = Some (default [] (newCodepointsToClasses st !! n) ++ [toIconSelector icon])
         ∧ (∀ n', n' ≠ n → newCodepointsToClasses st' !! n' = newCodepointsToClasses st !! n')
         ∧ (∀ k, k ≠ j → oldCodepointsToNew st' !! k = oldCodepointsToNew st !! k)
         ∧ (glyfs st' = glyfs st ∨ glyfs st' = glyfs st ++ [set_unicode g0 [n]]))
  ∧ (hasGlyph ff cp = true →
     is_Some (oldCodepointsToNew st !! j) → newCodepoint_value st ≠ 0 →
       ∃ f g0 rest n st',
         font ff = Some f ∧ Font_find f [cp] = g0 :: rest
         ∧ minifyIconMulti ffs iconToCodepoint st icon = Ok st'
         ∧ codepointOf st' j cp = Some n ∧ n ≠ 0
         ∧ ((codepointOf st j cp = Some n
             ∧ glyfs st' = glyfs st
             ∧ oldCodepointsToNew st' = oldCodepointsToNew st
             ∧ newCodepoint_value st' = newCodepoint_value st)
            ∨ (JS.falsy (codepointOf st j cp) = true
               ∧ n = newCodepoint_value st
               ∧ glyfs st' = glyfs st ++ [set_unicode g0 [n]]
               ∧ newCodepoint_value st' = n + 1))
         ∧ newCodepointsToClasses st' !! n
           = Some (default [] (newCodepointsToClasses st !! n) ++ [toIconSelector icon])
         ∧ (∀ n', n' ≠ n → newCodepointsToClasses st' !! n' = newCodepointsToClasses st !! n')
         ∧ (∀ k cp', (k, cp') ≠ (j, cp) → codepointOf st' k cp' = codepointOf st k cp'))
  ∧ (∀ base processed,
       0 < base → isMultiVariant ffs = true →
       foldM (minifyIconMulti ffs iconToCodepoint) (initState ffs base) processed = Ok st →
       is_Some (oldCodepointsToNew st !! j) ∧ newCodepoint_value st ≠ 0)
  ∧ (hasGlyph ff cp = false →
       ∃ e, minifyIconMulti ffs iconToCodepoint st icon = Throw e).
Proof.
  intros Hcp Hnz Hj Hint Hfirst.
  assert (minifyIconMulti ffs iconToCodepoint st icon = useFont icon cp st (j, ff)) as Heq.
  { unfold minifyIconMulti.
    rewrite (proj2 (lookupCodepoint_Ok iconToCodepoint icon cp)) by done.
    cbn -[useFont expandInto].
    rewrite (filter_head_first _ (refs ffs) j (j, ff)); [done|by apply refs_lookup_Some| |].
    - simpl. by rewrite Hint.
    - intros k [k' ff'] Hk [Hk' Hff']%refs_lookup_index. simpl in *. subst k'.
      rewrite (Hfirst k ff' Hk Hff'). by intros ?. }
  split_and!; [done| | | |].
  - intros st'. rewrite Heq. intros Hst.
    destruct (useFont_cases _ _ _ _ _ _ Hst)
      as (f & g0 & rest & m & n & Hf & Hfind & Hm & Hn & [[Hmcp ->]|(Hfalsy & -> & ->)]).
    + exists f, g0, rest, n. split_and!; [done|done| | | |done|by left].
      * rewrite codepointOf_registerMapping. unfold codepointOf. by rewrite Hm.
      * by rewrite registerMapping_lookup, decide_True.
      * intros n' Hn'. by rewrite registerMapping_lookup, decide_False.
    + exists f, g0, rest, (newCodepoint_value st). split_and!; [done|done| | | | |by right].
      * rewrite codepointOf_registerMapping. unfold codepointOf. simpl.
        rewrite lookup_insert_eq. simpl. apply lookup_insert_eq.
      * by rewrite registerMapping_lookup, decide_True.
      * intros n' Hn'. by rewrite registerMapping_lookup, decide_False.
      * intros k Hk. simpl. by apply lookup_insert_ne.
  - intros Hhas [m Hm] Hcounter. rewrite Heq.
    unfold hasGlyph in Hhas. destruct (font ff) as [f|] eqn:Hf; [|done].
    apply bool_decide_eq_true in Hhas.
    destruct (Font_find f [cp]) as [|g0 rest] eqn:Hfind; [done|].
    unfold useFont, addGlyph. cbn [fst snd]. rewrite Hf, Hfind, Hm.
    unfold codepointOf at 2 3. rewrite Hm. cbn [mbind option_bind].
    destruct (JS.falsy (m !! cp)) eqn:Hfalsy.
    + cbn -[registerMapping]. rewrite bool_decide_eq_false_2 by done.
      exists f, g0, rest, (newCodepoint_value st). eexists.
      split_and!; [done|done|reflexivity| |done| | | |].
      * rewrite codepointOf_registerMapping. unfold codepointOf. simpl.
        rewrite lookup_insert_eq. simpl. apply lookup_insert_eq.
      * right. done.
      * by rewrite registerMapping_lookup, decide_True.
      * intros n' Hn'. by rewrite registerMapping_lookup, decide_False.
      * intros k cp' Hne. rewrite codepointOf_registerMapping. unfold codepointOf. simpl.
        destruct (decide (k = j)) as [->|Hk].
        -- rewrite lookup_insert_eq, Hm. simpl.
           apply lookup_insert_ne. intros ->. done.
        -- by rewrite lookup_insert_ne.
    + destruct (m !! cp) as [n|] eqn:Hn; [|done].
      assert (n ≠ 0) as Hn0
        by (unfold JS.falsy in Hfalsy; by apply bool_decide_eq_false in Hfalsy).
      cbn -[registerMapping]. rewrite bool_decide_eq_false_2 by done.
      exists f, g0, rest, n. eexists.
      split_and!; [done|done|reflexivity| |done| | | |].
      * rewrite codepointOf_registerMapping. unfold codepointOf. by rewrite Hm.
      * left. done.
      * by rewrite registerMapping_lookup, decide_True.
      * intros n' Hn'. by rewrite registerMapping_lookup, decide_False.
      * intros k cp' _. by rewrite codepointOf_registerMapping.
  - intros base processed Hbase Hm Hreach.
    destruct (foldM_steps ffs base iconToCodepoint
                (Forall (fun ff => clss ff ≠ []) ffs)
                (minifyIconMulti ffs iconToCodepoint)
                (fun p i s s' => minifyIconMulti_step ffs base Hbase iconToCodepoint p i s s' Hm)
                processed [] _ _ (Inv_init ffs base) (ReqInv_init ffs base iconToCodepoint) Hreach)
      as (HI & _ & _).
    split.
    + apply (inv_dom _ _ _ HI). by eapply lookup_lt_Some.
    + rewrite (inv_counter _ _ _ HI). lia.
  - intros Hhas. rewrite Heq. unfold useFont, addGlyph, hasGlyph in *. cbn [fst snd].
    destruct (font ff) as [f|]; [|by eexists].
    apply bool_decide_eq_false in Hhas.
    destruct (Font_find f [cp]) as [|g0 rest]; [by eexists|].
    exfalso. apply Hhas. done.
Qed.

(** C7 at the sample pass: seven requests for four distinct pairs take the
    codepoints 0xE000 to 0xE003 in order and leave the counter at 0xE004; a
    further request for a recorded pair returns its codepoint and changes
    nothing, one for a new pair takes 0xE004. *)
Lemma C7_codepoints_witness :
  ∃ st, minify_run [brands; solid] sampleIcons sampleTable defaultBase = Ok st
        ∧ newCodepoint_value st = defaultBase + Z.of_nat (length (glyfs st))
        ∧ newCodepoint_value st
          = defaultBase
            + Z.of_nat (size (list_to_set (sampleIcons ≫= requestsOf [brands; solid] sampleTable)
                                : gset (nat * Z)))
        ∧ unicode <$> glyfs st
          = (fun i : nat => [defaultBase + Z.of_nat i]) <$> seq 0 (length (glyfs st))
        ∧ newCodepoint_value st = 0xE004
        ∧ unicode <$> glyfs st = [[0xE000]; [0xE001]; [0xE002]; [0xE003]]
        ∧ newCodepointsToClasses st !! 0xE000 = Some [".fa-google.fab"]
        ∧ newCodepointsToClasses st !! 0xE003 = Some [".fa-home.fa-lg.fas"; ".fa-home.fas"]
        ∧ newCodepointsToClasses st !! 0xE004 = None
        ∧ addGlyph (1%nat, solid) 0xf015 st = Ok (Some 0xE003, st)
        ∧ ∃ st', addGlyph (1%nat, solid) 0xf007 st = Ok (Some 0xE004, st')
                 ∧ glyfs st' = glyfs st ++ [set_unicode (sampleGlyph 0xf007 "user") [0xE004]]
                 ∧ newCodepoint_value st' = 0xE005.
Proof.
  eexists. split; [vm_compute; reflexivity|].
  match goal with
  | |- context [glyfs ?st] =>
      destruct (C7_codepoints_come_from_one_counter
                  [brands; solid] sampleIcons sampleTable defaultBase st)
        as (_ & Hcounter & Hpairs & Hunicode & _)
  end.
  - reflexivity.
  - vm_compute; reflexivity.
  - split; [exact Hcounter|]. split; [exact Hpairs|]. split; [exact Hunicode|].
    repeat split; try (vm_compute; reflexivity).
    eexists. repeat split; vm_compute; reflexivity.
Defined.

(** C1 at the sample pass: seven requests for four distinct pairs pack four
    glyphs; the star is packed once for each of the two descriptors holding
    it, each under its own codepoint. *)
Lemma C1_dedup_witness :
  ∃ st, minify_run [brands; solid] sampleIcons sampleTable defaultBase = Ok st
        ∧ length (glyphsFor st 1)
          = size (list_to_set (requestedFrom [brands; solid] sampleTable sampleIcons 1) : gset Z)
        ∧ length (glyphsFor st 1) = 2%nat
        ∧ length (requestedFrom [brands; solid] sampleTable sampleIcons 1) = 4%nat
        ∧ length (glyfs st)
          = size (list_to_set (sampleIcons ≫= requestsOf [brands; solid] sampleTable)
                    : gset (nat * Z))
        ∧ length (glyfs st) = 4%nat
        ∧ length (sampleIcons ≫= requestsOf [brands; solid] sampleTable) = 7%nat
        ∧ glyph_name <$> glyfs st = ["google"; "star"; "star"; "home"]
        ∧ codepointOf st 0 0xf005 = Some 0xE001
        ∧ codepointOf st 1 0xf005 = Some 0xE002.
Proof.
  eexists. split; [vm_compute; reflexivity|].
  match goal with
  | |- context [glyphsFor ?st _] =>
      destruct (C1_one_new_codepoint_and_one_glyph_per_requested_codepoint
                  [brands; solid] sampleIcons sampleTable defaultBase st
                  eq_refl)
        as (Hper & _ & Htotal & _)
  end.
  - vm_compute; reflexivity.
  - destruct (Hper 1%nat) as (_ & _ & Hcount); [simpl; lia|].
    split; [exact Hcount|]. do 2 (split; [vm_compute; reflexivity|]).
    split; [exact Htotal|]. repeat split; vm_compute; reflexivity.
Defined.

(** C5 at an icon whose modifiers meet the second and the third of three
    descriptors, the third's class coming first among the modifiers: the
    glyph packed is the second descriptor's, and a later icon resolved from
    that descriptor reuses its codepoint. *)
Lemma C5_first_descriptor_witness :
  ∃ st' st'',
    minifyIconMulti [brands; regular; solid] sampleTable
      (initState [brands; regular; solid] defaultBase) (mkIcon "fa-star" ["fas"; "far"])
    = Ok st'
    ∧ useFont (mkIcon "fa-star" ["fas"; "far"]) 0xf005
        (initState [brands; regular; solid] defaultBase) (1%nat, regular)
      = Ok st'
    ∧ glyfs st' = [set_unicode (sampleGlyph 0xf005 "star-outline") [0xE000]]
    ∧ codepointOf st' 1 0xf005 = Some 0xE000
    ∧ codepointOf st' 2 0xf005 = None
    ∧ newCodepointsToClasses st' !! 0xE000 = Some [".fa-star.fas.far"]
    ∧ newCodepoint_value st' = 0xE001
    ∧ minifyIconMulti [brands; regular; solid] sampleTable st'
        (mkIcon "fa-star" ["fa-lg"; "far"])
      = Ok st''
    ∧ glyfs st'' = glyfs st'
    ∧ newCodepoint_value st'' = 0xE001
    ∧ newCodepointsToClasses st'' !! 0xE000
      = Some [".fa-star.fas.far"; ".fa-star.fa-lg.far"].
Proof.
  do 2 eexists. split; [vm_compute; reflexivity|].
  destruct (C5_first_intersecting_descriptor_supplies_the_glyph
              [brands; regular; solid] sampleTable
              (initState [brands; regular; solid] defaultBase)
              (mkIcon "fa-star" ["fas"; "far"]) 0xf005 1 regular)
    as (Heq & _).
  - vm_compute; reflexivity.
  - discriminate.
  - reflexivity.
  - vm_compute; reflexivity.
  - intros k ff' Hk. destruct k as [|k]; [|lia].
    intros Hff'. injection Hff' as <-. vm_compute; reflexivity.
  - split; [rewrite <-Heq; vm_compute; reflexivity|].
    repeat split; vm_compute; reflexivity.
Defined.

(** ** The association of classes with font faces *)

Lemma filter_ext_in {A} (P1 P2 : A → Prop)
    `{!∀ x, Decision (P1 x), !∀ x, Decision (P2 x)} (l : list A) :
  (∀ x, x ∈ l → P1 x ↔ P2 x) → filter P1 l = filter P2 l.
Proof.
  induction l as [|a l IH]; intros Hiff; [done|].
  rewrite !filter_cons, IH by (intros x Hx; apply Hiff; by right).
  destruct (decide (P1 a)) as [H1|H1], (decide (P2 a)) as [H2|H2]; try done.
  - destruct H2. apply Hiff; [by left|done].
  - destruct H1. apply Hiff; [by left|done].
Qed.

Lemma associate_inner (log : list string) (ff : FontFace) (vc : list (string * FontFace))
    (matched : list string) :
  ∃ log',
    foldl (fun '(log, ff, vc) cls =>
             (log ++ ["Associated class " +:+ cls +:+ " with font face "
                      +:+ family ff +:+ ", " +:+ FontStyle_str (style ff)
                      +:+ ", " +:+ FontWeight_str (weight ff) +:+ "."],
              push_cls ff cls, Map_delete cls vc))
          (log, ff, vc) matched
    = (log',
       mkFontFace (family ff) (style ff) (weight ff) (srcs ff) (clss ff ++ matched) (font ff),
       filter (fun kv : string * FontFace => kv.1 ∉ matched) vc).
Proof.
  revert log ff vc. induction matched as [|cls matched IH]; intros log ff vc.
  - exists log. cbn [foldl]. rewrite app_nil_r. destruct ff. cbn. f_equal.
    symmetry. apply filter_all, Forall_forall. intros kv _. apply not_elem_of_nil.
  - cbn [foldl]. edestruct IH as [log' ->]. exists log'.
    cbn [family style weight srcs clss font push_cls].
    rewrite <-app_assoc. f_equal. unfold Map_delete. rewrite list_filter_filter.
    apply list_filter_iff. intros kv. rewrite not_elem_of_cons. tauto.
Qed.

Lemma matched_keys (P : string * FontFace → Prop) `{!∀ kv, Decision (P kv)}
    (vc : list (string * FontFace)) :
  NoDup vc.*1 →
  filter (fun kv : string * FontFace => kv.1 ∉ (filter P vc).*1) vc
  = filter (fun kv => ¬ P kv) vc.
Proof.
  intros Hnd. apply filter_ext_in. intros [k v] Hkv. simpl. split.
  - intros Hnot HP. apply Hnot. apply list_elem_of_fmap. exists (k, v).
    split; [done|]. by apply list_elem_of_filter.
  - intros HnP ([k' v'] & Hk & [HP Hin]%list_elem_of_filter)%list_elem_of_fmap.
    simpl in Hk. subst k'. apply HnP.
    assert (v' = v) as <-; [|done].
    apply list_elem_of_lookup in Hkv as [i Hi]. apply list_elem_of_lookup in Hin as [i' Hi'].
    assert (i' = i) as ->.
    { eapply NoDup_lookup; [exact Hnd| |]; rewrite list_lookup_fmap.
      - by rewrite Hi'.
      - by rewrite Hi. }
    congruence.
Qed.

Lemma associateClasses_spec (fontFaces : list FontFace)
    (variantClasses : list (string * FontFace)) :
  NoDup variantClasses.*1 →
  ∃ log,
    associateClasses fontFaces variantClasses
    = (log,
       imap (fun j ff =>
               mkFontFace (family ff) (style ff) (weight ff) (srcs ff)
                 (clss ff ++ attachedClasses fontFaces variantClasses j ff) (font ff))
            fontFaces,
       filter (fun kv : string * FontFace => Forall (fun ff => ¬ sameFace ff kv.2) fontFaces)
              variantClasses).
Proof.
  intros Hnd. induction fontFaces as [|ff pre IH] using rev_ind.
  - exists []. unfold associateClasses. cbn [foldl imap]. do 2 f_equal.
    symmetry. apply filter_all, Forall_forall. intros kv _. constructor.
  - destruct IH as [log IH]. unfold associateClasses in *. rewrite foldl_app, IH.
    cbn [foldl].
    set (vc := filter (fun kv : string * FontFace => Forall (fun ff0 => ¬ sameFace ff0 kv.2) pre)
                      variantClasses).
    destruct (associate_inner log ff vc
                (filter (fun kv : string * FontFace => sameFace ff kv.2) vc).*1) as [log' ->].
    exists log'. f_equal; [f_equal|].
    + rewrite imap_app. cbn [imap]. f_equal.
      * apply imap_ext. intros j ff0 Hj. do 2 f_equal. unfold attachedClasses.
        rewrite take_app_le; [done|]. apply lookup_lt_Some in Hj. lia.
      * do 3 f_equal. unfold attachedClasses, vc.
        rewrite Nat.add_0_r, take_app_length, list_filter_filter. done.
    + rewrite matched_keys.
      * unfold vc. rewrite list_filter_filter. apply list_filter_iff. intros kv.
        rewrite Forall_app, Forall_singleton. tauto.
      * unfold vc. eapply sublist_NoDup; [exact Hnd|].
        apply fmap_sublist, sublist_filter.
Qed.

(** X10.  The association loop keeps the descriptors and their order,
    changes nothing but their class lists, appends to the descriptor at
    position [j] the candidates whose family, style and weight are its own
    and those of no earlier descriptor, leaves in the map the candidates
    matching no descriptor, and attaches a class to at most one
    descriptor. *)
Theorem X10_classes_attach_to_the_first_face_with_equal_triple
    (fontFaces : list FontFace) (variantClasses : list (string * FontFace)) :
  NoDup variantClasses.*1 →
  let '(_, associated, left_over) := associateClasses fontFaces variantClasses in
  length associated = length fontFaces
  ∧ (∀ j ff, fontFaces !! j = Some ff →
       ∃ ff', associated !! j = Some ff'
         ∧ family ff' = family ff ∧ style ff' = style ff ∧ weight ff' = weight ff
         ∧ srcs ff' = srcs ff ∧ font ff' = font ff
         ∧ clss ff' = clss ff ++ attachedClasses fontFaces variantClasses j ff)
  ∧ left_over
    = filter (fun kv : string * FontFace => Forall (fun ff => ¬ sameFace ff kv.2) fontFaces)
             variantClasses
  ∧ (∀ cls j1 ff1 j2 ff2,
       fontFaces !! j1 = Some ff1 → fontFaces !! j2 = Some ff2 →
       cls ∈ attachedClasses fontFaces variantClasses j1 ff1 →
       cls ∈ attachedClasses fontFaces variantClasses j2 ff2 →
       j1 = j2).
Proof.
  intros Hnd. destruct (associateClasses_spec fontFaces variantClasses Hnd) as [log ->].
  split_and!.
  - by rewrite length_imap.
  - intros j ff Hj. eexists. rewrite list_lookup_imap, Hj. simpl. split_and!; done.
  - done.
  - intros cls j1 ff1 j2 ff2 H1 H2.
    unfold attachedClasses.
    intros ([k1 v1] & Hk1 & [[Hs1 Hf1] Hin1]%list_elem_of_filter)%list_elem_of_fmap.
    intros ([k2 v2] & Hk2 & [[Hs2 Hf2] Hin2]%list_elem_of_filter)%list_elem_of_fmap.
    simpl in *. subst k1 k2.
    assert (v1 = v2) as <-.
    { apply list_elem_of_lookup in Hin1 as [i1 Hi1]. apply list_elem_of_lookup in Hin2 as [i2 Hi2].
      assert (i1 = i2) as ->; [|congruence].
      eapply NoDup_lookup; [exact Hnd| |]; rewrite list_lookup_fmap.
      - by rewrite Hi1.
      - by rewrite Hi2. }
    destruct (Nat.lt_trichotomy j1 j2) as [Hlt|[->|Hlt]]; [|done|].
    + exfalso. apply (Forall_lookup_1 _ _ j1 ff1) in Hf2; [done|].
      by rewrite lookup_take_lt.
    + exfalso. apply (Forall_lookup_1 _ _ j2 ff2) in Hf1; [done|].
      by rewrite lookup_take_lt.
Qed.

(** ** Splitting on a character *)

Lemma split_char_not_nil (sep : ascii) (s : string) : JS.split_char sep s ≠ [].
Proof.
  induction s as [|c s IH]; [done|]. cbn [JS.split_char].
  destruct (Ascii.eqb c sep); [done|]. by destruct (JS.split_char sep s).
Qed.

Lemma split_char_tokens_avoid (sep : ascii) (s : string) :
  Forall (fun t => str_avoids (Ascii.eqb sep) t = true) (JS.split_char sep s).
Proof.
  induction s as [|c s IH]; [by repeat constructor|]. cbn [JS.split_char].
  destruct (Ascii.eqb c sep) eqn:Hc; [by constructor|].
  destruct (JS.split_char sep s) as [|t ts]; [repeat constructor|].
  - cbn [str_avoids]. by rewrite Ascii.eqb_sym, Hc.
  - inversion IH; subst. constructor; [|done]. cbn [str_avoids].
    rewrite Ascii.eqb_sym, Hc. done.
Qed.

Lemma join_cons2 (sep x y : string) (l : list string) :
  JS.join sep (x :: y :: l) = x +:+ sep +:+ JS.join sep (y :: l).
Proof. done. Qed.

Lemma join_split_char (sep : ascii) (s : string) :
  JS.join (String sep "") (JS.split_char sep s) = s.
Proof.
  induction s as [|c s IH]; [done|]. cbn [JS.split_char].
  destruct (Ascii.eqb_spec c sep) as [->|Hne].
  - pose proof (split_char_not_nil sep s) as Hnil.
    destruct (JS.split_char sep s) as [|t ts]; [done|].
    rewrite join_cons2, IH. done.
  - destruct (JS.split_char sep s) as [|t ts] eqn:Hs; [by apply split_char_not_nil in Hs|].
    destruct ts as [|t' ts].
    + unfold JS.join in *. cbn [String.concat] in *. by rewrite IH.
    + rewrite join_cons2 in *. rewrite str_app_cons. by rewrite IH.
Qed.

Lemma join_snoc (sep : string) (l : list string) (e : string) :
  l ≠ [] → JS.join sep (l ++ [e]) = JS.join sep l +:+ sep +:+ e.
Proof.
  induction l as [|x l IH]; [done|]. intros _. destruct l as [|y l].
  - done.
  - cbn [app]. rewrite !join_cons2. cbn [app] in IH. rewrite IH by done.
    by rewrite !str_app_assoc.
Qed.

Lemma split_char_app_sep (sep : ascii) (a b : string) :
  JS.split_char sep (a +:+ String sep b) = JS.split_char sep a ++ JS.split_char sep b.
Proof.
  induction a as [|c a IH].
  - rewrite str_app_nil_l. cbn [JS.split_char]. by rewrite Ascii.eqb_refl.
  - rewrite str_app_cons. cbn [JS.split_char]. rewrite IH.
    destruct (Ascii.eqb c sep); [done|].
    pose proof (split_char_not_nil sep a) as Hnil.
    by destruct (JS.split_char sep a).
Qed.

Lemma extensionOf_Some (filename ext : string) :
  extensionOf filename = Some ext
  ↔ ext ≠ "" ∧ str_avoids (Ascii.eqb ".") ext = true
    ∧ ∃ stem, filename = stem +:+ "." +:+ ext.
Proof.
  unfold extensionOf. split.
  - destruct (last (JS.split_char "." filename)) as [e|] eqn:Hlast; [|done].
    destruct (bool_decide (e = "")) eqn:H1; [done|].
    destruct (bool_decide (e = filename)) eqn:H2; [done|]. intros [= ->].
    apply bool_decide_eq_false in H1, H2.
    apply last_Some in Hlast as [init Hsplit].
    pose proof (split_char_tokens_avoid "." filename) as Havoid.
    rewrite Hsplit in Havoid. apply Forall_app in Havoid as [_ Havoid].
    inversion Havoid as [|? ? Hext _]; subst. clear Havoid.
    pose proof (join_split_char "." filename) as Hjoin. rewrite Hsplit in Hjoin.
    split_and!; [done|done|].
    destruct init as [|x init]; [by destruct H2|].
    rewrite join_snoc in Hjoin by done. eauto.
  - intros (Hne & Havoid & stem & ->).
    rewrite str_app_cons, str_app_nil_l, split_char_app_sep.
    rewrite (split_char_avoids "." ext Havoid), last_snoc.
    rewrite bool_decide_eq_false_2 by done.
    rewrite bool_decide_eq_false_2; [done|].
    intros Heq. apply (f_equal String.length) in Heq.
    rewrite str_length_app in Heq. simpl in Heq. lia.
Qed.

(** ** Crawler *)

(** X12.  A directory entry has the extension [ext] exactly when [ext] is
    non-empty, holds no dot and the entry is some stem, a dot and [ext]; an
    entry without a dot and an entry ending in a dot have none. *)
Theorem X12_extension_is_the_part_after_the_last_dot (filename : string) :
  (∀ ext, extensionOf filename = Some ext
          ↔ ext ≠ "" ∧ str_avoids (Ascii.eqb ".") ext = true
            ∧ ∃ stem, filename = stem +:+ "." +:+ ext)
  ∧ (str_avoids (Ascii.eqb ".") filename = true → extensionOf filename = None)
  ∧ extensionOf (filename +:+ ".") = None.
Proof.
  split_and!.
  - intros ext. apply extensionOf_Some.
  - intros Havoid. unfold extensionOf. rewrite (split_char_avoids "." filename Havoid).
    cbn [last]. rewrite (bool_decide_eq_true_2 (filename = filename)) by done.
    by rewrite orb_true_r.
  - unfold extensionOf. rewrite split_char_app_sep. cbn [JS.split_char].
    by rewrite last_snoc.
Qed.

Lemma indexedTotal_push (m : gmap string (list string)) (k file : string) :
  indexedTotal (<[k := default [] (m !! k) ++ [file]]> m) = S (indexedTotal m).
Proof.
  unfold indexedTotal.
  assert (∀ (m' : gmap string (list string)) (j1 j2 : string) (z1 z2 : list string) (y : nat),
             j1 ≠ j2 → m' !! j1 = Some z1 → m' !! j2 = Some z2 →
             (length z1 + (length z2 + y) = length z2 + (length z1 + y))%nat) as Hcomm
    by (intros; lia).
  destruct (m !! k) as [l|] eqn:Hk.
  - rewrite <-(insert_delete_id m k l Hk) at 2. rewrite <-insert_delete_eq.
    rewrite (map_fold_insert_L _ _ k (default [] (Some l) ++ [file]) (delete k m));
      [|by eauto|by rewrite lookup_delete_eq].
    rewrite (map_fold_insert_L _ _ k l (delete k m));
      [|by eauto|by rewrite lookup_delete_eq].
    cbn [from_option id]. rewrite length_app. simpl. lia.
  - rewrite map_fold_insert_L; [|by eauto|done]. simpl. lia.
Qed.

Lemma indexFiles_snoc (path_join : string → string → string)
    (fileMap : gmap string (list string)) (directory : string) (exts files : list string)
    (filename : string) :
  (indexFiles path_join fileMap directory exts (files ++ [filename])).1
  = let m := (indexFiles path_join fileMap directory exts files).1 in
    match extensionOf filename with
    | Some ext =>
        if bool_decide (ext ∈ exts)
        then <[ext := default [] (m !! ext) ++ [path_join directory filename]]> m
        else m
    | None => m
    end.
Proof. unfold indexFiles. cbn [fst]. by rewrite foldl_app. Qed.

Lemma indexFiles_lookup (path_join : string → string → string)
    (fileMap : gmap string (list string)) (directory : string) (exts files : list string)
    (ext : string) :
  (indexFiles path_join fileMap directory exts files).1 !! ext
  = if decide (ext ∈ exts ∧ filesWith path_join directory files ext ≠ [])
    then Some (default [] (fileMap !! ext) ++ filesWith path_join directory files ext)
    else fileMap !! ext.
Proof.
  induction files as [|filename files IH] using rev_ind.
  - unfold filesWith. cbn. by rewrite decide_False by (by intros [_ ?]).
  - rewrite indexFiles_snoc. cbv zeta. unfold filesWith in *.
    rewrite filter_app, fmap_app.
    destruct (extensionOf filename) as [e|] eqn:He.
    + case_bool_decide as Hin.
      * destruct (decide (e = ext)) as [->|Hne].
        -- rewrite lookup_insert_eq, IH.
           rewrite filter_cons_True, filter_nil by done. cbn [fmap list_fmap].
           rewrite (decide_True (P := _ ∧ _ ++ _ ≠ [])) by (split; [done|by intros [_ ?]%app_eq_nil]).
           case_decide as Hd; cbn [from_option id].
           ++ by rewrite <-app_assoc.
           ++ assert (path_join directory <$> filter (λ f, extensionOf f = Some ext) files = [])
                as ->.
              { destruct (path_join directory <$> filter (λ f, extensionOf f = Some ext) files)
                  as [|y l] eqn:Hl; [done|]. destruct Hd. by split. }
              by destruct (fileMap !! ext).
        -- rewrite lookup_insert_ne, IH by done.
           rewrite filter_cons_False, filter_nil by congruence. cbn [fmap list_fmap].
           by rewrite app_nil_r.
      * rewrite IH. destruct (decide (e = ext)) as [->|Hne].
        -- rewrite !decide_False by tauto. done.
        -- rewrite filter_cons_False, filter_nil by congruence. cbn [fmap list_fmap].
           by rewrite app_nil_r.
    + rewrite IH. rewrite filter_cons_False, filter_nil by congruence. cbn [fmap list_fmap].
      by rewrite app_nil_r.
Qed.

Lemma indexFiles_total (path_join : string → string → string)
    (fileMap : gmap string (list string)) (directory : string) (exts files : list string) :
  (indexFiles path_join fileMap directory exts files).2
  = (indexedTotal fileMap + length (filter (fun f => indexable exts f = true) files))%nat.
Proof.
  assert (∀ fs, (indexFiles path_join fileMap directory exts fs).2
                = indexedTotal (indexFiles path_join fileMap directory exts fs).1) as Hsnd by done.
  induction files as [|filename files IH] using rev_ind.
  - cbn. lia.
  - rewrite Hsnd, indexFiles_snoc. cbv zeta. rewrite Hsnd in IH.
    rewrite filter_app, length_app.
    assert (indexable exts filename
            = match extensionOf filename with
              | Some e => bool_decide (e ∈ exts) | None => false end) as Hix by done.
    destruct (extensionOf filename) as [e|] eqn:He.
    + case_bool_decide as Hin.
      * rewrite indexedTotal_push, IH.
        rewrite (filter_cons_True (λ f, indexable exts f = true)) by done.
        rewrite filter_nil. simpl. lia.
      * rewrite IH. rewrite (filter_cons_False (λ f, indexable exts f = true)) by by rewrite Hix.
        rewrite filter_nil. simpl. lia.
    + rewrite IH. rewrite (filter_cons_False (λ f, indexable exts f = true)) by by rewrite Hix.
      rewrite filter_nil. simpl. lia.
Qed.

(** X13.  After [indexFiles], an extension asked for and borne by some
    entry maps to its earlier list followed by the joined paths of its
    entries in listing order; every other key is as before.  The number
    written is the earlier total plus the number of entries stored.  An
    extension asked for that no entry bears gets no key, and a key created by
    the call has a non-empty list. *)
Theorem X13_indexFiles_groups_the_listing_by_extension
    (path_join : string → string → string) (fileMap : gmap string (list string))
    (directory : string) (exts files : list string) :
  let result := indexFiles path_join fileMap directory exts files in
  (∀ ext, result.1 !! ext
          = if decide (ext ∈ exts ∧ filesWith path_join directory files ext ≠ [])
            then Some (default [] (fileMap !! ext) ++ filesWith path_join directory files ext)
            else fileMap !! ext)
  ∧ result.2 = (indexedTotal fileMap
                + length (filter (fun f => indexable exts f = true) files))%nat
  ∧ (∀ ext, ext ∈ exts → fileMap !! ext = None →
            Forall (fun f => extensionOf f ≠ Some ext) files → result.1 !! ext = None)
  ∧ (∀ ext l, result.1 !! ext = Some l → fileMap !! ext = None → l ≠ []).
Proof.
  intros result. unfold result. split_and!.
  - intros ext. apply indexFiles_lookup.
  - apply indexFiles_total.
  - intros ext Hin Hnone Hall. rewrite indexFiles_lookup. rewrite decide_False; [done|].
    intros [_ Hne]. apply Hne. unfold filesWith.
    rewrite (filter_none _ files); [done|]. done.
  - intros ext l. rewrite indexFiles_lookup. case_decide as Hd.
    + intros [= <-] ->. cbn [from_option id app]. tauto.
    + by intros -> ?.
Qed.

Lemma checkIfIndexed_spec (fileMap : gmap string (list string)) (exts : list string) :
  checkIfIndexed fileMap exts
  = (fun r : nat * string => UnknownExtension r.2)
      <$> list_find (fun ext => fileMap !! ext = None) exts.
Proof.
  induction exts as [|ext exts IH]; [done|]. cbn [checkIfIndexed list_find].
  destruct (fileMap !! ext) as [l|] eqn:Hl.
  - rewrite decide_False by done. rewrite IH.
    by destruct (list_find _ exts) as [[??]|].
  - by rewrite decide_True by done.
Qed.

Lemma indexed_lookup_None (path_join : string → string → string)
    (directory : string) (exts files : list string) (ext : string) :
  (indexFiles path_join ∅ directory exts files).1 !! ext = None
  ↔ ext ∉ exts ∨ Forall (fun f => extensionOf f ≠ Some ext) files.
Proof.
  rewrite indexFiles_lookup, lookup_empty. unfold filesWith. case_decide as Hd.
  - split; [done|]. destruct Hd as [Hin Hne]. intros [?|Hall]; [done|].
    destruct Hne. by rewrite (filter_none _ files).
  - split; [|done]. intros _. destruct (decide (ext ∈ exts)) as [Hin|]; [|by left].
    right. apply Forall_forall. intros f Hf Hext. apply Hd. split; [done|].
    intros Hnil%fmap_nil_inv.
    assert (f ∈ filter (fun f => extensionOf f = Some ext) files) as Hmem
      by (by apply list_elem_of_filter).
    rewrite Hnil in Hmem. by apply elem_of_nil in Hmem.
Qed.

Lemma indexed_lookup_default (path_join : string → string → string)
    (directory : string) (exts files : list string) (ext : string) :
  ext ∈ exts →
  default [] ((indexFiles path_join ∅ directory exts files).1 !! ext)
  = path_join directory <$> filter (fun f => extensionOf f = Some ext) files.
Proof.
  intros Hin. rewrite indexFiles_lookup, lookup_empty. unfold filesWith.
  case_decide as Hd; [done|]. cbn.
  destruct (path_join directory <$> filter (λ f, extensionOf f = Some ext) files)
    as [|y l] eqn:Hl; [done|]. destruct Hd. by split.
Qed.

Lemma bind_fmap_list {A B C} (f : A → B) (g : B → list C) (l : list A) :
  (f <$> l) ≫= g = l ≫= fun x => g (f x).
Proof. induction l as [|x l IH]; [done|]. by rewrite fmap_cons, !bind_cons, IH. Qed.

(** X14.  On a crawler that has indexed one listing, [findByRegex] throws
    the unknown-extension error for the first scanned extension that was not
    asked for at indexing or that no entry bears; otherwise it returns the
    matches of the files, by scanned extension and then in listing order. *)
Theorem X14_scan_throws_on_the_first_extension_without_an_indexed_file
    (path_join : string → string → string) (readFile : string → string)
    (matchOf : string → list string) (directory : string) (exts files scanned : list string) :
  let fileMap := (indexFiles path_join ∅ directory exts files).1 in
  findByRegex readFile matchOf fileMap scanned
  = match list_find (fun ext => ext ∉ exts
                                ∨ Forall (fun f => extensionOf f ≠ Some ext) files) scanned with
    | Some (_, ext) => inl (UnknownExtension ext)
    | None =>
        inr (scanned ≫= fun ext =>
               filter (fun f => extensionOf f = Some ext) files ≫= fun f =>
                 matchOf (readFile (path_join directory f)))
    end.
Proof.
  intros fileMap. unfold findByRegex. rewrite checkIfIndexed_spec.
  rewrite (list_find_ext _ (fun ext => ext ∉ exts
                              ∨ Forall (fun f => extensionOf f ≠ Some ext) files))
    by (intros ext; apply indexed_lookup_None).
  destruct (list_find _ scanned) as [[i ext]|] eqn:Hfind; [done|].
  cbn [fmap option_fmap option_map].
  f_equal. apply list_find_None in Hfind.
  induction Hfind as [|ext scanned Hext _ IH]; [done|].
  rewrite !bind_cons, IH. f_equal. unfold fileMap.
  rewrite indexed_lookup_default, bind_fmap_list; [done|].
  destruct (decide (ext ∈ exts)); [done|]. destruct Hext. by left.
Qed.

(** X15.  Step 1 of [IconMinifier.minify] returns a list of style sheets
    (possibly empty, the nothing-to-do case) only when [html] is among the
    configured extensions and the directory holds an entry with that
    extension; otherwise it throws the unknown-extension error for [html]. *)
Theorem X15_step1_needs_an_indexed_html_file
    (path_join : string → string → string) (readFile : string → string)
    (cssMatchOf : string → string → list string) (directory : string)
    (exts files : list string) :
  minify_step1 path_join readFile cssMatchOf directory exts files
  = if decide ("html" ∈ exts ∧ Exists (fun f => extensionOf f = Some "html") files)
    then inr (JS.Set_from
                (filter (fun f => extensionOf f = Some "html") files ≫= fun f =>
                   cssMatchOf "font-?awesome" (readFile (path_join directory f))))
    else inl (UnknownExtension "html").
Proof.
  unfold minify_step1, findCssFiles, cssFilePatterns. cbn [foldl].
  unfold findByRegex. cbn [checkIfIndexed].
  destruct ((indexFiles path_join ∅ directory exts files).1 !! "html") as [l|] eqn:Hl.
  - assert ("html" ∈ exts ∧ Exists (fun f => extensionOf f = Some "html") files) as Hd.
    { destruct (decide ("html" ∈ exts)) as [Hin|Hin].
      - split; [done|].
        destruct (decide (Exists (fun f => extensionOf f = Some "html") files))
          as [Hex|Hnex]; [done|].
        apply not_Exists_Forall in Hnex; [|apply _].
        assert ((indexFiles path_join ∅ directory exts files).1 !! "html" = None) as Hnone
          by (apply indexed_lookup_None; by right).
        congruence.
      - assert ((indexFiles path_join ∅ directory exts files).1 !! "html" = None) as Hnone
          by (apply indexed_lookup_None; by left).
        congruence. }
    rewrite decide_True by done.
    by rewrite bind_singleton, indexed_lookup_default, bind_fmap_list by tauto.
  - rewrite decide_False; [done|]. intros [Hin Hex].
    apply indexed_lookup_None in Hl as [?|Hall]; [done|].
    apply Exists_exists in Hex as (f & Hf & Hext). by eapply Forall_forall in Hall.
Qed.

(** ** Paths and URLs *)

Lemma includes_char_avoids (s : string) (c : ascii) :
  includes_char s c = negb (str_avoids (Ascii.eqb c) s).
Proof.
  induction s as [|c' s IH]; [done|]. cbn [includes_char str_avoids].
  rewrite IH, (Ascii.eqb_sym c' c). by destruct (Ascii.eqb c c'), (str_avoids _ s).
Qed.

Lemma split_char_head (sep : ascii) (s : string) :
  ∃ h rest, JS.split_char sep s = h :: rest
            ∧ str_avoids (Ascii.eqb sep) h = true
            ∧ (s = h ∨ ∃ tl, s = h +:+ String sep tl).
Proof.
  induction s as [|c s (h & rest & Hs & Hav & Heq)].
  - exists "", []. split_and!; [done|done|by left].
  - cbn [JS.split_char]. destruct (Ascii.eqb_spec c sep) as [->|Hne].
    + exists "", (JS.split_char sep s). split_and!; [done|done|]. right. by exists s.
    + rewrite Hs. exists (String c h), rest. split_and!; [done| |].
      * cbn [str_avoids]. rewrite Hav.
        destruct (Ascii.eqb_spec sep c) as [->|]; [done|done].
      * destruct Heq as [->|[tl ->]]; [by left|]. right. exists tl. by rewrite str_app_cons.
Qed.

(** X16.  [isRelativePath] holds exactly for the strings that neither start
    with a slash nor are URLs (its first two tests add nothing); a URL is
    neither relative nor rooted, and [isURL] holds exactly for the strings
    that start with [http:] or [https:]. *)
Theorem X16_relative_paths_are_those_not_rooted_and_not_urls (str : string) :
  isRelativePath str = negb (startsWith str "/") && negb (isURL str)
  ∧ (isURL str = true → isRelativePath str = false ∧ startsWith str "/" = false)
  ∧ (isURL str = true ↔ ∃ rest, str = "http:" +:+ rest ∨ str = "https:" +:+ rest).
Proof.
  assert (∀ p s, startsWith s p = true ↔ ∃ rest, s = p +:+ rest) as Hprefix.
  { intros p s. unfold startsWith. revert s. induction p as [|c p IH]; intros s.
    - split; [|by destruct s]. intros _. exists s. by rewrite str_app_nil_l.
    - destruct s as [|c' s]; cbn [String.prefix].
      + split; [done|]. intros [rest Hrest]. by rewrite str_app_cons in Hrest.
      + destruct (ascii_dec c c') as [->|Hne].
        * rewrite IH. split; intros [rest Hrest]; exists rest.
          -- by rewrite str_app_cons, Hrest.
          -- rewrite str_app_cons in Hrest. by injection Hrest.
        * split; [done|]. intros [rest Hrest]. rewrite str_app_cons in Hrest.
          injection Hrest as ??. by subst. }
  split_and!.
  - unfold isRelativePath.
    destruct (startsWith str "./") eqn:H1.
    { apply Hprefix in H1 as [rest ->]. reflexivity. }
    destruct (startsWith str "../") eqn:H2.
    { apply Hprefix in H2 as [rest ->]. reflexivity. }
    done.
  - intros Hurl. assert (startsWith str "/" = false) as Hroot.
    { unfold isURL in Hurl. apply orb_true_iff in Hurl as [H|H];
        apply Hprefix in H as [rest ->]; reflexivity. }
    split; [|done]. unfold isRelativePath. rewrite Hroot, Hurl.
    unfold isURL in Hurl. apply orb_true_iff in Hurl as [H|H];
      apply Hprefix in H as [rest ->]; reflexivity.
  - unfold isURL. rewrite orb_true_iff, !Hprefix. split.
    + intros [[rest ->]|[rest ->]]; exists rest; auto.
    + intros [rest [-> | ->]]; [left|right]; by exists rest.
Qed.

(** X17.  [getRelativeFile] returns a rooted path or a URL unchanged; a
    relative path next to a local style sheet is joined to the directory of
    the style-sheet name cut at its first question mark. *)
Theorem X17_getRelativeFile_resolves_against_the_part_before_the_query
    (resolveURL : string → string → string) (path_join : string → string → string)
    (path_dirname : string → string) (cssFile relativeFile : string) :
  (isRelativePath relativeFile = false →
   getRelativeFile resolveURL path_join path_dirname cssFile relativeFile = relativeFile)
  ∧ (isRelativePath relativeFile = true → isURL cssFile = false →
     ∃ pathname,
       getRelativeFile resolveURL path_join path_dirname cssFile relativeFile
       = path_join (path_dirname pathname) relativeFile
       ∧ includes_char pathname "?" = false
       ∧ (cssFile = pathname ∨ ∃ query, cssFile = pathname +:+ "?" +:+ query)).
Proof.
  unfold getRelativeFile. split.
  - by intros ->.
  - intros -> ->. destruct (includes_char cssFile "?") eqn:Hq.
    + destruct (split_char_head "?" cssFile) as (h & rest & -> & Hav & Heq).
      exists h. cbn. split_and!; [done| |].
      * by rewrite includes_char_avoids, Hav.
      * destruct Heq as [?|[tl ->]]; [by left|]. right. by exists tl.
    + exists cssFile. split_and!; [done|done|by left].
Qed.

Lemma str_substring_all (s : string) : String.substring 0 (String.length s) s = s.
Proof. induction s as [|c s IH]; [done|]. cbn. by rewrite IH. Qed.

Lemma str_substring_prefix (a b : string) :
  String.substring 0 (String.length a) (a +:+ b) = a.
Proof. induction a as [|c a IH]; [by destruct b|]. rewrite str_app_cons. cbn. by rewrite IH. Qed.

(** X25.  [getFontSrcs] strips [url(] and the closing parenthesis from each
    match and nothing else, so a quoted source keeps its quotes; such a
    source counts as a relative path and, beside a local style sheet, is
    joined as it is to the directory of the style sheet. *)
Theorem X25_font_sources_keep_their_quotes
    (matchUrls : string → list string) (resolveURL : string → string → string)
    (path_join : string → string → string) (path_dirname : string → string) :
  (∀ inner, slice_between 4 1 ("url(" +:+ inner +:+ ")") = inner)
  ∧ (∀ str inners, matchUrls str = (fun inner => "url(" +:+ inner +:+ ")") <$> inners →
                   getFontSrcs matchUrls str = inners)
  ∧ (∀ q rest, q = "034"%char ∨ q = "039"%char →
       isRelativePath (String q rest) = true
       ∧ ∀ cssFile, isURL cssFile = false → includes_char cssFile "?" = false →
           getRelativeFile resolveURL path_join path_dirname cssFile (String q rest)
           = path_join (path_dirname cssFile) (String q rest)).
Proof.
  assert (∀ inner, slice_between 4 1 ("url(" +:+ inner +:+ ")") = inner) as Hslice.
  { intros inner. unfold slice_between.
    assert (String.length ("url(" +:+ inner +:+ ")") - 1 - 4 = String.length inner)%nat as ->.
    { rewrite !str_length_app. simpl. lia. }
    cbn [String.append String.substring]. apply str_substring_prefix. }
  split_and!; [done| |].
  - intros str inners Hm. unfold getFontSrcs. rewrite Hm, <-list_fmap_compose.
    rewrite <-(list_fmap_id inners) at 2. apply list_fmap_ext. intros i inner _. apply Hslice.
  - intros q rest Hq.
    assert (isRelativePath (String q rest) = true) as Hrel by (by destruct Hq as [-> | ->]).
    split; [done|]. intros cssFile Hurl Hquery. unfold getRelativeFile.
    by rewrite Hrel, Hurl, Hquery.
Qed.

(** ** The class lists of steps 3 and 7 *)

(** X18.  The non-icon used classes of step 7 are exactly the classes of
    the style sheet that are no icon class and are a modifier of some parsed
    icon, each once; the name of a parsed icon is a used class and never a
    non-icon used class. *)
Theorem X18_used_non_icon_classes_are_modifiers_of_parsed_icons
    (unparsedIcons : list (list string)) (iconClasses allClassesArr : list string)
    (log : list string) (icons : list Icon) :
  parseIcons unparsedIcons iconClasses = (log, Ok icons) →
  let special := specialClasses allClassesArr iconClasses in
  (∀ cls, cls ∈ nonIconUsedClasses special icons
          ↔ cls ∈ allClassesArr ∧ (cls ∉ iconClasses)
            ∧ ∃ icon, icon ∈ icons ∧ cls ∈ modifiers icon)
  ∧ NoDup (nonIconUsedClasses special icons)
  ∧ (∀ icon, icon ∈ icons → name icon ∈ usedClasses icons
                            ∧ name icon ∉ nonIconUsedClasses special icons).
Proof.
  intros Hp special.
  assert (∀ icon, icon ∈ icons → name icon ∈ iconClasses) as Hname.
  { apply parseIcons_Ok_inv in Hp as (rs & Hrs & ->).
    intros icon (r & Hr & Hid)%list_elem_of_omap. simpl in Hid. subst r.
    apply list_elem_of_lookup in Hr as [i Hi].
    destruct (Forall2_lookup_r _ _ _ _ _ Hrs Hi) as (u & _ & l & Hu).
    by destruct (Icon_parse_Some_Permutation _ _ _ _ Hu) as (_ & ? & _). }
  assert (∀ cls, cls ∈ usedClasses icons
                 ↔ ∃ icon, icon ∈ icons ∧ (cls = name icon ∨ cls ∈ modifiers icon)) as Hused.
  { intros cls. unfold usedClasses. rewrite Set_from_elem_of, list_elem_of_bind.
    split; intros (icon & H1 & H2); exists icon.
    - by apply elem_of_cons in H1.
    - split; [|done]. by apply elem_of_cons. }
  assert (∀ cls, cls ∈ nonIconUsedClasses special icons
          ↔ cls ∈ allClassesArr ∧ (cls ∉ iconClasses)
            ∧ ∃ icon, icon ∈ icons ∧ cls ∈ modifiers icon) as Hiff.
  { intros cls. unfold nonIconUsedClasses, special, specialClasses.
    rewrite Set_from_elem_of, !list_elem_of_filter, Hused. split.
    - intros ((icon & Hin & [->|Hm]) & Hnot & Hall).
      + destruct Hnot. by apply Hname.
      + eauto.
    - intros (Hall & Hnot & icon & Hin & Hm). split_and!; [|done..]. eauto. }
  split_and!; [done|apply Set_from_NoDup|].
  intros icon Hin. split.
  - apply Hused. eauto.
  - rewrite Hiff. intros (_ & Hnot & _). by apply Hnot, Hname.
Qed.

(** ** The descriptors handed to the font manager *)

Lemma sameFace_trans_l (ff1 ff2 v : FontFace) :
  sameFace ff1 ff2 → sameFace ff2 v → sameFace ff1 v.
Proof. unfold sameFace. intros (-> & -> & ->). done. Qed.

Lemma filter_lookup_order {A} (P : A → Prop) `{!∀ x, Decision (P x)} (l : list A)
    (i j : nat) (x y : A) :
  filter P l !! i = Some x → filter P l !! j = Some y → (i < j)%nat →
  ∃ i' j', (i' < j')%nat ∧ l !! i' = Some x ∧ l !! j' = Some y.
Proof.
  revert i j. induction l as [|a l IH]; intros i j; [done|].
  rewrite filter_cons. destruct (decide (P a)) as [Ha|Ha].
  - destruct i as [|i], j as [|j]; try lia.
    + intros [= <-] Hy _. exists 0%nat.
      assert (y ∈ l) as [j' Hj']%list_elem_of_lookup.
      { eapply (list_elem_of_filter P). eapply list_elem_of_lookup_2. exact Hy. }
      exists (S j'). split_and!; [lia|done|done].
    + cbn [lookup list_lookup]. intros Hx Hy Hlt.
      destruct (IH i j Hx Hy) as (i' & j' & ? & ? & ?); [lia|].
      exists (S i'), (S j'). split_and!; [lia|done|done].
  - intros Hx Hy Hlt. destruct (IH i j Hx Hy Hlt) as (i' & j' & ? & ? & ?).
    exists (S i'), (S j'). split_and!; [lia|done|done].
Qed.

(** X11.  Of the associated descriptors, those handed to the font manager
    have a non-empty class list made of candidate classes and pairwise
    different family, style and weight; a descriptor repeating the triple of
    an earlier one gets no class and is not handed over. *)
Theorem X11_active_descriptors_have_classes_and_distinct_triples
    (fontFaces : list FontFace) (variantClasses : list (string * FontFace)) :
  NoDup variantClasses.*1 →
  Forall (fun ff => clss ff = []) fontFaces →
  let active := activeFonts (associateClasses fontFaces variantClasses).1.2 in
  Forall (fun ff => clss ff ≠ [] ∧ Forall (fun cls => cls ∈ variantClasses.*1) (clss ff)) active
  ∧ (∀ i j ffi ffj, active !! i = Some ffi → active !! j = Some ffj →
                    sameFace ffi ffj → i = j)
  ∧ (∀ j1 j2 ff1 ff2, fontFaces !! j1 = Some ff1 → fontFaces !! j2 = Some ff2 →
                      (j1 < j2)%nat → sameFace ff1 ff2 →
                      ∃ ff2', (associateClasses fontFaces variantClasses).1.2 !! j2 = Some ff2'
                              ∧ clss ff2' = [] ∧ ff2' ∉ active).
Proof.
  intros Hnd Hempty active. unfold active. clear active.
  destruct (associateClasses_spec fontFaces variantClasses Hnd) as [log ->]. cbn [fst snd].
  set (associated := imap _ fontFaces).
  assert (∀ j ff', associated !! j = Some ff' →
            ∃ ff, fontFaces !! j = Some ff ∧ sameFace ff ff'
                  ∧ clss ff' = attachedClasses fontFaces variantClasses j ff) as Hassoc.
  { intros j ff'. unfold associated. rewrite list_lookup_imap.
    destruct (fontFaces !! j) as [ff|] eqn:Hj; [|done]. simpl. intros [= <-].
    exists ff. split_and!; [done|done|]. cbn [clss].
    eapply Forall_lookup_1 in Hempty; [|exact Hj]. simpl in Hempty. by rewrite Hempty. }
  assert (∀ j1 j2 ff1 ff2, fontFaces !! j1 = Some ff1 → fontFaces !! j2 = Some ff2 →
            (j1 < j2)%nat → sameFace ff1 ff2 →
            attachedClasses fontFaces variantClasses j2 ff2 = []) as Hlater.
  { intros j1 j2 ff1 ff2 H1 H2 Hlt Hsame. unfold attachedClasses.
    rewrite (filter_none _ variantClasses); [done|].
    apply Forall_forall. intros kv _ [Hs Hall].
    apply (Forall_lookup_1 _ _ j1 ff1) in Hall; [|by rewrite lookup_take_lt].
    apply Hall. by eapply sameFace_trans_l. }
  assert (∀ ff', ff' ∈ activeFonts associated → clss ff' ≠ []) as Hactive.
  { intros ff' [Hlen _]%list_elem_of_filter. intros Hnil. rewrite Hnil in Hlen.
    simpl in Hlen. lia. }
  split_and!.
  - apply Forall_forall. intros ff' Hin. split; [by apply Hactive|].
    apply list_elem_of_filter in Hin as [_ [j Hj]%list_elem_of_lookup].
    destruct (Hassoc _ _ Hj) as (ff & _ & _ & ->). unfold attachedClasses.
    apply Forall_forall. intros cls (kv & -> & [_ Hkv]%list_elem_of_filter)%list_elem_of_fmap.
    apply list_elem_of_fmap. eauto.
  - assert (∀ i j ffi ffj, activeFonts associated !! i = Some ffi →
              activeFonts associated !! j = Some ffj → sameFace ffi ffj → ¬ (i < j)%nat)
      as Hnlt.
    { intros i j ffi ffj Hi Hj Hsame Hlt.
      destruct (filter_lookup_order _ _ _ _ _ _ Hi Hj Hlt) as (i' & j' & Hlt' & Hi' & Hj').
      destruct (Hassoc _ _ Hi') as (fi & Hfi & Hsi & _).
      destruct (Hassoc _ _ Hj') as (fj & Hfj & Hsj & Hcj).
      apply (Hactive ffj); [by eapply list_elem_of_lookup_2|].
      rewrite Hcj. apply (Hlater i' j' fi fj Hfi Hfj Hlt').
      unfold sameFace in *. destruct Hsi as (-> & -> & ->), Hsj as (-> & -> & ->). done. }
    intros i j ffi ffj Hi Hj Hsame.
    destruct (Nat.lt_trichotomy i j) as [Hlt|[->|Hlt]]; [|done|].
    + by destruct (Hnlt i j ffi ffj).
    + destruct (Hnlt j i ffj ffi); [done|done| |done].
      unfold sameFace in *. destruct Hsame as (-> & -> & ->). done.
  - intros j1 j2 ff1 ff2 H1 H2 Hlt Hsame.
    eexists. unfold associated. rewrite list_lookup_imap, H2. simpl.
    split; [done|]. cbn [clss].
    assert (clss ff2 ++ attachedClasses fontFaces variantClasses j2 ff2 = []) as Hnil.
    { rewrite (Hlater j1 j2 ff1 ff2) by done.
      eapply Forall_lookup_1 in Hempty; [|exact H2]. simpl in Hempty. by rewrite Hempty. }
    split; [done|]. intros Hin%Hactive. by apply Hin.
Qed.

(** ** The first version of the tool *)

Lemma legacy_scanClasses (lookFor icon : list string) (special : bool) :
  lookFor ⊆ Legacy.FA_SPECIAL_CLASSES →
  Legacy.scanClasses lookFor icon special
  = (bool_decide (Exists (fun cls => cls ∈ lookFor) icon),
     special || bool_decide (Exists (fun cls => cls ∈ Legacy.FA_SPECIAL_CLASSES) icon)).
Proof.
  intros Hsub. revert special. induction icon as [|cls rest IH]; intros special.
  - cbn [Legacy.scanClasses]. rewrite !bool_decide_eq_false_2 by (by intros ?%Exists_nil).
    by rewrite orb_false_r.
  - cbn [Legacy.scanClasses]. destruct (decide (cls ∈ lookFor)) as [Hl|Hl].
    + rewrite (bool_decide_eq_true_2 (cls ∈ lookFor)) by done.
      rewrite (bool_decide_eq_true_2 (Exists (fun c => c ∈ lookFor) (cls :: rest)))
        by (by apply Exists_cons_hd).
      rewrite (bool_decide_eq_true_2
                 (Exists (fun c => c ∈ Legacy.FA_SPECIAL_CLASSES) (cls :: rest)))
        by (apply Exists_cons_hd; by apply Hsub).
      by rewrite orb_true_r.
    + rewrite (bool_decide_eq_false_2 (cls ∈ lookFor)) by done.
      assert (bool_decide (Exists (fun c => c ∈ lookFor) (cls :: rest))
              = bool_decide (Exists (fun c => c ∈ lookFor) rest)) as ->.
      { apply bool_decide_ext. rewrite Exists_cons. tauto. }
      destruct (decide (cls ∈ Legacy.FA_SPECIAL_CLASSES)) as [Hs|Hs].
      * rewrite (bool_decide_eq_true_2 (cls ∈ Legacy.FA_SPECIAL_CLASSES)) by done.
        rewrite IH. f_equal.
        rewrite (bool_decide_eq_true_2
                   (Exists (fun c => c ∈ Legacy.FA_SPECIAL_CLASSES) (cls :: rest)))
          by (by apply Exists_cons_hd).
        by rewrite orb_true_r.
      * rewrite (bool_decide_eq_false_2 (cls ∈ Legacy.FA_SPECIAL_CLASSES)) by done.
        rewrite IH. do 2 f_equal. apply bool_decide_ext. rewrite Exists_cons. tauto.
Qed.

Lemma legacy_filter_loop (lookFor : list string) (solidFile : bool)
    (crawledIcons : list (list string)) :
  lookFor ⊆ Legacy.FA_SPECIAL_CLASSES →
  foldl (fun filteredIcons icon =>
           let '(pushed, hasSpecialClass) := Legacy.scanClasses lookFor icon false in
           let filteredIcons := if pushed then filteredIcons ++ [icon] else filteredIcons in
           if negb hasSpecialClass then
             if solidFile then filteredIcons ++ [icon] else filteredIcons
           else filteredIcons)
        [] crawledIcons
  = filter (Legacy.associatedTo lookFor solidFile) crawledIcons.
Proof.
  intros Hsub. induction crawledIcons as [|icon icons IH] using rev_ind; [done|].
  rewrite foldl_app, IH, filter_app. cbn [foldl]. rewrite legacy_scanClasses by done.
  cbn [orb]. rewrite (filter_cons _ icon []), filter_nil.
  assert (Exists (fun cls => cls ∈ lookFor) icon →
          Exists (fun cls => cls ∈ Legacy.FA_SPECIAL_CLASSES) icon) as Himp.
  { intros Hex. eapply Exists_impl; [exact Hex|]. intros cls. apply Hsub. }
  assert (Exists (fun cls => cls ∈ Legacy.FA_SPECIAL_CLASSES) icon →
          ¬ Forall (fun cls => cls ∉ Legacy.FA_SPECIAL_CLASSES) icon) as Hsp_all.
  { intros (cls & Hin & Hcls)%Exists_exists Hall. by eapply Forall_forall in Hall. }
  assert (¬ Exists (fun cls => cls ∈ Legacy.FA_SPECIAL_CLASSES) icon →
          Forall (fun cls => cls ∉ Legacy.FA_SPECIAL_CLASSES) icon) as Hall_sp.
  { intros Hsp. apply Forall_forall. intros cls Hin Hcls. apply Hsp, Exists_exists. eauto. }
  destruct (decide (Exists (fun cls => cls ∈ lookFor) icon)) as [Hex|Hex].
  - rewrite (bool_decide_eq_true_2 (Exists (fun cls => cls ∈ lookFor) icon)) by done.
    rewrite (bool_decide_eq_true_2 (Exists (fun cls => cls ∈ Legacy.FA_SPECIAL_CLASSES) icon))
      by auto.
    cbn [negb]. rewrite decide_True; [done|]. by left.
  - rewrite (bool_decide_eq_false_2 (Exists (fun cls => cls ∈ lookFor) icon)) by done.
    destruct (decide (Exists (fun cls => cls ∈ Legacy.FA_SPECIAL_CLASSES) icon)) as [Hsp|Hsp].
    + rewrite (bool_decide_eq_true_2
                 (Exists (fun cls => cls ∈ Legacy.FA_SPECIAL_CLASSES) icon)) by done.
      cbn [negb]. rewrite decide_False; [by rewrite app_nil_r|].
      intros [?|[Hall _]]; [done|]. by apply Hsp_all.
    + rewrite (bool_decide_eq_false_2
                 (Exists (fun cls => cls ∈ Legacy.FA_SPECIAL_CLASSES) icon)) by done.
      cbn [negb]. destruct solidFile.
      * rewrite decide_True; [done|]. right. split; [|done]. by apply Hall_sp.
      * rewrite decide_False; [by rewrite app_nil_r|]. by intros [?|[_ ?]].
Qed.

(** X22.  [faFindIconsAssociatedToFile] of the first version: for a brands,
    regular or solid file (tested in this order on the file name) the result
    is the crawled icons, in order and none pushed twice, that hold one of
    the two classes of that variant or, when the name contains [fa-solid],
    hold no variant class at all; a compatibility file gives a warning and no
    icon, any other name throws; and every icon is asked of the brands, the
    regular or the solid file. *)
Theorem X22_legacy_icons_of_a_font_file (crawledIcons : list (list string)) (filename : string) :
  let result := Legacy.faFindIconsAssociatedToFile crawledIcons filename in
  let solidFile := includes filename "fa-solid" in
  (includes filename "fa-brand" = true →
   result = ([], inr (filter (Legacy.associatedTo ["fab"; "fa-brands"] solidFile) crawledIcons)))
  ∧ (includes filename "fa-brand" = false →
     includes filename "fa-regular" = true →
     result = ([], inr (filter (Legacy.associatedTo ["far"; "fa-regular"] solidFile)
                               crawledIcons)))
  ∧ (includes filename "fa-brand" = false →
     includes filename "fa-regular" = false → solidFile = true →
     result = ([], inr (filter (Legacy.associatedTo ["fas"; "fa-solid"] true) crawledIcons)))
  ∧ (includes filename "fa-brand" = false →
     includes filename "fa-regular" = false → solidFile = false →
     result = if includes filename "compatibility"
              then (["ignoring compatibility font"], inr [])
              else ([], inl (Legacy.NotImplementedFor filename)))
  ∧ (∀ icon, icon ∈ crawledIcons →
       Legacy.associatedTo ["fab"; "fa-brands"] false icon
       ∨ Legacy.associatedTo ["far"; "fa-regular"] false icon
       ∨ Legacy.associatedTo ["fas"; "fa-solid"] true icon).
Proof.
  intros result solidFile. unfold result, solidFile, Legacy.faFindIconsAssociatedToFile.
  assert (∀ a b, a ∈ Legacy.FA_SPECIAL_CLASSES → b ∈ Legacy.FA_SPECIAL_CLASSES →
                 [a; b] ⊆ Legacy.FA_SPECIAL_CLASSES) as Hsub.
  { intros a b Ha Hb x Hx. apply elem_of_cons in Hx as [->|Hx]; [done|].
    apply elem_of_cons in Hx as [->|Hx]; [done|]. by apply elem_of_nil in Hx. }
  split_and!.
  - intros ->. cbv beta iota. do 2 f_equal.
    apply legacy_filter_loop, Hsub; apply (bool_decide_unpack _); by vm_compute.
  - intros -> ->. cbv beta iota. do 2 f_equal.
    apply legacy_filter_loop, Hsub; apply (bool_decide_unpack _); by vm_compute.
  - intros -> -> Hs. rewrite Hs. cbv beta iota. do 2 f_equal.
    apply (legacy_filter_loop ["fas"; "fa-solid"] true crawledIcons), Hsub;
      apply (bool_decide_unpack _); by vm_compute.
  - intros -> -> ->. cbv beta iota. by destruct (includes filename "compatibility").
  - intros icon _. unfold Legacy.associatedTo.
    destruct (decide (Exists (fun cls => cls ∈ Legacy.FA_SPECIAL_CLASSES) icon)) as [Hsp|Hsp].
    + apply Exists_exists in Hsp as (cls & Hin & Hcls).
      unfold Legacy.FA_SPECIAL_CLASSES in Hcls.
      rewrite !elem_of_cons in Hcls.
      destruct Hcls as [->|[->|[->|[->|[->|[->|Hnil]]]]]]; [..|by apply elem_of_nil in Hnil].
      1,2: left; left; apply Exists_exists; eexists; split; [done|]; apply (bool_decide_unpack _); by vm_compute.
      1,2: right; left; left; apply Exists_exists; eexists; split; [done|]; apply (bool_decide_unpack _); by vm_compute.
      1,2: right; right; left; apply Exists_exists; eexists; split; [done|]; apply (bool_decide_unpack _); by vm_compute.
    + right. right. right. split; [|done].
      apply Forall_forall. intros cls Hin Hcls. apply Hsp, Exists_exists. eauto.
Qed.

Lemma legacy_slice_app (p s : string) : Legacy.slice (String.length p) (p +:+ s) = s.
Proof. induction p as [|c p IH]; [by destruct s|]. by rewrite str_app_cons. Qed.

Lemma legacy_firstCodepoint_Some (classToCodepoint : gmap string Z) (prefix : string)
    (classes : list string) (cp : Z) :
  Legacy.firstCodepoint classToCodepoint prefix classes = Some cp
  ↔ ∃ before cls after,
      classes = before ++ cls :: after
      ∧ classToCodepoint !! Legacy.slice (String.length prefix) cls = Some cp
      ∧ Forall (fun c => classToCodepoint !! Legacy.slice (String.length prefix) c = None)
               before.
Proof.
  induction classes as [|c classes IH]; cbn [Legacy.firstCodepoint].
  - split; [done|]. intros (before & cls & after & Heq & _). by destruct before.
  - destruct (classToCodepoint !! Legacy.slice (String.length prefix) c) as [cp'|] eqn:Hc.
    + split.
      * intros [= ->]. exists [], c, classes. by split_and!.
      * intros ([|b before] & cls & after & Heq & Hcls & Hbefore).
        -- injection Heq as -> _. congruence.
        -- injection Heq as -> _. apply Forall_cons in Hbefore as [Hb _]. congruence.
    + rewrite IH. split.
      * intros (before & cls & after & -> & Hcls & Hbefore).
        exists (c :: before), cls, after. split_and!; [done|done|by constructor].
      * intros ([|b before] & cls & after & Heq & Hcls & Hbefore).
        -- injection Heq as -> _. congruence.
        -- injection Heq as -> ->. apply Forall_cons in Hbefore as [_ Hbefore].
           exists before, cls, after. by split_and!.
Qed.

(** X23.  [mapIconsToCodepoints] of the first version throws for the first
    icon none of whose classes, cut by the length of the prefix, is a key;
    otherwise each icon gets the codepoint of its first such class.  Only the
    length of the prefix counts: any class with as many leading characters
    maps like the prefixed one. *)
Theorem X23_legacy_codepoint_of_the_first_class_behind_the_prefix_length
    (icons : list (list string)) (classToCodepoint : gmap string Z) (prefix : string) :
  match list_find (fun classes =>
                     Legacy.firstCodepoint classToCodepoint prefix classes = None) icons with
  | Some (_, classes) =>
      Legacy.mapIconsToCodepoints icons classToCodepoint prefix
      = inl (Legacy.NoCodepointForClasses classes)
  | None =>
      ∃ cps, Legacy.mapIconsToCodepoints icons classToCodepoint prefix = inr cps
             ∧ Forall2 (fun classes cp =>
                          ∃ before cls after,
                            classes = before ++ cls :: after
                            ∧ classToCodepoint !! Legacy.slice (String.length prefix) cls
                              = Some cp
                            ∧ Forall (fun c => classToCodepoint
                                                 !! Legacy.slice (String.length prefix) c = None)
                                     before)
                       icons cps
  end
  ∧ ∀ p cls, String.length p = String.length prefix →
             Legacy.firstCodepoint classToCodepoint prefix [p +:+ cls]
             = classToCodepoint !! cls.
Proof.
  split.
  - induction icons as [|classes icons IH]; [by exists []|].
    cbn [list_find Legacy.mapIconsToCodepoints].
    destruct (Legacy.firstCodepoint classToCodepoint prefix classes) as [cp|] eqn:Hc.
    + rewrite decide_False by done.
      destruct (list_find _ icons) as [[i classes']|]; cbn [fmap option_fmap option_map prod_map].
      * simpl. by rewrite IH.
      * destruct IH as (cps & -> & Hall). exists (cp :: cps). split; [done|].
        constructor; [|done]. by apply legacy_firstCodepoint_Some.
    + by rewrite decide_True by done.
  - intros p cls Hlen. cbn [Legacy.firstCodepoint]. rewrite <-Hlen, legacy_slice_app.
    by destruct (classToCodepoint !! cls).
Qed.

Lemma legacy_mapping_fold (subset : list Z) (n : Z) (m : gmap Z Z) (us : list Z) (u : Z) :
  foldl (fun (m : gmap Z Z) u => if bool_decide (u ∈ subset) then <[u := n]> m else m) m us
    !! u
  = if decide (u ∈ us ∧ u ∈ subset) then Some n else m !! u.
Proof.
  revert m. induction us as [|u' us IH]; intros m.
  - cbn [foldl]. rewrite decide_False; [done|]. intros [?%elem_of_nil _]. done.
  - cbn [foldl]. rewrite IH. destruct (decide (u ∈ us ∧ u ∈ subset)) as [[Hin Hs]|Hn].
    + rewrite decide_True; [done|]. split; [by right|done].
    + case_bool_decide as Hu'.
      * destruct (decide (u = u')) as [->|Hne].
        -- rewrite lookup_insert_eq. rewrite decide_True; [done|]. split; [by left|done].
        -- rewrite lookup_insert_ne by done. rewrite decide_False; [done|].
           intros [[?|?]%elem_of_cons ?]; [done|]. by apply Hn.
      * rewrite decide_False; [done|].
        intros [[->|?]%elem_of_cons ?]; [done|]. by apply Hn.
Qed.

Lemma legacy_extractIcons_snoc (glyf : list Legacy.RawGlyph) (g : Legacy.RawGlyph)
    (subset : list Z) (base : Z) :
  Legacy.extractIcons (glyf ++ [g]) subset base
  = let '(newGlyfs, newMapping, newCodepoint) := Legacy.extractIcons glyf subset base in
    match Legacy.raw_unicode g with
    | Some us =>
        (newGlyfs ++ [Legacy.mkRawGlyph (Some [newCodepoint]) (Legacy.raw_name g)],
         foldl (fun (m : gmap Z Z) u =>
                  if bool_decide (u ∈ subset) then <[u := newCodepoint]> m else m)
               newMapping us,
         newCodepoint + 1)
    | None => (newGlyfs, newMapping, newCodepoint)
    end.
Proof.
  unfold Legacy.extractIcons. rewrite foldl_app. cbn [foldl].
  by destruct (foldl _ _ glyf) as [[newGlyfs newMapping] newCodepoint].
Qed.

(** X24.  [extractIcons] of the first version keeps the glyphs that have a
    [unicode] field, in order, the one at position [i] with the sole
    codepoint [base + i]; the next codepoint is [base] plus their number; and
    an old codepoint is mapped exactly when it is in the subset and some kept
    glyph bore it, to the new codepoint of the last such glyph. *)
Theorem X24_legacy_extractIcons_renumbers_the_glyphs_with_a_codepoint
    (glyf : list Legacy.RawGlyph) (subset : list Z) (base : Z) :
  let '(newGlyfs, newMapping, newCodepoint) := Legacy.extractIcons glyf subset base in
  let kept := filter (fun g => is_Some (Legacy.raw_unicode g)) glyf in
  newGlyfs = imap (fun i g => Legacy.mkRawGlyph (Some [base + Z.of_nat i]) (Legacy.raw_name g))
                  kept
  ∧ newCodepoint = base + Z.of_nat (length kept)
  ∧ ∀ u n,
      newMapping !! u = Some n
      ↔ u ∈ subset
        ∧ ∃ i g us,
            kept !! i = Some g ∧ Legacy.raw_unicode g = Some us ∧ u ∈ us
            ∧ n = base + Z.of_nat i
            ∧ ∀ i' g' us', kept !! i' = Some g' → Legacy.raw_unicode g' = Some us' →
                           u ∈ us' → (i' ≤ i)%nat.
Proof.
  induction glyf as [|g glyf IH] using rev_ind.
  - cbn. split_and!; [done|lia|]. intros u n. rewrite lookup_empty. split; [done|].
    by intros (_ & i & g & us & ? & _).
  - rewrite legacy_extractIcons_snoc.
    destruct (Legacy.extractIcons glyf subset base) as [[newGlyfs newMapping] newCodepoint].
    cbv zeta in IH. destruct IH as (Hglyfs & Hnext & Hmap). cbv zeta.
    rewrite filter_app, filter_cons, filter_nil.
    set (kept := filter (fun g => is_Some (Legacy.raw_unicode g)) glyf) in *.
    destruct (Legacy.raw_unicode g) as [us|] eqn:Hg.
    + rewrite decide_True by eauto.
      split_and!.
      * rewrite imap_app. cbn [imap]. rewrite Hglyfs, Hnext, Nat.add_0_r. done.
      * rewrite length_app. simpl. lia.
      * intros u n. rewrite legacy_mapping_fold.
        destruct (decide (u ∈ us ∧ u ∈ subset)) as [[Hin Hs]|Hn].
        -- split.
           ++ intros [= <-]. split; [done|]. exists (length kept), g, us.
              rewrite lookup_app_r, Nat.sub_diag by lia. split_and!; [done..|].
              intros i' g' us' Hi' _ _. apply lookup_lt_Some in Hi'.
              rewrite length_app in Hi'. simpl in Hi'. lia.
           ++ intros (_ & i & g0 & us0 & Hi & Hg0 & Hu0 & -> & Hlast).
              assert (length kept ≤ i)%nat as Hle.
              { apply (Hlast (length kept) g us); [|done|done].
                by rewrite lookup_app_r, Nat.sub_diag by lia. }
              apply lookup_lt_Some in Hi as Hlt. rewrite length_app in Hlt. simpl in Hlt.
              f_equal. lia.
        -- rewrite Hmap. split.
           ++ intros (Hs & i & g0 & us0 & Hi & Hg0 & Hu0 & -> & Hlast). split; [done|].
              exists i, g0, us0. split_and!; [|done..|].
              ** apply lookup_app_l_Some. done.
              ** intros i' g' us' Hi' Hg' Hu'.
                 apply lookup_app_Some in Hi' as [Hi'|[Hlen Hi']]; [by eapply Hlast|].
                 destruct (i' - length kept)%nat; [|done]. injection Hi' as <-.
                 rewrite Hg in Hg'. injection Hg' as <-. destruct Hn. done.
           ++ intros (Hs & i & g0 & us0 & Hi & Hg0 & Hu0 & -> & Hlast). split; [done|].
              apply lookup_app_Some in Hi as [Hi|[Hlen Hi]].
              ** exists i, g0, us0. split_and!; [done..|].
                 intros i' g' us' Hi' Hg' Hu'. apply (Hlast i' g' us'); [|done..].
                 by apply lookup_app_l_Some.
              ** destruct (i - length kept)%nat; [|done]. injection Hi as <-.
                 rewrite Hg in Hg0. injection Hg0 as <-. destruct Hn. done.
    + rewrite decide_False by (by intros [??]).
      rewrite app_nil_r. done.
Qed.

(** ** Maps in insertion order *)

Lemma Map_set_keys {V} (k : string) (v : V) (m : list (string * V)) :
  (Map_set k v m).*1 = JS.Set_add m.*1 k.
Proof.
  unfold Map_set, JS.Set_add. case_bool_decide as Hk.
  - rewrite <-list_fmap_compose. apply list_fmap_ext. intros i [k' v'] _. simpl.
    by case_bool_decide.
  - by rewrite fmap_app.
Qed.

Lemma Set_add_NoDup (seen : list string) (x : string) :
  NoDup seen → NoDup (JS.Set_add seen x).
Proof.
  intros Hnd. unfold JS.Set_add. case_bool_decide as Hx; [done|].
  apply NoDup_app. split_and!; [done| |apply NoDup_singleton].
  intros y Hy ->%list_elem_of_singleton. done.
Qed.

Lemma Set_add_elem_of (seen : list string) (x y : string) :
  y ∈ JS.Set_add seen x ↔ y ∈ seen ∨ y = x.
Proof.
  unfold JS.Set_add. case_bool_decide as Hx.
  - split; [by left|]. by intros [?| ->].
  - rewrite elem_of_app, list_elem_of_singleton. done.
Qed.

Lemma Map_set_elem_of {V} (k : string) (v : V) (m : list (string * V)) (k' : string) (v' : V) :
  (k', v') ∈ Map_set k v m ↔ (k' = k ∧ v' = v) ∨ (k' ≠ k ∧ (k', v') ∈ m).
Proof.
  unfold Map_set. case_bool_decide as Hk.
  - rewrite list_elem_of_fmap. split.
    + intros ([k0 v0] & Heq & Hin). simpl in Heq. case_bool_decide as H0.
      * injection Heq as -> ->. by left.
      * injection Heq as -> ->. by right.
    + intros [[-> ->]|[Hne Hin]].
      * apply list_elem_of_fmap in Hk as ([k0 v0] & -> & Hin). exists (k0, v0).
        simpl. by rewrite bool_decide_eq_true_2.
      * exists (k', v'). simpl. by rewrite bool_decide_eq_false_2.
  - rewrite elem_of_app, list_elem_of_singleton. split.
    + intros [Hin|[= -> ->]]; [|by left]. right. split; [|done].
      intros ->. apply Hk, list_elem_of_fmap. by exists (k, v').
    + intros [[-> ->]|[_ Hin]]; [by right|by left].
Qed.

Lemma Map_set_fold_keys {V} (v : V) (ks : list string) (m : list (string * V)) :
  (foldl (fun m k => Map_set k v m) m ks).*1 = foldl JS.Set_add m.*1 ks.
Proof.
  revert m. induction ks as [|k ks IH]; intros m; [done|].
  cbn [foldl]. by rewrite IH, Map_set_keys.
Qed.

Lemma Map_set_fold_elem_of {V} (v : V) (ks : list string) (m : list (string * V))
    (k' : string) (v' : V) :
  (k', v') ∈ foldl (fun m k => Map_set k v m) m ks
  ↔ (k' ∈ ks ∧ v' = v) ∨ ((k' ∉ ks) ∧ (k', v') ∈ m).
Proof.
  revert m. induction ks as [|k ks IH]; intros m.
  - cbn [foldl]. split; [intros ?; right; split; [apply not_elem_of_nil|done]|].
    intros [[?%elem_of_nil _]|[_ ?]]; done.
  - cbn [foldl]. rewrite IH, Map_set_elem_of, !elem_of_cons.
    destruct (decide (k' = k)) as [Heq|Hne], (decide (k' ∈ ks)); intuition congruence.
Qed.

Lemma Set_add_fold_NoDup (seen xs : list string) :
  NoDup seen → NoDup (foldl JS.Set_add seen xs).
Proof.
  revert seen. induction xs as [|x xs IH]; intros seen Hnd; [done|].
  cbn [foldl]. by apply IH, Set_add_NoDup.
Qed.

Lemma Set_add_fold_elem_of (seen xs : list string) (y : string) :
  y ∈ foldl JS.Set_add seen xs ↔ y ∈ seen ∨ y ∈ xs.
Proof.
  revert seen. induction xs as [|x xs IH]; intros seen.
  - cbn [foldl]. split; [by left|]. by intros [?|?%elem_of_nil].
  - cbn [foldl]. rewrite IH, Set_add_elem_of, elem_of_cons. intuition congruence.
Qed.

Lemma Set_add_fold_app (seen xs ys : list string) :
  foldl JS.Set_add seen (xs ++ ys) = foldl JS.Set_add (foldl JS.Set_add seen xs) ys.
Proof. apply foldl_app. Qed.

(** ** CSSParser: the icon classes and their codepoints *)

Section CSSParserProps.
Variable parseCssSelector : string → list SelectorRule.
Variable contentCodepoint : string → option Z.

Lemma withBefore_classes (sel : string) (cls : string) :
  cls ∈ (getClassesFromSelectorWithBefore parseCssSelector sel).2
  ↔ isAtOrPseudo sel = false
    ∧ Rule [ClassName cls; PseudoElement "before"] ∈ parseCssSelector sel.
Proof.
  unfold getClassesFromSelectorWithBefore. destruct (isAtOrPseudo sel).
  - cbn. split; [by intros ?%elem_of_nil|by intros [? _]].
  - set (step := fun (acc : list string * list string) =>
                   let '(log, clss) := acc in
                   fun (r : SelectorRule) =>
                   match r with
                   | Rule [ClassName n; PseudoElement p] =>
                       if bool_decide (p = "before") then (log, clss ++ [n]) else (log, clss)
                   | Rule items =>
                       if bool_decide (2 < length items)%nat
                       then (log ++ ["Skipped complex rule in selector: " +:+ sel], clss)
                       else (log, clss)
                   | OtherRule => (log, clss)
                   end).
    assert (∀ r log clss,
              (cls ∈ (step (log, clss) r).2
               ↔ cls ∈ clss ∨ r = Rule [ClassName cls; PseudoElement "before"])
              ∧ ∀ c, c ∈ clss → c ∈ (step (log, clss) r).2) as Hstep.
    { intros r log clss.
      assert ((step (log, clss) r).2 = clss
              ∧ r ≠ Rule [ClassName cls; PseudoElement "before"]
              ∨ ∃ n, (step (log, clss) r).2 = clss ++ [n]
                     ∧ r = Rule [ClassName n; PseudoElement "before"]) as Hcases.
      { destruct r as [[|[n| |] [|[|p|] [|??]]]|]; cbn;
          try (left; split; [by repeat case_bool_decide|done]).
        case_bool_decide as Hp.
        - subst p. right. by exists n.
        - left. split; [done|]. by intros [= _ ->]. }
      destruct Hcases as [[-> Hne]|(n & -> & ->)].
      - split; [|done]. split; [by left|]. by intros [?|?].
      - split.
        + rewrite elem_of_app, list_elem_of_singleton. split.
          * intros [?| ->]; [by left|by right].
          * intros [?|[= ->]]; [by left|by right].
        + intros c Hc. apply elem_of_app. by left. }
    assert (∀ rules log clss,
              cls ∈ (foldl step (log, clss) rules).2
              ↔ cls ∈ clss ∨ Rule [ClassName cls; PseudoElement "before"] ∈ rules) as Hfold.
    { intros rules. induction rules as [|r rules IH]; intros log clss.
      - cbn. split; [by left|]. by intros [?|?%elem_of_nil].
      - cbn [foldl]. destruct (step (log, clss) r) as [log' clss'] eqn:Hs.
        rewrite IH, elem_of_cons. destruct (Hstep r log clss) as [Hiff _].
        rewrite Hs in Hiff. cbn [snd] in Hiff. rewrite Hiff. split.
        + intros [[?|?]|?]; auto.
        + intros [?|[?|?]]; auto. }
    rewrite Hfold. split; [intros [?%elem_of_nil|?]; done|]. intros [_ ?]. by right.
Qed.

(** The classes a node contributes to [getIconToCodepoint]. *)
Lemma getIconToCodepoint_snoc (children : list Node) (node : Node) :
  (getIconToCodepoint parseCssSelector contentCodepoint (children ++ [node])).2
  = let map := (getIconToCodepoint parseCssSelector contentCodepoint children).2 in
    match contentCodepoint (body node) with
    | None => map
    | Some codepoint =>
        foldl (fun m cls => Map_set cls codepoint m) map
              (getClassesFromSelectorWithBefore parseCssSelector (selector node)).2
    end.
Proof.
  unfold getIconToCodepoint. rewrite foldl_app. cbn [foldl].
  destruct (foldl _ _ children) as [log map]. cbn [snd].
  destruct (contentCodepoint (body node)); [|done].
  by destruct (getClassesFromSelectorWithBefore parseCssSelector (selector node)).
Qed.

(** X19.  [getIconToCodepoint] has one entry per class; a class maps to a
    codepoint exactly when that is the content codepoint of the last node,
    among those with a content codepoint and a selector not starting with
    [@] or [:], whose selector has a rule made of that class and the
    [before] pseudo-element. *)
Theorem X19_icon_class_takes_the_codepoint_of_its_last_rule (children : list Node) :
  let map := (getIconToCodepoint parseCssSelector contentCodepoint children).2 in
  NoDup map.*1
  ∧ (∀ cls cp,
       (cls, cp) ∈ map
       ↔ ∃ i node,
           children !! i = Some node
           ∧ contentCodepoint (body node) = Some cp
           ∧ isAtOrPseudo (selector node) = false
           ∧ Rule [ClassName cls; PseudoElement "before"] ∈ parseCssSelector (selector node)
           ∧ ∀ i' node', (i < i')%nat → children !! i' = Some node' →
                         is_Some (contentCodepoint (body node')) →
                         isAtOrPseudo (selector node') = false →
                         Rule [ClassName cls; PseudoElement "before"]
                           ∉ parseCssSelector (selector node')).
Proof.
  cbv zeta. induction children as [|node children IH] using rev_ind.
  - cbn. split; [constructor|]. intros cls cp. split; [by intros ?%elem_of_nil|].
    by intros (i & node & ? & _).
  - destruct IH as [IHnd IHin]. rewrite getIconToCodepoint_snoc. cbv zeta.
    set (map := (getIconToCodepoint parseCssSelector contentCodepoint children).2) in *.
    assert (∀ cls cp,
              (∃ i nd, children !! i = Some nd
                 ∧ contentCodepoint (body nd) = Some cp
                 ∧ isAtOrPseudo (selector nd) = false
                 ∧ Rule [ClassName cls; PseudoElement "before"] ∈ parseCssSelector (selector nd)
                 ∧ ∀ i' node', (i < i')%nat → (children ++ [node]) !! i' = Some node' →
                               is_Some (contentCodepoint (body node')) →
                               isAtOrPseudo (selector node') = false →
                               Rule [ClassName cls; PseudoElement "before"]
                                 ∉ parseCssSelector (selector node'))
              ↔ (cls, cp) ∈ map
                ∧ ¬ (is_Some (contentCodepoint (body node))
                     ∧ cls ∈ (getClassesFromSelectorWithBefore parseCssSelector
                                (selector node)).2)) as Hold.
    { intros cls cp. rewrite IHin, withBefore_classes. split.
      - intros (i & nd & Hi & Hcp & Hat & Hrule & Hlast). split.
        + exists i, nd. split_and!; [done..|]. intros i' node' Hlt Hi'.
          apply (Hlast i' node'); [done|]. by apply lookup_app_l_Some.
        + intros (Hsome & Hat' & Hrule').
          apply (Hlast (length children) node); [|by rewrite list_lookup_middle|done..].
          by apply lookup_lt_Some in Hi.
      - intros ((i & nd & Hi & Hcp & Hat & Hrule & Hlast) & Hnot).
        exists i, nd. split_and!; [done..|]. intros i' node' Hlt Hi' Hsome Hat' Hrule'.
        apply lookup_app_Some in Hi' as [Hi'|[Hlen Hi']]; [by eapply Hlast|].
        destruct (i' - length children)%nat; [|done]. injection Hi' as <-.
        by apply Hnot. }
    destruct (contentCodepoint (body node)) as [codepoint|] eqn:Hcp.
    + split.
      * rewrite Map_set_fold_keys. by apply Set_add_fold_NoDup.
      * intros cls cp. rewrite Map_set_fold_elem_of. split.
        -- intros [[Hin ->]|[Hnot Hin]].
           ++ apply withBefore_classes in Hin as [Hat Hrule].
              exists (length children), node.
              rewrite list_lookup_middle by done. split_and!; [done..|].
              intros i' node' Hlt Hi'. apply lookup_lt_Some in Hi'.
              rewrite length_app in Hi'. simpl in Hi'. lia.
           ++ assert ((cls, cp) ∈ map ∧ ¬ (is_Some (Some codepoint)
                        ∧ cls ∈ (getClassesFromSelectorWithBefore parseCssSelector
                                   (selector node)).2)) as Hboth by (split; [done|tauto]).
              apply Hold in Hboth as (i & nd & Hi & ? & ? & ? & Hlast).
              exists i, nd. split_and!; [by apply lookup_app_l_Some|done..].
        -- intros (i & nd & Hi & Hc & Hat & Hrule & Hlast).
           apply lookup_app_Some in Hi as [Hi|[Hlen Hi]].
           ++ right. assert ((cls, cp) ∈ map ∧ ¬ (is_Some (Some codepoint)
                        ∧ cls ∈ (getClassesFromSelectorWithBefore parseCssSelector
                                   (selector node)).2)) as [? Hnot].
              { apply Hold. exists i, nd. by split_and!. }
              split; [|done]. intros Hin. apply Hnot. by split.
           ++ destruct (i - length children)%nat; [|done]. injection Hi as <-.
              left. split; [|congruence]. by apply withBefore_classes.
    + split; [done|]. intros cls cp. split.
      * intros Hin. assert ((cls, cp) ∈ map ∧ ¬ (is_Some (@None Z)
                        ∧ cls ∈ (getClassesFromSelectorWithBefore parseCssSelector
                                   (selector node)).2)) as Hboth
          by (split; [done|by intros [[??] _]]).
        apply Hold in Hboth as (i & nd & Hi & ? & ? & ? & Hlast).
        exists i, nd. split_and!; [by apply lookup_app_l_Some|done..].
      * intros (i & nd & Hi & Hc & Hat & Hrule & Hlast).
        apply lookup_app_Some in Hi as [Hi|[Hlen Hi]].
        -- apply Hold. exists i, nd. by split_and!.
        -- destruct (i - length children)%nat; [|done]. injection Hi as <-. congruence.
Qed.

Lemma getIconToCodepoint_key_rule (children : list Node) (cls : string) (cp : Z) :
  (cls, cp) ∈ (getIconToCodepoint parseCssSelector contentCodepoint children).2 →
  ∃ node, node ∈ children ∧ isAtOrPseudo (selector node) = false
          ∧ Rule [ClassName cls; PseudoElement "before"] ∈ parseCssSelector (selector node).
Proof.
  induction children as [|node children IH] using rev_ind; [by intros ?%elem_of_nil|].
  rewrite getIconToCodepoint_snoc. cbv zeta.
  assert ((cls, cp) ∈ (getIconToCodepoint parseCssSelector contentCodepoint children).2 →
          ∃ nd, nd ∈ children ++ [node] ∧ isAtOrPseudo (selector nd) = false
                ∧ Rule [ClassName cls; PseudoElement "before"] ∈ parseCssSelector (selector nd))
    as Hold.
  { intros (nd & Hnd & ?)%IH. exists nd. split; [|done]. apply elem_of_app. by left. }
  destruct (contentCodepoint (body node)) as [codepoint|]; [|done].
  rewrite Map_set_fold_elem_of. intros [[Hin _]|[_ Hin]]; [|by apply Hold].
  apply withBefore_classes in Hin as [Hat Hrule]. exists node. split; [|done].
  apply elem_of_app. right. by left.
Qed.

Lemma getClassesFromSelector_elem_of (sel cls : string) :
  cls ∈ getClassesFromSelector parseCssSelector sel
  ↔ isAtOrPseudo sel = false
    ∧ ∃ items, Rule items ∈ parseCssSelector sel ∧ firstClassName items = Some cls.
Proof.
  unfold getClassesFromSelector. destruct (isAtOrPseudo sel).
  - split; [by intros ?%elem_of_nil|by intros [? _]].
  - rewrite list_elem_of_omap. split.
    + intros ([items|] & Hin & Hfirst); [|done]. split; [done|]. eauto.
    + intros (_ & items & Hin & Hfirst). exists (Rule items). by split.
Qed.

Lemma getAllClasses_Set_from (children : list Node) :
  getAllClasses parseCssSelector children
  = JS.Set_from (children ≫= fun node => getClassesFromSelector parseCssSelector (selector node)).
Proof.
  unfold getAllClasses, JS.Set_from.
  induction children as [|node children IH] using rev_ind; [done|].
  rewrite foldl_app, bind_app, foldl_app, <-IH. cbn [foldl mbind list_bind].
  rewrite app_nil_r. unfold getClassesFromSelector.
  by destruct (isAtOrPseudo (selector node)).
Qed.

(** X20.  [getAllClasses] is the duplicate-free list, in order of first
    occurrence, of the first class of each rule of each node whose selector
    does not start with [@] or [:] (its own test of that adds nothing), and
    it holds every key of [getIconToCodepoint]. *)
Theorem X20_icon_classes_are_among_all_classes (children : list Node) :
  getAllClasses parseCssSelector children
  = JS.Set_from (children ≫= fun node => getClassesFromSelector parseCssSelector (selector node))
  ∧ NoDup (getAllClasses parseCssSelector children)
  ∧ (∀ cls, cls ∈ getAllClasses parseCssSelector children
            ↔ ∃ node items, node ∈ children ∧ isAtOrPseudo (selector node) = false
                            ∧ Rule items ∈ parseCssSelector (selector node)
                            ∧ firstClassName items = Some cls)
  ∧ (∀ cls cp, (cls, cp) ∈ (getIconToCodepoint parseCssSelector contentCodepoint children).2 →
               cls ∈ getAllClasses parseCssSelector children).
Proof.
  assert (∀ cls, cls ∈ getAllClasses parseCssSelector children
            ↔ ∃ node items, node ∈ children ∧ isAtOrPseudo (selector node) = false
                            ∧ Rule items ∈ parseCssSelector (selector node)
                            ∧ firstClassName items = Some cls) as Hall.
  { intros cls. rewrite getAllClasses_Set_from, Set_from_elem_of, list_elem_of_bind. split.
    - intros (node & (Hat & items & Hin & Hfirst)%getClassesFromSelector_elem_of & Hnode).
      exists node, items. by split_and!.
    - intros (node & items & Hnode & Hat & Hin & Hfirst). exists node. split; [|done].
      apply getClassesFromSelector_elem_of. eauto. }
  split_and!; [apply getAllClasses_Set_from| |done|].
  - rewrite getAllClasses_Set_from. apply Set_from_NoDup.
  - intros cls cp (node & Hnode & Hat & Hrule)%getIconToCodepoint_key_rule.
    apply Hall. exists node, [ClassName cls; PseudoElement "before"]. by split_and!.
Qed.

End CSSParserProps.

(** ** CSSParser: the descriptors and the candidate classes *)

Lemma Map_update_keys {V} (k : string) (f : V → V) (m : list (string * V)) :
  (Map_update k f m).*1 = m.*1.
Proof.
  unfold Map_update. rewrite <-list_fmap_compose. apply list_fmap_ext.
  intros i [k' v'] _. simpl. by case_bool_decide.
Qed.

Lemma list_find_cons_bool {A} (b : A → bool) (x : A) (l : list A) :
  list_find (fun y => Is_true (b y)) (x :: l)
  = if b x then Some (0%nat, x)
    else prod_map S id <$> list_find (fun y => Is_true (b y)) l.
Proof.
  cbn [list_find]. destruct (b x); by destruct (decide _).
Qed.

Section FontAssociations.
Variable parseCssSelector : string → option (list SelectorRule).
Variable getFontFamily : string → option string.
Variable getFontStyle : string → option FontStyle.
Variable getFontWeight : string → option FontWeight.
Variable matchUrls : string → list string.
Variable resolveURL : string → string → string.
Variable path_join : string → string → string.
Variable path_dirname : string → string.
Variable filename : string.

Local Abbreviation gather :=
  (gatherNode parseCssSelector getFontFamily getFontStyle getFontWeight matchUrls
     resolveURL path_join path_dirname filename).
Local Abbreviation gatherAll :=
  (gatherNodes parseCssSelector getFontFamily getFontStyle getFontWeight matchUrls
     resolveURL path_join path_dirname filename).
Local Abbreviation complete :=
  (completeFace getFontFamily getFontStyle getFontWeight matchUrls
     resolveURL path_join path_dirname filename).
Local Abbreviation parsed := (fun sel => default [] (parseCssSelector sel)).
Local Abbreviation firstThrows :=
  (fun node => Is_true (firstLoopParses node && rejected parseCssSelector node)).
Local Abbreviation secondThrows :=
  (fun node => Is_true (secondLoopParses node && rejected parseCssSelector node)).
Local Abbreviation incomplete :=
  (fun node => trim (selector node) = "@font-face" ∧ complete node = None).
Local Abbreviation candidatesOf :=
  (fun node =>
     if includes (body node) "font-family"
        && negb (bool_decide (trim (selector node) = "@font-face"))
     then getClassesFromSelector parsed (selector node)
     else []).

(** Where the parser accepts the selector, the throwing reader returns what
    the reader over the accepted selectors returns. *)
Lemma getClassesFromSelectorOrThrow_cases (sel : string) :
  match parseCssSelector sel with
  | Some _ =>
      getClassesFromSelectorOrThrow parseCssSelector sel
      = inr (getClassesFromSelector parsed sel)
  | None =>
      getClassesFromSelectorOrThrow parseCssSelector sel
      = if isAtOrPseudo sel then inr [] else inl (ParserError sel)
  end.
Proof.
  unfold getClassesFromSelectorOrThrow, getClassesFromSelector.
  destruct (parseCssSelector sel) as [rules|]; by destruct (isAtOrPseudo sel).
Qed.

Lemma variantCandidates_from (children : list Node) (vc : list (string * FontFace)) :
  let step := fun (vc : list (string * FontFace)) (node : Node) =>
    if includes (body node) "font-family"
       && negb (bool_decide (trim (selector node) = "@font-face"))
    then
      match getClassesFromSelectorOrThrow parseCssSelector (selector node) with
      | inl e => inl e
      | inr clss =>
          inr (foldl (fun vc cls =>
                        Map_set cls (mkFontFace "" style_normal w_normal [] [] None) vc)
                     vc clss)
      end
    else inr vc in
  match list_find firstThrows children with
  | Some (_, node) => foldE step vc children = inl (ParserError (selector node))
  | None =>
      ∃ vc', foldE step vc children = inr vc'
             ∧ vc'.*1 = foldl JS.Set_add vc.*1 (children ≫= candidatesOf)
  end.
Proof.
  intros step. revert vc. induction children as [|node children IH]; intros vc.
  - by exists vc.
  - rewrite list_find_cons_bool. cbn [foldE]. unfold step at 1 3.
    set (found := list_find firstThrows children) in *. clearbody found.
    unfold firstLoopParses, rejected.
    pose proof (getClassesFromSelectorOrThrow_cases (selector node)) as Hcases.
    rewrite bind_cons, foldl_app.
    destruct (includes (body node) "font-family"
              && negb (bool_decide (trim (selector node) = "@font-face"))) eqn:Hcond.
    + cbn [andb]. destruct (parseCssSelector (selector node)) as [rules|] eqn:Hparse.
      * rewrite andb_false_r, Hcases. fold step. specialize (IH (foldl (fun vc cls =>
                        Map_set cls (mkFontFace "" style_normal w_normal [] [] None) vc)
                     vc (getClassesFromSelector parsed (selector node)))).
        destruct found as [[i node']|]; [done|].
        destruct IH as (vc' & -> & Hkeys). exists vc'. split; [done|].
        by rewrite Hkeys, Map_set_fold_keys.
      * rewrite andb_true_r, Hcases.
        destruct (isAtOrPseudo (selector node)) eqn:Hat; cbn [negb]; [|done].
        cbn [foldl]. fold step. specialize (IH vc).
        destruct found as [[i node']|]; [done|].
        destruct IH as (vc' & -> & Hkeys). exists vc'. split; [done|].
        rewrite Hkeys. do 2 f_equal. unfold getClassesFromSelector. by rewrite Hat.
    + cbn [andb foldl]. fold step. specialize (IH vc).
      destruct found as [[i node']|]; [done|].
      destruct IH as (vc' & -> & Hkeys). by exists vc'.
Qed.

Lemma gatherItem_keys (b : string) (vc : list (string * FontFace)) (item : SelectorItem) :
  (gatherItem getFontFamily getFontStyle getFontWeight b vc item).*1 = vc.*1.
Proof.
  destruct item as [n| |]; cbn [gatherItem]; [|done..].
  case_bool_decide; [apply Map_update_keys|done].
Qed.

Lemma gather_step (warnings : list FaceWarning) (fontFaces : list FontFace)
    (vc : list (string * FontFace)) (node : Node) :
  if secondLoopParses node && rejected parseCssSelector node
  then gather (warnings, fontFaces, vc) node = inl (ParserError (selector node))
  else
    ∃ warnings' vc',
      gather (warnings, fontFaces, vc) node
      = inr (warnings', fontFaces ++ option_list (complete node), vc')
      ∧ vc'.*1 = vc.*1
      ∧ length warnings'
        = (length warnings + if bool_decide (incomplete node) then 1 else 0)%nat.
Proof.
  unfold gatherNode, completeFace, secondLoopParses, rejected.
  destruct (decide (trim (selector node) = "@font-face")) as [Heq|Hne].
  - rewrite !(bool_decide_eq_true_2 (trim (selector node) = "@font-face")) by done.
    cbn [negb andb].
    destruct (getFontFamily (body node)) as [fam|].
    + destruct (decide (fam = "")) as [->|Hfam].
      * rewrite !(bool_decide_eq_true_2 ("" = "")) by done.
        destruct (getFontStyle (body node)), (getFontWeight (body node));
          (eexists _, vc; rewrite bool_decide_eq_true_2 by done;
           split_and!; [by rewrite app_nil_r|done|rewrite length_app; simpl; lia]).
      * rewrite !(bool_decide_eq_false_2 (fam = "")) by done.
        destruct (getFontStyle (body node)) as [sty|].
        -- destruct (getFontWeight (body node)) as [wgt|].
           ++ eexists _, vc. rewrite bool_decide_eq_false_2 by (by intros [_ ?]).
              split_and!; [done|done|lia].
           ++ eexists _, vc. rewrite bool_decide_eq_true_2 by done.
              split_and!; [by rewrite app_nil_r|done|rewrite length_app; simpl; lia].
        -- eexists _, vc. rewrite bool_decide_eq_true_2 by done.
           split_and!; [by rewrite app_nil_r|done|rewrite length_app; simpl; lia].
    + eexists _, vc. rewrite bool_decide_eq_true_2 by done.
      split_and!; [by rewrite app_nil_r|done|rewrite length_app; simpl; lia].
  - rewrite !(bool_decide_eq_false_2 (trim (selector node) = "@font-face")) by done.
    rewrite bool_decide_eq_false_2 by (by intros [? _]).
    cbn [negb andb].
    destruct (startsWith (trim (selector node)) "@" || startsWith (trim (selector node)) ":").
    + cbn [negb andb]. eexists _, vc. split_and!; [by rewrite app_nil_r|done|lia].
    + cbn [negb andb]. destruct (parseCssSelector (selector node)) as [rules|]; [|done].
      eexists _, _. split_and!; [by rewrite app_nil_r| |lia].
      revert vc. induction rules as [|r rules IH]; intros vc; [done|].
      cbn [foldl]. rewrite IH. destruct r as [items|]; [|done].
      revert vc. induction items as [|item items IHi]; intros vc; [done|].
      cbn [foldl]. by rewrite IHi, gatherItem_keys.
Qed.

Lemma gather_fold (children : list Node) (warnings : list FaceWarning)
    (fontFaces : list FontFace) (vc : list (string * FontFace)) :
  match list_find secondThrows children with
  | Some (i, node) =>
      ∃ warnings' fontFaces' vc',
        gatherAll (warnings, fontFaces, vc) children
        = ((warnings', fontFaces', vc'), Some (ParserError (selector node)))
        ∧ length warnings'
          = (length warnings + length (filter incomplete (take i children)))%nat
  | None =>
      ∃ warnings' vc',
        gatherAll (warnings, fontFaces, vc) children
        = ((warnings', fontFaces ++ omap complete children, vc'), None)
        ∧ vc'.*1 = vc.*1
        ∧ length warnings'
          = (length warnings + length (filter incomplete children))%nat
  end.
Proof.
  revert warnings fontFaces vc. induction children as [|node children IH];
    intros warnings fontFaces vc.
  - exists warnings, vc. cbn. rewrite app_nil_r. split_and!; [done|done|lia].
  - rewrite list_find_cons_bool. cbn [gatherNodes].
    pose proof (gather_step warnings fontFaces vc node) as Hstep.
    destruct (secondLoopParses node && rejected parseCssSelector node).
    + rewrite Hstep. exists warnings, fontFaces, vc. split; [done|]. cbn. lia.
    + destruct Hstep as (w1 & vc1 & -> & Hk1 & Hl1).
      specialize (IH w1 (fontFaces ++ option_list (complete node)) vc1).
      destruct (list_find secondThrows children) as [[i node']|]; cbn [fmap option_fmap option_map prod_map id fst snd].
      * destruct IH as (w2 & ffs2 & vc2 & -> & Hl2). exists w2, ffs2, vc2.
        split; [done|]. rewrite Hl2, Hl1. cbn [take]. rewrite filter_cons.
        case_bool_decide as Hb.
        -- rewrite decide_True by done. simpl. lia.
        -- rewrite decide_False by done. lia.
      * destruct IH as (w2 & vc2 & -> & Hk2 & Hl2). exists w2, vc2. split_and!.
        -- rewrite <-app_assoc. do 3 f_equal. cbn [omap list_omap].
           by destruct (complete node).
        -- congruence.
        -- rewrite Hl2, Hl1, filter_cons. case_bool_decide as Hb.
           ++ rewrite decide_True by done. simpl. lia.
           ++ rewrite decide_False by done. lia.
Qed.

Lemma complete_Some (node : Node) (ff : FontFace) :
  complete node = Some ff →
  trim (selector node) = "@font-face"
  ∧ getFontFamily (body node) = Some (family ff) ∧ family ff ≠ ""
  ∧ getFontStyle (body node) = Some (style ff)
  ∧ getFontWeight (body node) = Some (weight ff)
  ∧ srcs ff = (getRelativeFile resolveURL path_join path_dirname filename
                 <$> getFontSrcs matchUrls (body node))
  ∧ clss ff = [] ∧ font ff = None.
Proof.
  unfold completeFace. case_bool_decide as Ht; [|done].
  destruct (getFontFamily (body node)) as [fam|]; [|done].
  destruct (getFontStyle (body node)) as [sty|]; [|done].
  destruct (getFontWeight (body node)) as [wgt|]; [|done].
  case_bool_decide as Hf; [done|]. intros [= <-]. by split_and!.
Qed.

(** X21.  [parseFontAssociations] parses selectors for the first time, and
    the parser throws on a selector it rejects.  When some node whose body
    mentions [font-family], other than an [@font-face] rule or a selector
    starting with [@] or [:], has a rejected selector, the first loop throws
    at the first such node and nothing is written.  Otherwise, when some node
    that is neither an [@font-face] rule nor starts with [@] or [:] has a
    rejected selector, the second loop throws at the first such node, after
    one warning for each [@font-face] node before it that lacks a non-empty
    family, a style or a weight.  Otherwise the function returns: the first
    two loops give, in order, one descriptor per [@font-face] node with a
    non-empty family, a style and a weight, with no class and no font yet,
    and one warning per other [@font-face] node; the candidate classes are
    distinct keys, namely the first classes of the rules of the nodes whose
    body mentions [font-family]; and the result is the association loop's
    on these. *)
Theorem X21_descriptors_are_the_complete_font_face_rules (children : list Node) :
  let faces := omap complete children in
  let result :=
    parseFontAssociations parseCssSelector getFontFamily getFontStyle getFontWeight
      matchUrls resolveURL path_join path_dirname filename children in
  match list_find firstThrows children with
  | Some (_, node) => result = ([], inl (ParserError (selector node)))
  | None =>
      match list_find secondThrows children with
      | Some (i, node) =>
          ∃ warnings,
            result = (warnings, inl (ParserError (selector node)))
            ∧ length warnings = length (filter incomplete (take i children))
      | None =>
          ∃ warnings vc0 vc,
            variantCandidates parseCssSelector children = inr vc0
            ∧ gatherAll ([], [], vc0) children = ((warnings, faces, vc), None)
            ∧ result
              = (warnings,
                 inr ((associateClasses faces vc).1.1, (associateClasses faces vc).1.2))
            ∧ length warnings = length (filter incomplete children)
            ∧ NoDup vc.*1
            ∧ (∀ cls, cls ∈ vc.*1
                      ↔ ∃ node classes,
                          node ∈ children
                          ∧ includes (body node) "font-family" = true
                          ∧ trim (selector node) ≠ "@font-face"
                          ∧ getClassesFromSelectorOrThrow parseCssSelector (selector node)
                            = inr classes
                          ∧ cls ∈ classes)
            ∧ Forall (fun ff => clss ff = [] ∧ font ff = None ∧ family ff ≠ "") faces
      end
  end.
Proof.
  intros faces result. subst result. unfold parseFontAssociations.
  pose proof (variantCandidates_from children []) as Hfirst. cbv zeta in Hfirst.
  fold (variantCandidates parseCssSelector children) in Hfirst.
  destruct (list_find firstThrows children) as [[i1 node1]|] eqn:Hfind1.
  { by rewrite Hfirst. }
  destruct Hfirst as (vc0 & Hvc0 & Hkeys0). rewrite Hvc0.
  pose proof (gather_fold children [] [] vc0) as Hsecond.
  destruct (list_find secondThrows children) as [[i2 node2]|] eqn:Hfind2.
  { destruct Hsecond as (warnings & fontFaces & vc & -> & Hlen). by exists warnings. }
  destruct Hsecond as (warnings & vc & Hfold & Hkeys & Hlen).
  cbn [app] in Hfold. fold faces in Hfold.
  exists warnings, vc0, vc. rewrite Hfold. split_and!.
  - done.
  - done.
  - by destruct (associateClasses faces vc) as [[log associated] left_over].
  - by rewrite Hlen.
  - rewrite Hkeys, Hkeys0. apply Set_from_NoDup.
  - apply list_find_None in Hfind1.
    intros cls. rewrite Hkeys, Hkeys0. cbn [fmap list_fmap].
    change (foldl JS.Set_add [] ?l) with (JS.Set_from l).
    rewrite Set_from_elem_of, list_elem_of_bind.
    assert (∀ node, node ∈ children →
              includes (body node) "font-family" = true →
              trim (selector node) ≠ "@font-face" →
              getClassesFromSelectorOrThrow parseCssSelector (selector node)
              = inr (getClassesFromSelector parsed (selector node))) as Hagree.
    { intros node Hnode Hinc Ht.
      pose proof (proj1 (Forall_forall _ _) Hfind1 node Hnode) as Hno.
      pose proof (getClassesFromSelectorOrThrow_cases (selector node)) as Hcases.
      unfold firstLoopParses, rejected in Hno.
      rewrite Hinc, (bool_decide_eq_false_2 _ Ht) in Hno. cbn [negb andb] in Hno.
      destruct (parseCssSelector (selector node)) as [rules|]; [done|].
      rewrite Hcases. unfold getClassesFromSelector.
      destruct (isAtOrPseudo (selector node)); [done|].
      exfalso. by apply Hno. }
    split.
    + intros (node & Hcls & Hnode). exists node.
      destruct (includes (body node) "font-family") eqn:Hinc; [|by apply elem_of_nil in Hcls].
      case_bool_decide as Ht; [by apply elem_of_nil in Hcls|].
      exists (getClassesFromSelector parsed (selector node)).
      split_and!; [done|done|done|by apply Hagree|done].
    + intros (node & classes & Hnode & Hinc & Ht & Hclasses & Hcls). exists node.
      split; [|done]. rewrite Hinc, (bool_decide_eq_false_2 _ Ht). cbn [negb andb].
      rewrite (Hagree node Hnode Hinc Ht) in Hclasses. by injection Hclasses as <-.
  - apply Forall_forall. intros ff (node & _ & Hc)%list_elem_of_omap.
    apply complete_Some in Hc. tauto.
Qed.

End FontAssociations.

(** The sample sheet: the constructor returns, with one warning for the
    [@font-face] rule without a style; with a node after it whose selector
    the parser rejects, the second loop throws after that warning; with such
    a node whose body mentions [font-family], the first loop throws before
    anything is written; and a rejected selector that starts with [:] is
    never given to the parser. *)
Example parser_error_leaves_the_constructor :
  sampleConstructor sampleSheet
  = ([SkippingWithoutStyle],
     inr (["Associated class fas with font face Font Awesome 6 Free, normal, 900."],
          [mkFontFace "Font Awesome 6 Free" style_normal w900 [] ["fas"] None]))
  ∧ sampleConstructor (sampleSheet ++ [mkNode ".fa[" "color: red"])
    = ([SkippingWithoutStyle], inl (ParserError ".fa["))
  ∧ sampleConstructor (mkNode ".fa[" "font-family: inherit" :: sampleSheet)
    = ([], inl (ParserError ".fa["))
  ∧ sampleConstructor (mkNode ":root, .fa[" "font-family: inherit" :: sampleSheet)
    = sampleConstructor sampleSheet.
Proof. split_and!; vm_compute; reflexivity. Qed.

(** ** From the style sheet to the engine *)

Lemma Set_from_of_NoDup (l : list string) : NoDup l → JS.Set_from l = l.
Proof.
  unfold JS.Set_from. induction l as [|x l IH] using rev_ind; [done|].
  intros [Hnd [Hx _]]%NoDup_app. rewrite foldl_app, IH by done. cbn [foldl].
  unfold JS.Set_add. rewrite bool_decide_eq_false_2; [done|].
  intros Hin. apply (Hx x Hin). by left.
Qed.

Lemma addGlyph_error (ff : FontFaceRef) (cp : Z) (st : MinifyState) (e : Error) :
  addGlyph ff cp st = Throw e → e = TypeError.
Proof.
  unfold addGlyph. destruct (font ff.2) as [f|]; [|by intros [= <-]].
  destruct (Font_find f [cp]) as [|g0 rest]; [done|].
  destruct (oldCodepointsToNew st !! ff.1) as [m|]; [|by intros [= <-]].
  destruct (JS.falsy (m !! cp)); [|done]. by destruct (newCodepoint st).
Qed.

Lemma useFont_error (icon : Icon) (cp : Z) (st : MinifyState) (ff : FontFaceRef) (n : string) :
  useFont icon cp st ff ≠ Throw (NoCodepointFound n).
Proof.
  unfold useFont. destruct (addGlyph ff cp st) as [[newcp st1]|e] eqn:Ha.
  - cbn. destruct newcp as [k|]; [|done]. by destruct (JS.falsy (Some k)).
  - apply addGlyph_error in Ha as ->. done.
Qed.

Lemma expandInto_error (icon : Icon) (cp : Z) (l : list FontFaceRef) (st : MinifyState)
    (n : string) :
  foldM (expandInto icon cp) st l ≠ Throw (NoCodepointFound n).
Proof.
  revert st. induction l as [|ff l IH]; intros st; [done|]. cbn [foldM].
  destruct (expandInto icon cp st ff) as [st'|e] eqn:He; [apply IH|].
  cbn. unfold expandInto in He.
  destruct (addGlyph ff cp st) as [[newcp st1]|e'] eqn:Ha.
  - cbn in He. destruct newcp as [k|]; [|done]. by destruct (JS.falsy (Some k)).
  - apply addGlyph_error in Ha as ->. cbn in He. by injection He as <-.
Qed.

Lemma lookupCodepoint_error (iconToCodepoint : gmap string Z) (icon : Icon) (e : Error) :
  lookupCodepoint iconToCodepoint icon = Throw e →
  e = NoCodepointFound (name icon)
  ∧ (iconToCodepoint !! name icon = None ∨ iconToCodepoint !! name icon = Some 0).
Proof.
  unfold lookupCodepoint. destruct (iconToCodepoint !! name icon) as [cp|]; [|by intros [= <-]; auto].
  cbn. case_bool_decide as Hz; [|done]. intros [= <-]. subst cp. auto.
Qed.

Lemma step_no_codepoint (step : MinifyState → Icon → Res MinifyState)
    (iconToCodepoint : gmap string Z) (icons : list Icon) (st : MinifyState) (n : string) :
  (∀ st icon n, step st icon = Throw (NoCodepointFound n) →
                name icon = n
                ∧ (iconToCodepoint !! n = None ∨ iconToCodepoint !! n = Some 0)) →
  foldM step st icons = Throw (NoCodepointFound n) →
  ∃ icon, icon ∈ icons
          ∧ name icon = n
          ∧ (iconToCodepoint !! n = None ∨ iconToCodepoint !! n = Some 0).
Proof.
  intros Hstep. revert st. induction icons as [|icon icons IH]; intros st; [done|].
  cbn [foldM]. destruct (step st icon) as [st'|e] eqn:Hs.
  - cbn. intros (icon' & Hin & Hrest)%IH. exists icon'. split; [by right|done].
  - cbn. intros [= ->]. exists icon. split; [by left|]. by eapply Hstep.
Qed.

Lemma minify_run_no_codepoint (ffs : list FontFace) (icons : list Icon)
    (iconToCodepoint : gmap string Z) (base : Z) (n : string) :
  minify_run ffs icons iconToCodepoint base = Throw (NoCodepointFound n) →
  ∃ icon, icon ∈ icons
          ∧ name icon = n
          ∧ (iconToCodepoint !! n = None ∨ iconToCodepoint !! n = Some 0).
Proof.
  unfold minify_run. case_bool_decide as Hlen; [done|]. destruct (isMultiVariant ffs).
  - apply step_no_codepoint. intros st icon n'. unfold minifyIconMulti.
    destruct (lookupCodepoint iconToCodepoint icon) as [cp|e] eqn:Hl.
    + cbn -[useFont expandInto]. destruct (filter _ (refs ffs) !! 0%nat) as [ff|].
      * intros Hthrow. by apply useFont_error in Hthrow.
      * intros Hthrow. by apply expandInto_error in Hthrow.
    + apply lookupCodepoint_error in Hl as [-> Hmiss]. cbn. by intros [= <-].
  - destruct (refs ffs !! 0%nat) as [ff|]; [|done].
    apply step_no_codepoint. intros st icon n'. unfold minifyIconSingle.
    destruct (lookupCodepoint iconToCodepoint icon) as [cp|e] eqn:Hl.
    + cbn -[useFont]. intros Hthrow. by apply useFont_error in Hthrow.
    + apply lookupCodepoint_error in Hl as [-> Hmiss]. cbn. by intros [= <-].
Qed.

(** X26.  When the icon classes are the keys of the codepoint map read from
    the style sheet and step 5 succeeds, every parsed icon has an entry in
    the table the engine looks up; so the engine can throw the no-codepoint
    error only for a name whose codepoint in the style sheet is 0. *)
Theorem X26_no_codepoint_error_only_for_codepoint_zero
    (iconToCodepoint : list (string * Z)) (unparsedIcons : list (list string))
    (log : list string) (icons : list Icon) :
  NoDup iconToCodepoint.*1 →
  parseIcons unparsedIcons (iconClassesOf iconToCodepoint) = (log, Ok icons) →
  iconClassesOf iconToCodepoint = iconToCodepoint.*1
  ∧ Forall (fun icon => ∃ cp, (name icon, cp) ∈ iconToCodepoint
                              ∧ tableOf iconToCodepoint !! name icon = Some cp) icons
  ∧ ∀ ffs base n,
      minify_run ffs icons (tableOf iconToCodepoint) base = Throw (NoCodepointFound n) →
      (n, 0) ∈ iconToCodepoint.
Proof.
  intros Hnd Hp.
  assert (iconClassesOf iconToCodepoint = iconToCodepoint.*1) as Hkeys
    by (by apply Set_from_of_NoDup).
  rewrite Hkeys in Hp.
  assert (∀ icon, icon ∈ icons → ∃ cp, (name icon, cp) ∈ iconToCodepoint
                                       ∧ tableOf iconToCodepoint !! name icon = Some cp)
    as Hentry.
  { apply parseIcons_Ok_inv in Hp as (rs & Hrs & ->).
    intros icon (r & Hr & Hid)%list_elem_of_omap. simpl in Hid. subst r.
    apply list_elem_of_lookup in Hr as [i Hi].
    destruct (Forall2_lookup_r _ _ _ _ _ Hrs Hi) as (u & _ & l & Hu).
    destruct (Icon_parse_Some_Permutation _ _ _ _ Hu) as (_ & Hname & _).
    apply list_elem_of_fmap in Hname as ([k cp] & Hk & Hin). simpl in Hk. subst k.
    exists cp. split; [done|]. by apply elem_of_list_to_map_1. }
  split_and!; [done|by apply Forall_forall|].
  intros ffs base n (icon & Hin & <- & Hmiss)%minify_run_no_codepoint.
  destruct (Hentry icon Hin) as (cp & Hcp & Hlookup).
  destruct Hmiss as [Hnone|Hzero]; [congruence|].
  rewrite Hlookup in Hzero. injection Hzero as ->. done.
Qed.

(** X26 at the sample matches and four entries. *)
Lemma X26_no_codepoint_error_witness :
  ∃ log,
    parseIcons (findIcons sampleMatches) (iconClassesOf sampleEntries)
    = (log, Ok [mkIcon "fa-google" ["fab"]; mkIcon "fa-home" ["fas"]])
    ∧ Forall (fun icon => ∃ cp, (name icon, cp) ∈ sampleEntries
                                ∧ tableOf sampleEntries !! name icon = Some cp)
             [mkIcon "fa-google" ["fab"]; mkIcon "fa-home" ["fas"]].
Proof.
  eexists. split; [vm_compute; reflexivity|].
  eapply (X26_no_codepoint_error_only_for_codepoint_zero sampleEntries (findIcons sampleMatches)).
  - apply (bool_decide_unpack _). by vm_compute.
  - vm_compute; reflexivity.
Defined.

(** X4 at four matches, two of them the same combination. *)
Lemma X4_parsed_icons_witness :
  ∃ log,
    parseIcons (findIcons sampleMatches) sampleIconClasses
    = (log, Ok [mkIcon "fa-google" ["fab"]; mkIcon "fa-home" ["fas"]])
    ∧ NoDup [mkIcon "fa-google" ["fab"]; mkIcon "fa-home" ["fas"]].
Proof.
  eexists. split; [vm_compute; reflexivity|].
  eapply proj1.
  eapply (X4_icons_parsed_from_findIcons_are_distinct sampleMatches sampleIconClasses).
  vm_compute; reflexivity.
Defined.

(** X6 at the sample fonts and icons. *)
Lemma X6_registered_witness :
  ∃ st,
    minify_run [brands; solid] sampleIcons sampleTable defaultBase = Ok st
    ∧ ∃ j cp n sels,
        requestsOf [brands; solid] sampleTable (mkIcon "fa-google" ["fab"]) = [(j, cp)]
        ∧ sampleTable !! "fa-google" = Some cp
        ∧ codepointOf st j cp = Some n
        ∧ newCodepointsToClasses st !! n = Some sels
        ∧ toIconSelector (mkIcon "fa-google" ["fab"]) ∈ sels.
Proof.
  eexists. split; [vm_compute; reflexivity|].
  apply (X6_every_directly_resolved_icon_is_registered
           [brands; solid] sampleIcons sampleTable defaultBase _ (mkIcon "fa-google" ["fab"])).
  - reflexivity.
  - vm_compute; reflexivity.
  - by left.
  - right. vm_compute. eexists; reflexivity.
Defined.

(** X7 at an icon missing from the sample table. *)
Lemma X7_missing_codepoint_witness :
  minify_run [brands; solid]
    ([mkIcon "fa-google" ["fab"]] ++ mkIcon "fa-rocket" ["fas"] :: [mkIcon "fa-home" ["fas"]])
    sampleTable defaultBase
  = Throw (NoCodepointFound "fa-rocket").
Proof.
  destruct (X7_icon_without_usable_codepoint_fails_the_pass [brands; solid] sampleTable
              defaultBase) as [_ Hfail].
  eapply (Hfail [mkIcon "fa-google" ["fab"]] (mkIcon "fa-rocket" ["fas"])).
  - vm_compute; reflexivity.
  - left. vm_compute; reflexivity.
Defined.

(** X8 at an icon whose glyph neither sample font holds. *)
Lemma X8_dropped_icon_witness :
  minify_run [brands; solid]
    ([mkIcon "fa-google" ["fab"]] ++ mkIcon "fa-rocket" ["fa-lg"] :: [mkIcon "fa-home" ["fas"]])
    sampleTableWithRocket defaultBase
  = minify_run [brands; solid]
      ([mkIcon "fa-google" ["fab"]] ++ [mkIcon "fa-home" ["fas"]])
      sampleTableWithRocket defaultBase.
Proof.
  apply (X8_icon_without_variant_class_and_glyph_is_dropped_silently
           [brands; solid] sampleTableWithRocket defaultBase
           [mkIcon "fa-google" ["fab"]] [mkIcon "fa-home" ["fas"]]
           (mkIcon "fa-rocket" ["fa-lg"]) 0xf135).
  - reflexivity.
  - vm_compute; reflexivity.
  - discriminate.
  - repeat constructor; try (vm_compute; reflexivity); eexists; reflexivity.
Defined.

(** X10 at three descriptors and four candidate classes. *)
Lemma X10_association_witness :
  NoDup sampleVariants.*1
  ∧ clss <$> (associateClasses sampleFaces sampleVariants).1.2
    = [["fab"; "fa-brands"]; ["fas"]; []]
  ∧ (associateClasses sampleFaces sampleVariants).2.*1 = ["fa"]
  ∧ length (associateClasses sampleFaces sampleVariants).1.2 = length sampleFaces.
Proof.
  assert (NoDup sampleVariants.*1) as Hnd by (apply (bool_decide_unpack _); by vm_compute).
  split_and!; [done|vm_compute; reflexivity..|].
  pose proof (X10_classes_attach_to_the_first_face_with_equal_triple
                sampleFaces sampleVariants Hnd) as Hthm.
  destruct (associateClasses sampleFaces sampleVariants) as [[log associated] left_over].
  by destruct Hthm.
Defined.

(** X11 at the same descriptors. *)
Lemma X11_active_descriptors_witness :
  clss <$> activeFonts (associateClasses sampleFaces sampleVariants).1.2
  = [["fab"; "fa-brands"]; ["fas"]]
  ∧ Forall (fun ff => clss ff ≠ []
                      ∧ Forall (fun cls => cls ∈ sampleVariants.*1) (clss ff))
           (activeFonts (associateClasses sampleFaces sampleVariants).1.2).
Proof.
  split; [vm_compute; reflexivity|].
  eapply proj1.
  apply (X11_active_descriptors_have_classes_and_distinct_triples sampleFaces sampleVariants).
  - apply (bool_decide_unpack _); by vm_compute.
  - repeat constructor.
Defined.

(** X18 at the sample matches and classes. *)
Lemma X18_used_classes_witness :
  ∃ log icons,
    parseIcons (findIcons sampleMatches) sampleIconClasses = (log, Ok icons)
    ∧ nonIconUsedClasses (specialClasses sampleAllClasses sampleIconClasses) icons
      = ["fab"; "fas"]
    ∧ NoDup (nonIconUsedClasses (specialClasses sampleAllClasses sampleIconClasses) icons).
Proof.
  do 2 eexists. split; [vm_compute; reflexivity|].
  split; [vm_compute; reflexivity|].
  eapply (X18_used_non_icon_classes_are_modifiers_of_parsed_icons
            (findIcons sampleMatches) sampleIconClasses sampleAllClasses).
  vm_compute; reflexivity.
Defined.

(** X22 at a solid file. *)
Lemma X22_legacy_solid_file_witness :
  Legacy.faFindIconsAssociatedToFile
    [["fas"; "fa-home"]; ["fa-star"]; ["fab"; "fa-google"]; ["fab"; "fas"; "fa-x"]]
    "https://cdn.example/webfonts/fa-solid-900.woff2"
  = ([], inr (filter (Legacy.associatedTo ["fas"; "fa-solid"] true)
                [["fas"; "fa-home"]; ["fa-star"]; ["fab"; "fa-google"];
                 ["fab"; "fas"; "fa-x"]])).
Proof.
  apply (X22_legacy_icons_of_a_font_file
           [["fas"; "fa-home"]; ["fa-star"]; ["fab"; "fa-google"]; ["fab"; "fas"; "fa-x"]]
           "https://cdn.example/webfonts/fa-solid-900.woff2"); vm_compute; reflexivity.
Defined.

